(** * KanaPop: the simulation core of [App.tsx], embedded and verified

    The game keeps two lists of blocks (falling and stacked), a score and a
    streak, and a per-word spaced-repetition store.  Three entry points
    mutate them: [spawnKana], the per-frame [update] and [processInput].

    Numbers.  JavaScript numbers that are used as counters are modelled by
    [Z]; coordinates, speeds, probabilities and the SRS progress are
    modelled by rationals [Q] (the values the program manipulates are sums
    of a few short decimal constants, and no statement below depends on
    rounding).  [Math.random()] and the random identifiers are explicit
    arguments.  Strings are [string]; a displayed text is the list of its
    UTF-16 code units, which is what [split('')] produces. *)

From Stdlib Require Import ZArith QArith Qminmax Qround Qabs Lia Lqa Bool List.
From stdpp Require Import gmap strings.
Import ListNotations.

#[local] Open Scope Z_scope.

(** ** JavaScript odds and ends *)

(** One UTF-16 code unit of a displayed text. *)
Definition glyph := string.

(** Truthiness of an optional string: [undefined] and [''] are falsy. *)
Definition truthy (o : option string) : bool :=
  match o with
  | Some s => negb (String.eqb s EmptyString)
  | None => false
  end.

(** Truthiness of an optional text. *)
Definition truthyText (o : option (list glyph)) : bool :=
  match o with
  | Some (_ :: _) => true
  | _ => false
  end.

(** [a === b] on two optional strings ([undefined === undefined] holds). *)
Definition optStrEq (a b : option string) : bool :=
  match a, b with
  | Some s, Some t => String.eqb s t
  | None, None => true
  | _, _ => false
  end.

(** [a === b] on texts. *)
Fixpoint textEq (a b : list glyph) : bool :=
  match a, b with
  | [], [] => true
  | g :: a', h :: b' => String.eqb g h && textEq a' b'
  | _, _ => false
  end.

Definition Qleb (a b : Q) : bool := Qle_bool a b.
Definition Qltb (a b : Q) : bool := negb (Qle_bool b a).

(** [Math.min(...l)] for a list known to be non-empty; [d] stands for the
    value the caller uses when the list is empty. *)
Definition minOr (d : Q) (l : list Q) : Q :=
  match l with
  | [] => d
  | q :: r => fold_left Qmin r q
  end.

(** [Math.max(...l)], likewise. *)
Definition maxOr (d : Q) (l : list Q) : Q :=
  match l with
  | [] => d
  | q :: r => fold_left Qmax r q
  end.

(** ** types.ts *)

Inductive KanaMode := hiragana | katakana | both | words.
Inductive Difficulty := slow | normal | fast.
Inductive KanaType := TyHiragana | TyKatakana | TyWord.
Inductive PartOfSpeech := Verb | Noun | Adverb | Adjective | Other.
Inductive ConfidenceLevel := confident | hesitant | difficult.
Inductive ExplosionType := ExNormal | ExConfident.

Definition KanaMode_eqb (a b : KanaMode) : bool :=
  match a, b with
  | hiragana, hiragana | katakana, katakana | both, both | words, words => true
  | _, _ => false
  end.

Definition isWordType (t : KanaType) : bool :=
  match t with TyWord => true | _ => false end.

(** [interface KanaCharacter]: one falling or stacked block. *)
Module Kana.
Record t := mk {
  id : string;
  char : glyph;
  romaji : string;
  type : KanaType;
  x : Q;
  y : Q;
  column : Z;
  isDead : bool;
  kanji : option (list glyph);
  en : option string;
  wordId : option string;
  wordGroupId : option string;
  wordRomaji : option string;
  wordIndex : option Z;
  wordLength : option Z;
  pos : option PartOfSpeech;
  stackedAt : option Z;
  hintCount : option Z
}.

(** [{ ...k, y: y' }] *)
Definition withY (k : t) (y' : Q) : t :=
  mk (id k) (char k) (romaji k) (type k) (x k) y' (column k) (isDead k)
     (kanji k) (en k) (wordId k) (wordGroupId k) (wordRomaji k)
     (wordIndex k) (wordLength k) (pos k) (stackedAt k) (hintCount k).

(** [{ ...k, y: y', stackedAt: n }] *)
Definition landedAt (k : t) (y' : Q) (n : Z) : t :=
  mk (id k) (char k) (romaji k) (type k) (x k) y' (column k) (isDead k)
     (kanji k) (en k) (wordId k) (wordGroupId k) (wordRomaji k)
     (wordIndex k) (wordLength k) (pos k) (Some n) (hintCount k).

(** [k.wordGroupId || k.id], the key under which a block is grouped. *)
Definition groupKey (k : t) : string :=
  match wordGroupId k with
  | Some g => if String.eqb g EmptyString then id k else g
  | None => id k
  end.
End Kana.

(** [interface WordSRSData]; [nextReviewSession] is [None] where the
    program computes [NaN] (an interval looked up outside the table). *)
Module Srs.
Record t := mk {
  level : Z;
  progress : Q;
  nextReviewSession : option Z;
  confidentCount : Z;
  hesitantCount : Z;
  difficultCount : Z;
  lastAttemptSession : Z
}.
End Srs.

(** [type WordSRS = Record<string, WordSRSData>] *)
Abbreviation WordSRS := (gmap string Srs.t).

(** [interface Explosion], without its random [id]. *)
Module Explosion.
Record t := mk { x : Q; y : Q; type : option ExplosionType }.
End Explosion.

(** ** srs.ts *)

Definition SRS_INTERVALS : list Z := [0; 1; 3; 7; 14; 30; 60].
Definition SRS_MAX_LEVEL : Z := 6.
Definition MASTERY_THRESHOLD : Z := 6.
Definition CONFIDENCE_THRESHOLD_DIFFICULT : Z := 10.
Definition CONFIDENCE_THRESHOLD_HESITANT : Z := 4.
Definition PROGRESS_CONFIDENT : Q := 0.5.
Definition PROGRESS_HESITANT : Q := 0.25.
Definition PROGRESS_DIFFICULT : Q := 0.

(** [SRS_INTERVALS[l]]: [undefined] outside the table. *)
Definition intervalAt (l : Z) : option Z :=
  if l <? 0 then None else nth_error SRS_INTERVALS (Z.to_nat l).

(** ** The SRS update of [processInput] (the [setWordSRS] updater) *)

Definition freshSrs (sessionNumber : Z) : Srs.t :=
  Srs.mk 0 0 (Some 0) 0 0 0 sessionNumber.

Definition progressGain (c : ConfidenceLevel) : Q :=
  match c with
  | confident => PROGRESS_CONFIDENT
  | hesitant => PROGRESS_HESITANT
  | difficult => PROGRESS_DIFFICULT
  end.

Definition bump (c d : ConfidenceLevel) : Z :=
  match c, d with
  | confident, confident | hesitant, hesitant | difficult, difficult => 1
  | _, _ => 0
  end.

(** The record written for a word whose current record is [current]. *)
Definition srsNext (sessionNumber : Z) (c : ConfidenceLevel) (current : Srs.t) : Srs.t :=
  let newProgress := (Srs.progress current + progressGain c)%Q in
  let newLevel := Srs.level current in
  let levelUp := Qleb 1 newProgress && (newLevel <? SRS_MAX_LEVEL) in
  let newLevel := if levelUp then newLevel + 1 else newLevel in
  let newProgress := if levelUp then 0%Q else newProgress in
  let nextReview :=
    match intervalAt newLevel with
    | Some i => Some (sessionNumber + i)
    | None => None
    end in
  Srs.mk newLevel (Qmin 1 newProgress) nextReview
         (Srs.confidentCount current + bump c confident)
         (Srs.hesitantCount current + bump c hesitant)
         (Srs.difficultCount current + bump c difficult)
         sessionNumber.

Definition srsUpdate (sessionNumber : Z) (wordId : string) (c : ConfidenceLevel)
    (prev : WordSRS) : WordSRS :=
  let current := default (freshSrs sessionNumber) (prev !! wordId) in
  <[wordId := srsNext sessionNumber c current]> prev.

(** A sequence of clear events, each a word and the confidence of its clear. *)
Definition srsRun (sessionNumber : Z) (events : list (string * ConfidenceLevel))
    (store : WordSRS) : WordSRS :=
  fold_left (fun st e => srsUpdate sessionNumber (fst e) (snd e) st) events store.

(** ** The review chance of [spawnKana] *)

(** [reviewChance] for [n = dueWords.length]. *)
Definition reviewChance (n : nat) : Q :=
  if (0 <? Z.of_nat n) then Qmin 0.5 (0.3 + inject_Z (Z.of_nat n) * 0.05) else 0.

(** ** GameState and the per-application references *)

(** [interface GameState].  The fields [souls], [wordPopups], [stats] and
    [level] are presentation bookkeeping: nothing below reads them and they
    do not feed back into the fields kept here. *)
Module Game.
Record t := mk {
  score : Z;
  isActive : bool;
  isGameOver : bool;
  isPaused : bool;
  activeKana : list Kana.t;
  stackedKana : list Kana.t;
  explosions : list Explosion.t;
  mode : KanaMode;
  difficulty : Difficulty;
  frozenUntil : Z;
  streak : Z;
  isFreezeAbilityActive : bool
}.

Definition withActive (g : t) (a : list Kana.t) : t :=
  mk (score g) (isActive g) (isGameOver g) (isPaused g) a (stackedKana g)
     (explosions g) (mode g) (difficulty g) (frozenUntil g) (streak g)
     (isFreezeAbilityActive g).

Definition withFreezeAbility (g : t) (b : bool) : t :=
  mk (score g) (isActive g) (isGameOver g) (isPaused g) (activeKana g)
     (stackedKana g) (explosions g) (mode g) (difficulty g) (frozenUntil g)
     (streak g) b.
End Game.

(** [startGame(mode, difficulty)] *)
Definition startGame (m : KanaMode) (d : Difficulty) : Game.t :=
  Game.mk 0 true false false [] [] [] m d 0 0 false.

(** The component: its React state and its [useRef] cells. *)
Module App.
Record t := mk {
  gameState : Game.t;
  wordSRS : WordSRS;
  sessionNumber : Z;
  blocksProcessed : Z;
  lastTime : option Q;
  spawnTimer : Q
}.

Definition withGame (a : t) (g : Game.t) : t :=
  mk g (wordSRS a) (sessionNumber a) (blocksProcessed a) (lastTime a) (spawnTimer a).
End App.

(** ** constants.ts and words.ts

    Neither file is part of the sources at hand; their exports are the
    fields of this class, with the types [App.tsx] uses them at. *)

Module Word.
Record t := mk {
  id : string;
  kana : list glyph;
  kanji : option (list glyph);
  romaji : string;
  en : option string;
  pos : option PartOfSpeech;
  morae : Z
}.
End Word.

Module KanaEntry.
Record t := mk { char : list glyph; romaji : string }.
End KanaEntry.

Class Constants := {
  COLUMNS : Z;
  CELL_SIZE : Q;
  BOARD_HEIGHT : Q;
  SPAWN_INTERVAL_BASE : Q;
  FALL_SPEED_BASE : Q;
  SPEED_MULTIPLIERS : Difficulty -> Q;
  HIRAGANA : list KanaEntry.t;
  KATAKANA : list KanaEntry.t;
  WORDS : list Word.t
}.

(** [Math.random()] and the identifiers drawn by one [spawnKana] call. *)
Module Rolls.
Record t := mk {
  review : Q;
  entry : Q;
  start : Q;
  groupId : string;
  blockId : nat -> string
}.
End Rolls.

(** ** spawnKana *)

Section Spawn.
Context {K : Constants}.

(** [wordSRS[id]?.level || 0] *)
Definition srsLevel (srs : WordSRS) (id : string) : Z :=
  match srs !! id with
  | Some d => Srs.level d
  | None => 0
  end.

(** [!wordSRS[w.id] || wordSRS[w.id].level === 0] *)
Definition unseen (srs : WordSRS) (w : Word.t) : bool :=
  match srs !! Word.id w with
  | Some d => Srs.level d =? 0
  | None => true
  end.

(** [WORDS.filter(w => w.morae === m)] *)
Definition wordsAtLevel (m : Z) : list Word.t :=
  List.filter (fun w => Word.morae w =? m) WORDS.

(** The score-based start of [maxMorae]. *)
Definition baseMorae (score : Z) : Z :=
  if score <? 500 then 2 else if score <? 1000 then 3 else 4.

(** One turn of the loop [for (m = 2; m <= 6; m++)]; the boolean records
    that [break] was executed. *)
Definition unlockStep (srs : WordSRS) (st : Z * bool) (m : Z) : Z * bool :=
  let '(maxMorae, stopped) := st in
  if stopped then st
  else if m <? maxMorae then st
  else
    match wordsAtLevel m with
    | [] => st
    | ws =>
        match List.filter (unseen srs) ws with
        | [] => (Z.max maxMorae (m + 1), false)
        | _ => (maxMorae, true)
        end
    end.

(** [maxMorae] after the progression check. *)
Definition maxMoraeOf (srs : WordSRS) (score : Z) : Z :=
  fst (fold_left (unlockStep srs) [2; 3; 4; 5; 6] (baseMorae score, false)).

(** [data.nextReviewSession <= sessionNumber] *)
Definition reviewReached (d : Srs.t) (sessionNumber : Z) : bool :=
  match Srs.nextReviewSession d with
  | Some n => n <=? sessionNumber
  | None => false
  end.

Definition dueWords (srs : WordSRS) (sessionNumber : Z) : list Word.t :=
  List.filter
    (fun w =>
       match srs !! Word.id w with
       | None => false
       | Some d => (MASTERY_THRESHOLD <=? Srs.level d) && reviewReached d sessionNumber
       end)
    WORDS.

(** The learning pool with its fallback. *)
Definition learningPool (srs : WordSRS) (maxMorae : Z) : list Word.t :=
  let eligible :=
    List.filter
      (fun w => (Word.morae w <=? maxMorae) && (srsLevel srs (Word.id w) <? MASTERY_THRESHOLD))
      WORDS in
  let inProgress := List.filter (fun w => 0 <? srsLevel srs (Word.id w)) eligible in
  let fresh := List.filter (unseen srs) eligible in
  let poolInProgress :=
    if (0 <? length fresh)%nat && (10 <? length inProgress)%nat
    then firstn 10 inProgress else inProgress in
  match firstn 15 (poolInProgress ++ fresh) with
  | [] => List.filter (fun w => Word.morae w <=? maxMorae) WORDS
  | cs => cs
  end.

(** The candidate list in words mode; [roll] is the [Math.random()] that
    is compared with [reviewChance]. *)
Definition wordCandidates (srs : WordSRS) (sessionNumber score : Z) (roll : Q) : list Word.t :=
  let maxMorae := maxMoraeOf srs score in
  let due := dueWords srs sessionNumber in
  let doReview := Qltb roll (reviewChance (length due)) in
  match (if doReview then due else []) with
  | [] => learningPool srs maxMorae
  | cs => cs
  end.

(** [list[Math.floor(r * list.length)]] *)
Definition pick {A} (r : Q) (l : list A) : option A :=
  let i := Qfloor (r * inject_Z (Z.of_nat (length l))) in
  if i <? 0 then None else nth_error l (Z.to_nat i).

(** What the rest of [spawnKana] reads from the chosen entry. *)
Record Chosen := mkChosen {
  cText : list glyph;
  cRomaji : string;
  cType : KanaType;
  cKanji : option (list glyph);
  cEn : option string;
  cWordId : option string;
  cPos : option PartOfSpeech
}.

Definition chooseWord (srs : WordSRS) (w : Word.t) : Chosen :=
  let level := if truthy (Some (Word.id w)) then srsLevel srs (Word.id w) else 0 in
  let showKanji := (2 <=? level) && truthyText (Word.kanji w) in
  let text := if showKanji then default [] (Word.kanji w) else Word.kana w in
  mkChosen text (Word.romaji w) TyWord (Word.kanji w) (Word.en w)
           (Some (Word.id w)) (Word.pos w).

Definition chooseKana (e : KanaEntry.t) : Chosen :=
  let ty :=
    if existsb (fun h => textEq (KanaEntry.char h) (KanaEntry.char e)) HIRAGANA
    then TyHiragana else TyKatakana in
  mkChosen (KanaEntry.char e) (KanaEntry.romaji e) ty None None None None.

(** The entry drawn for the current mode; [None] when the list is empty
    (the program then fails on [undefined]). *)
Definition chooseEntry (g : Game.t) (srs : WordSRS) (sessionNumber : Z) (r : Rolls.t)
    : option Chosen :=
  match Game.mode g with
  | words =>
      option_map (chooseWord srs)
        (pick (Rolls.entry r) (wordCandidates srs sessionNumber (Game.score g) (Rolls.review r)))
  | hiragana => option_map chooseKana (pick (Rolls.entry r) HIRAGANA)
  | katakana => option_map chooseKana (pick (Rolls.entry r) KATAKANA)
  | both => option_map chooseKana (pick (Rolls.entry r) (HIRAGANA ++ KATAKANA))
  end.

(** [Array.from({ length: width }, (_, i) => startColumn + i)] *)
Definition columnsNeeded (startColumn : Z) (width : nat) : list Z :=
  List.map (fun i => startColumn + Z.of_nat i) (seq 0 width).

Definition hasCollision (active : list Kana.t) (cols : list Z) : bool :=
  existsb
    (fun k =>
       let blockColumn := Qfloor (Kana.x k / CELL_SIZE) in
       existsb (Z.eqb blockColumn) cols && Qltb (Kana.y k) (CELL_SIZE * 3))
    active.

(** [chars.map((char, index) => ({ ... }))] *)
Definition newKanaList (isWord : bool) (c : Chosen) (startColumn : Z) (r : Rolls.t)
    : list Kana.t :=
  let width := Z.of_nat (length (cText c)) in
  let ifWord {A} (v : option A) : option A := if isWord then v else None in
  List.map
    (fun ic : nat * glyph =>
       let index := Z.of_nat (fst ic) in
       Kana.mk (Rolls.blockId r (fst ic)) (snd ic) (cRomaji c)
               (if isWord then TyWord else cType c)
               (inject_Z (startColumn + index) * CELL_SIZE) (- CELL_SIZE)
               (startColumn + index) false
               (ifWord (cKanji c)) (ifWord (cEn c)) (ifWord (cWordId c))
               (ifWord (Some (Rolls.groupId r))) (ifWord (Some (cRomaji c)))
               (ifWord (Some index)) (ifWord (Some width)) (ifWord (cPos c))
               None None)
    (combine (seq 0 (length (cText c))) (cText c)).

(** What one call does to the board. *)
Inductive SpawnOutcome :=
| SpawnFailed                       (* TypeError on an empty candidate list *)
| SpawnDeclined                     (* one of the two early returns *)
| Spawned (blocks : list Kana.t).

Definition spawnOutcome (g : Game.t) (srs : WordSRS) (sessionNumber : Z) (r : Rolls.t)
    : SpawnOutcome :=
  match chooseEntry g srs sessionNumber r with
  | None => SpawnFailed
  | Some c =>
      let isWord := KanaMode_eqb (Game.mode g) words in
      let width := length (cText c) in
      let maxColumn := COLUMNS - Z.of_nat width in
      if maxColumn <? 0 then SpawnDeclined
      else
        let startColumn := Qfloor (Rolls.start r * inject_Z (maxColumn + 1)) in
        if hasCollision (Game.activeKana g) (columnsNeeded startColumn width)
        then SpawnDeclined
        else Spawned (newKanaList isWord c startColumn r)
  end.

(** [spawnKana()]: the game state after the call; [None] when the call
    throws. *)
Definition spawnKana (g : Game.t) (srs : WordSRS) (sessionNumber : Z) (r : Rolls.t)
    : option Game.t :=
  match spawnOutcome g srs sessionNumber r with
  | SpawnFailed => None
  | SpawnDeclined => Some g
  | Spawned blocks => Some (Game.withActive g (Game.activeKana g ++ blocks))
  end.
End Spawn.

(** ** update: the fall step and the gravity step *)

Section Physics.
Context {K : Constants}.

(** Blocks gathered under their group key, in the order in which the keys
    first occur ([Object.values] on string keys; a key that happens to
    spell an array index would be listed first by the engine, which no
    statement below depends on). *)
Fixpoint addToGroup (key : string) (k : Kana.t) (gs : list (string * list Kana.t))
    : list (string * list Kana.t) :=
  match gs with
  | [] => [(key, [k])]
  | (key', g) :: rest =>
      if String.eqb key key' then (key', g ++ [k]) :: rest
      else (key', g) :: addToGroup key k rest
  end.

Definition groupByKey (l : list Kana.t) : list (string * list Kana.t) :=
  fold_left (fun gs k => addToGroup (Kana.groupKey k) k gs) l [].

Definition currentSpeed (g : Game.t) : Q :=
  let baseSpeed := (FALL_SPEED_BASE * SPEED_MULTIPLIERS (Game.difficulty g))%Q in
  match Game.mode g with
  | words => baseSpeed
  | _ => (baseSpeed + inject_Z (Game.score g) / 800)%Q
  end.

(** [topOfStack] of a column: the smallest [y] stacked there, or the floor. *)
Definition topOfStack (stacked : list Kana.t) (col : Z) : Q :=
  minOr BOARD_HEIGHT
    (List.map Kana.y (List.filter (fun s => Kana.column s =? col) stacked)).

(** The first loop over a group: does any member reach its column's stack? *)
Definition collides (speed : Q) (stacked : list Kana.t) (group : list Kana.t) : bool :=
  existsb
    (fun kana =>
       Qleb (topOfStack stacked (Kana.column kana)) (Kana.y kana + speed + CELL_SIZE))
    group.

(** The second loop: [minTargetY], started at [BOARD_HEIGHT * 2]. *)
Definition minTargetY (stacked : list Kana.t) (group : list Kana.t) : Q :=
  fold_left
    (fun m kana => Qmin m (topOfStack stacked (Kana.column kana) - CELL_SIZE))
    group (BOARD_HEIGHT * 2)%Q.

(** The variables the fall loop updates. *)
Record Fall := mkFall {
  nextActiveKana : list Kana.t;
  nextStackedKana : list Kana.t;
  triggeredGameOver : bool;
  streakReset : bool;
  fallScore : Z
}.

(** The third loop: every member is pushed onto the stack at [row]. *)
Definition landMember (row : Q) (blocksProcessed : Z) (f : Fall) (kana : Kana.t) : Fall :=
  mkFall (nextActiveKana f)
         (nextStackedKana f ++ [Kana.landedAt kana row blocksProcessed])
         (triggeredGameOver f) true (Z.max 0 (fallScore f - 5)).

(** The body of [Object.values(groups).forEach]. *)
Definition fallGroup (speed : Q) (blocksProcessed : Z) (f : Fall) (group : list Kana.t)
    : Fall :=
  if collides speed (nextStackedKana f) group then
    let row := minTargetY (nextStackedKana f) group in
    let f' := fold_left (landMember row blocksProcessed) group f in
    mkFall (nextActiveKana f') (nextStackedKana f')
           (if Qleb row 0 then true else triggeredGameOver f')
           (streakReset f') (fallScore f')
  else
    mkFall (nextActiveKana f
              ++ List.map (fun kana => Kana.withY kana (Kana.y kana + speed)) group)
           (nextStackedKana f) (triggeredGameOver f) (streakReset f) (fallScore f).

Definition fallStep (speed : Q) (blocksProcessed : Z) (prev : Game.t) : Fall :=
  fold_left (fallGroup speed blocksProcessed)
    (List.map snd (groupByKey (Game.activeKana prev)))
    (mkFall [] (Game.stackedKana prev) false false (Game.score prev)).

(** The larger [y] of a group, by which [sortedGroups] is ordered. *)
Definition groupBottom (g : string * list Kana.t) : Q :=
  maxOr 0 (List.map Kana.y (snd g)).

(** [Array.prototype.sort] with [(a, b) => bottom(b) - bottom(a)]: stable,
    larger bottoms first. *)
Fixpoint insertGroup (e : string * list Kana.t) (l : list (string * list Kana.t))
    : list (string * list Kana.t) :=
  match l with
  | [] => [e]
  | s :: l' =>
      if Qltb (groupBottom e) (groupBottom s) then s :: insertGroup e l'
      else e :: s :: l'
  end.

Definition sortGroups (l : list (string * list Kana.t)) : list (string * list Kana.t) :=
  fold_right insertGroup [] l.

(** [Math.min(minFallDistance, fallDistance)], [None] being [Infinity]. *)
Definition minInf (m : option Q) (q : Q) : option Q :=
  match m with
  | None => Some q
  | Some p => Some (Qmin p q)
  end.

Definition fallDistance (updated : list Kana.t) (kana : Kana.t) : Q :=
  let blocksBelow :=
    List.filter
      (fun s => (Kana.column s =? Kana.column kana) && Qltb (Kana.y kana) (Kana.y s))
      updated in
  let floorY := minOr BOARD_HEIGHT (List.map Kana.y blocksBelow) in
  (floorY - CELL_SIZE - Kana.y kana)%Q.

(** The body of [sortedGroups.forEach]; the [processedGroupIds] test never
    fires, the keys of an object being distinct. *)
Definition settleGroup (speed : Q) (updated : list Kana.t) (g : string * list Kana.t)
    : list Kana.t :=
  let minFallDistance :=
    fold_left (fun m kana => minInf m (fallDistance updated kana)) (snd g) None in
  let gravityStep :=
    match minFallDistance with
    | None => speed
    | Some d => Qmin d speed
    end in
  updated
    ++ List.map (fun kana => Kana.withY kana (Kana.y kana + Qmax 0 gravityStep)) (snd g).

Definition gravity (speed : Q) (stacked : list Kana.t) : list Kana.t :=
  fold_left (settleGroup speed) (sortGroups (groupByKey stacked)) [].

(** The [setGameState] updater of [update]. *)
Definition physics (blocksProcessed : Z) (prev : Game.t) : Game.t :=
  let speed := currentSpeed prev in
  let f := fallStep speed blocksProcessed prev in
  Game.mk (Z.max 0 (fallScore f))
          (negb (triggeredGameOver f)) (triggeredGameOver f) (Game.isPaused prev)
          (nextActiveKana f) (gravity speed (nextStackedKana f))
          (Game.explosions prev) (Game.mode prev) (Game.difficulty prev)
          (Game.frozenUntil prev)
          (if streakReset f then 0 else Game.streak prev)
          (Game.isFreezeAbilityActive prev).

(** [!lastTimeRef.current] *)
Definition noLastTime (t : option Q) : bool :=
  match t with
  | None => true
  | Some q => Qeq_bool q 0
  end.

Definition currentSpawnInterval (g : Game.t) : Q :=
  let n := Z.of_nat (length (Game.activeKana g) + length (Game.stackedKana g)) in
  let crowdingFactor := Z.max 0 (n - 5) * 200 in
  Qmax 600 (SPAWN_INTERVAL_BASE + inject_Z crowdingFactor - inject_Z (Game.score g * 5)).

(** [update(time)]: one animation frame.  [now] is [Date.now()] and [r]
    holds the random draws of the spawn attempt, if one is made. *)
Definition update (time : Q) (now : Z) (r : Rolls.t) (a : App.t) : App.t :=
  let g := App.gameState a in
  match App.lastTime a with
  | Some last =>
      if noLastTime (Some last) then
        App.mk g (App.wordSRS a) (App.sessionNumber a) (App.blocksProcessed a)
               (Some time) (App.spawnTimer a)
      else
        let deltaTime := (time - last)%Q in
        let idle :=
          App.mk g (App.wordSRS a) (App.sessionNumber a) (App.blocksProcessed a)
                 (Some time) (App.spawnTimer a) in
        if negb (Game.isActive g) || Game.isGameOver g || Game.isPaused g then idle
        else if negb (Game.frozenUntil g =? 0) && (now <? Game.frozenUntil g) then idle
        else
          let g1 := if Game.isFreezeAbilityActive g
                    then Game.withFreezeAbility g false else g in
          let timer := (App.spawnTimer a + deltaTime)%Q in
          if Qltb (currentSpawnInterval g) timer then
            match spawnKana g1 (App.wordSRS a) (App.sessionNumber a) r with
            | None =>
                App.mk g1 (App.wordSRS a) (App.sessionNumber a) (App.blocksProcessed a)
                       (Some time) timer
            | Some g2 =>
                App.mk (physics (App.blocksProcessed a) g2) (App.wordSRS a)
                       (App.sessionNumber a) (App.blocksProcessed a) (Some time) 0
            end
          else
            App.mk (physics (App.blocksProcessed a) g1) (App.wordSRS a)
                   (App.sessionNumber a) (App.blocksProcessed a) (Some time) timer
  | None =>
      App.mk g (App.wordSRS a) (App.sessionNumber a) (App.blocksProcessed a)
             (Some time) (App.spawnTimer a)
  end.
End Physics.

(** ** processInput *)

Section Input.
Context {K : Constants}.

Definition allVisible (g : Game.t) : list Kana.t :=
  Game.activeKana g ++ Game.stackedKana g.

(** The primary match: a simple block first, else a word fragment. *)
Definition findMatch (val : string) (g : Game.t) : option Kana.t :=
  match List.find
          (fun k => negb (isWordType (Kana.type k)) && String.eqb (Kana.romaji k) val)
          (allVisible g) with
  | Some m => Some m
  | None =>
      List.find
        (fun k => isWordType (Kana.type k) && optStrEq (Kana.wordRomaji k) (Some val))
        (allVisible g)
  end.

(** [list.some(k => k.id === m.id)] *)
Definition hasId (l : list Kana.t) (m : Kana.t) : bool :=
  existsb (fun k => String.eqb (Kana.id k) (Kana.id m)) l.

(** The confidence of a clear, from the three quantities it reads. *)
Definition classify (isStacked : bool) (hintCount blocksAfter : Z) : ConfidenceLevel :=
  if 3 <=? hintCount then difficult
  else if 1 <=? hintCount then hesitant
  else if isStacked then
    if CONFIDENCE_THRESHOLD_DIFFICULT <=? blocksAfter then difficult
    else if CONFIDENCE_THRESHOLD_HESITANT <=? blocksAfter then hesitant
    else confident
  else confident.

(** Is the SRS branch entered for this match? *)
Definition updatesSrs (m : Kana.t) : bool :=
  isWordType (Kana.type m) && truthyText (Kana.kanji m) && truthy (Kana.en m)
  && truthy (Kana.wordId m).

(** The confidence computed for the match [m] in the state [a]. *)
Definition confidenceOf (a : App.t) (m : Kana.t) : ConfidenceLevel :=
  let isStacked := hasId (Game.stackedKana (App.gameState a)) m in
  let hintCount := default 0 (Kana.hintCount m) in
  let blocksAfter := App.blocksProcessed a - default 0 (Kana.stackedAt m) in
  classify isStacked hintCount blocksAfter.

Definition explosionAt (ty : option ExplosionType) (k : Kana.t) : Explosion.t :=
  Explosion.mk (Kana.x k) (Kana.y k) ty.

(** What is to be cleared: the identifiers and the explosions. *)
Record Clear := mkClear {
  toRemoveIds : list string;
  newExplosions : list Explosion.t
}.

(** The match itself, or its whole group. *)
Definition clearGroup (g : Game.t) (m : Kana.t) : Clear :=
  if truthy (Kana.wordGroupId m) then
    let groupMembers :=
      List.filter (fun k => optStrEq (Kana.wordGroupId k) (Kana.wordGroupId m))
                  (allVisible g) in
    let anyStacked := existsb (hasId (Game.stackedKana g)) groupMembers in
    let explosionType := if anyStacked then ExNormal else ExConfident in
    mkClear (List.map Kana.id groupMembers)
            (List.map (explosionAt (Some explosionType)) groupMembers)
  else
    mkClear [Kana.id m] [explosionAt None m].

(** [matchingGroups]: the group identifiers of the blocks of the same
    word, each once, in order of first occurrence. *)
Definition addOnce (s : string) (l : list string) : list string :=
  if existsb (String.eqb s) l then l else l ++ [s].

(** [if (k.wordGroupId) matchingGroups.add(k.wordGroupId)] *)
Definition collectGroup (acc : list string) (k : Kana.t) : list string :=
  match Kana.wordGroupId k with
  | Some gid => if truthy (Some gid) then addOnce gid acc else acc
  | None => acc
  end.

Definition matchingGroups (g : Game.t) (m : Kana.t) : list string :=
  fold_left collectGroup
    (List.filter (fun k => optStrEq (Kana.wordId k) (Kana.wordId m)) (allVisible g))
    [].

(** The body of [matchingGroups.forEach]: the matched group is skipped,
    any other group is cleared whole. *)
Definition sweepGroup (g : Game.t) (m : Kana.t) (c : Clear) (groupId : string) : Clear :=
  if optStrEq (Some groupId) (Kana.wordGroupId m) then c
  else
    let groupMembers :=
      List.filter (fun k => optStrEq (Kana.wordGroupId k) (Some groupId))
                  (allVisible g) in
    mkClear (toRemoveIds c ++ List.map Kana.id groupMembers)
            (newExplosions c ++ List.map (explosionAt None) groupMembers).

(** Words mode: every other group of the same word. *)
Definition clearSameWord (g : Game.t) (m : Kana.t) (c : Clear) : Clear :=
  fold_left (sweepGroup g m) (matchingGroups g m) c.

(** The identifiers of the blocks of one group. *)
Definition idsOfGroup (g : Game.t) (gid : string) : list string :=
  List.map Kana.id
    (List.filter (fun k => optStrEq (Kana.wordGroupId k) (Some gid)) (allVisible g)).

Definition isNeighbor (k : Kana.t) (target : Q * Q) : bool :=
  Qltb (Qabs (Kana.x k - fst target)) 5 && Qltb (Qabs (Kana.y k - snd target)) 5.

(** Kana mode, stacked match: the neighbours above, left and right. *)
Definition clearNeighbors (g : Game.t) (m : Kana.t) (c : Clear) : Clear :=
  let neighbors :=
    [ (Kana.x m, Kana.y m - CELL_SIZE);
      (Kana.x m - CELL_SIZE, Kana.y m);
      (Kana.x m + CELL_SIZE, Kana.y m) ]%Q in
  snd
    (fold_left
       (fun (st : list string * Clear) (kn : Kana.t * (Q * Q)) =>
          let '(processedWordGroups, c) := st in
          let '(k, n) := kn in
          if isNeighbor k n then
            match Kana.wordGroupId k with
            | Some gid =>
                if truthy (Some gid) then
                  if existsb (String.eqb gid) processedWordGroups then st
                  else
                    let groupMembers :=
                      List.filter
                        (fun m' => optStrEq (Kana.wordGroupId m') (Kana.wordGroupId k))
                        (Game.stackedKana g) in
                    (processedWordGroups ++ [gid],
                     mkClear (toRemoveIds c ++ List.map Kana.id groupMembers)
                             (newExplosions c ++ List.map (explosionAt None) groupMembers))
                else
                  (processedWordGroups,
                   mkClear (toRemoveIds c ++ [Kana.id k])
                           (newExplosions c ++ [explosionAt None k]))
            | None =>
                (processedWordGroups,
                 mkClear (toRemoveIds c ++ [Kana.id k])
                         (newExplosions c ++ [explosionAt None k]))
            end
          else st)
       (flat_map (fun k => List.map (fun n => (k, n)) neighbors) (Game.stackedKana g))
       ([], c)).

(** The clear set of a match. *)
Definition clearSet (g : Game.t) (m : Kana.t) : Clear :=
  let c := clearGroup g m in
  if isWordType (Kana.type m) && truthy (Kana.wordId m) then clearSameWord g m c
  else if hasId (Game.stackedKana g) m then clearNeighbors g m c
  else c.

Definition keep (ids : list string) (l : list Kana.t) : list Kana.t :=
  List.filter (fun k => negb (existsb (String.eqb (Kana.id k)) ids)) l.

(** The points of a clear; [streak] is the streak after the clear. *)
Definition totalPoints (m : Kana.t) (isEarlyGuess : bool) (streak : Z)
    (explosions : nat) : Z :=
  let isWord := isWordType (Kana.type m) in
  let streakMultiplier := if isWord then 2 else 5 in
  let basePointValue := if isWord then 3 else 10 in
  let explosionValue := if isWord then 1 else 5 in
  let streakBonus := if isEarlyGuess then streak * streakMultiplier else 0 in
  let basePoints := basePointValue + (Z.of_nat explosions - 1) * explosionValue in
  (if isEarlyGuess then (basePoints * 3) / 2 else basePoints) + streakBonus.

(** The [setGameState] updater of a successful match. *)
Definition applyClear (now : Z) (m : Kana.t) (isEarlyGuess : bool) (c : Clear)
    (prev : Game.t) : Game.t :=
  let newStreak := if isEarlyGuess then Game.streak prev + 1 else Game.streak prev in
  Game.mk (Game.score prev
           + totalPoints m isEarlyGuess newStreak (length (newExplosions c)))
          (Game.isActive prev) (Game.isGameOver prev) (Game.isPaused prev)
          (keep (toRemoveIds c) (Game.activeKana prev))
          (keep (toRemoveIds c) (Game.stackedKana prev))
          (Game.explosions prev ++ newExplosions c)
          (Game.mode prev) (Game.difficulty prev) (now + 750) newStreak
          (Game.isFreezeAbilityActive prev).

(** [processInput(val)]; [now] is [Date.now()]. *)
Definition processInput (val : string) (now : Z) (a : App.t) : App.t :=
  let g := App.gameState a in
  match findMatch val g with
  | None => a
  | Some m =>
      let isEarlyGuess := hasId (Game.activeKana g) m in
      let g' := applyClear now m isEarlyGuess (clearSet g m) g in
      if updatesSrs m then
        App.mk g'
               (srsUpdate (App.sessionNumber a) (default EmptyString (Kana.wordId m))
                          (confidenceOf a m) (App.wordSRS a))
               (App.sessionNumber a) (App.blocksProcessed a + 1)
               (App.lastTime a) (App.spawnTimer a)
      else App.withGame a g'
  end.
End Input.

(** ** Runs of the application *)

Section Runs.
Context {K : Constants}.

(** The state in which the component is mounted. *)
Definition mounted (m : KanaMode) (srs : WordSRS) (sessionNumber : Z) : App.t :=
  App.mk (Game.mk 0 false false false [] [] [] m slow 0 0 false)
         srs sessionNumber 0 None 0.

(** The states the component can be in.  [R_handler] stands for the
    remaining handlers (pause, stop, mode and audio toggles, the freeze
    ability, the expiry of explosions and popups): each of them replaces
    the game state by one with the same two block lists. *)
Inductive Reachable : App.t -> Prop :=
| R_mounted m srs sessionNumber :
    Reachable (mounted m srs sessionNumber)
| R_startGame a m d :
    Reachable a ->
    Reachable (App.mk (startGame m d) (App.wordSRS a) (App.sessionNumber a)
                      (App.blocksProcessed a) None 0)
| R_update a time now r :
    Reachable a -> Reachable (update time now r a)
| R_processInput a val now :
    Reachable a -> Reachable (processInput val now a)
| R_handler a g' lt :
    Reachable a ->
    Game.activeKana g' = Game.activeKana (App.gameState a) ->
    Game.stackedKana g' = Game.stackedKana (App.gameState a) ->
    Reachable (App.mk g' (App.wordSRS a) (App.sessionNumber a)
                      (App.blocksProcessed a) lt (App.spawnTimer a)).

(** A sequence of animation frames. *)
Definition updates (frames : list (Q * Z * Rolls.t)) (a : App.t) : App.t :=
  fold_left (fun a f => update (fst (fst f)) (snd (fst f)) (snd f) a) frames a.
End Runs.

(** ** The properties, in the words of the specification *)

(** The review chance as the specification words it: 30% for one due item,
    5% more for each further one, at most 50%. *)
Definition specReviewChance (n : nat) : Q :=
  Qmin 0.5 (0.3 + 0.05 * inject_Z (Z.of_nat n - 1)).

(** The confidence as the specification words it. *)
Definition specConfidence (everStacked : bool) (hintUses elapsed : Z) : ConfidenceLevel :=
  if negb everStacked then confident
  else if 3 <=? hintUses then difficult
  else if 1 <=? hintUses then hesitant
  else if CONFIDENCE_THRESHOLD_DIFFICULT <=? elapsed then difficult
  else if CONFIDENCE_THRESHOLD_HESITANT <=? elapsed then hesitant
  else confident.

(** What the SRS update maintains about one record. *)
Definition progressBounded (d : Srs.t) : Prop :=
  (0 <= Srs.progress d <= 1)%Q
  /\ (Srs.level d < SRS_MAX_LEVEL -> (Srs.progress d < 1)%Q).

(** Every block of every group satisfies [P]. *)
Definition groupsAll (P : Kana.t -> Prop) (gs : list (string * list Kana.t)) : Prop :=
  Forall (fun kg => Forall P (snd kg)) gs.

(** Every block on the board, falling or stacked, satisfies [P]. *)
Definition boardAll (P : Kana.t -> Prop) (g : Game.t) : Prop :=
  Forall P (Game.activeKana g) /\ Forall P (Game.stackedKana g).

(** The block has no hint count. *)
Definition unhinted (k : Kana.t) : Prop := Kana.hintCount k = None.

(** The block lies at least one cell above the floor line. *)
Definition onBoard {K : Constants} (k : Kana.t) : Prop :=
  (Kana.y k <= BOARD_HEIGHT - CELL_SIZE)%Q.

Section Tiers.
Context {K : Constants}.

(** Every catalog word of tier [m] has been seen. *)
Definition allSeen (srs : WordSRS) (m : Z) : Prop :=
  forall w, In w WORDS -> Word.morae w = m -> unseen srs w = false.

(** Some catalog word of tier [m] is still unseen. *)
Definition hasUnseen (srs : WordSRS) (m : Z) : Prop :=
  exists w, In w WORDS /\ Word.morae w = m /\ unseen srs w = true.

(** What holds of the loop variables before the turn of tier [m], the
    loop having started from [b]. *)
Record scanned (srs : WordSRS) (b m : Z) (st : Z * bool) : Prop := {
  sc_low : b <= fst st;
  sc_high : fst st <= Z.max b m;
  sc_passed : forall t, b <= t < fst st -> allSeen srs t;
  sc_raised : forall t, b <= t < m -> wordsAtLevel t <> [] ->
                (forall t', b <= t' <= t -> allSeen srs t') -> t + 1 <= fst st;
  sc_stop : forall t, b <= t < m -> hasUnseen srs t -> fst st <= t;
  sc_open : snd st = false -> forall t, b <= t < m -> allSeen srs t;
  sc_closed : snd st = true -> exists t, b <= t < m /\ hasUnseen srs t /\ fst st <= t
}.
End Tiers.

(** ** A small board and catalog, for worked examples *)

Module Sample.
Definition neko : Word.t :=
  Word.mk "neko" ["ne"; "ko"] (Some ["cat"]) "neko" (Some "cat") (Some Noun) 2.
Definition inu : Word.t :=
  Word.mk "inu" ["i"; "nu"] (Some ["dog"]) "inu" (Some "dog") (Some Noun) 2.
Definition sakana : Word.t :=
  Word.mk "sakana" ["sa"; "ka"; "na"] (Some ["fish"]) "sakana" (Some "fish") (Some Noun) 3.
Definition kuruma : Word.t :=
  Word.mk "kuruma" ["ku"; "ru"; "ma"] (Some ["car"]) "kuruma" (Some "car") (Some Noun) 3.

#[local] Instance board : Constants := {|
  COLUMNS := 8;
  CELL_SIZE := 60;
  BOARD_HEIGHT := 600;
  SPAWN_INTERVAL_BASE := 2000;
  FALL_SPEED_BASE := 1.5;
  SPEED_MULTIPLIERS := fun d => (match d with slow => 0.5 | normal => 1 | fast => 1.5 end)%Q;
  HIRAGANA := [KanaEntry.mk ["a"] "a"; KanaEntry.mk ["ka"] "ka"];
  KATAKANA := [KanaEntry.mk ["A"] "a"];
  WORDS := [neko; inu; sakana; kuruma]
|}.

Definition rolls : Rolls.t :=
  Rolls.mk 0.9 0 0.5 "g1" (fun i => String.append "b" (String (Ascii.ascii_of_nat (48 + i)) "")).

(** A record at level [l] with empty progress. *)
Definition atLevel (l : Z) : Srs.t := Srs.mk l 0 (Some 0) 0 0 0 1.

(** A simple block. *)
Definition simple (id romaji : string) (col : Z) (y : Q) (landed : option Z) : Kana.t :=
  Kana.mk id romaji romaji TyHiragana (inject_Z col * 60) y col false
          None None None None None None None None landed None.

(** A fragment of a word. *)
Definition fragment (id : string) (w : Word.t) (gid : string) (index len col : Z)
    (y : Q) (landed : option Z) : Kana.t :=
  Kana.mk id (Word.romaji w) (Word.romaji w) TyWord (inject_Z col * 60) y col false
          (Word.kanji w) (Word.en w) (Some (Word.id w)) (Some gid)
          (Some (Word.romaji w)) (Some index) (Some len) (Word.pos w) landed None.

Definition game (m : KanaMode) (active stacked : list Kana.t) (streak : Z) : Game.t :=
  Game.mk 100 true false false active stacked [] m slow 0 streak false.

(** The same board with blocks that fall five cells a frame. *)
#[local] Instance steep : Constants := {|
  COLUMNS := 8;
  CELL_SIZE := 60;
  BOARD_HEIGHT := 600;
  SPAWN_INTERVAL_BASE := 2000;
  FALL_SPEED_BASE := 300;
  SPEED_MULTIPLIERS := fun _ => 1%Q;
  HIRAGANA := [KanaEntry.mk ["a"] "a"; KanaEntry.mk ["ka"] "ka"];
  KATAKANA := [KanaEntry.mk ["A"] "a"];
  WORDS := [neko; inu; sakana; kuruma]
|}.

(** A catalog without words of two morae. *)
#[local] Instance gapped : Constants := {|
  COLUMNS := 8;
  CELL_SIZE := 60;
  BOARD_HEIGHT := 600;
  SPAWN_INTERVAL_BASE := 2000;
  FALL_SPEED_BASE := 1.5;
  SPEED_MULTIPLIERS := fun _ => 1%Q;
  HIRAGANA := [];
  KATAKANA := [];
  WORDS := [sakana; kuruma]
|}.

(** A game of words on the steep board: the first frame starts the
    clock, the second spawns a word, the third lands it. *)
Definition played : App.t :=
  @updates steep
    [(1000%Q, 0, rolls); (4000%Q, 0, rolls); (4016%Q, 0, rolls)]
    (App.mk (startGame words slow) ∅ 1 0 None 0).
End Sample.

(** [o === n] for an optional number. *)
Definition optZeq (o : option Z) (n : Z) : bool :=
  match o with
  | Some v => v =? n
  | None => false
  end.

(** ** The remaining handlers of the component *)

(** The first SRS store (the initialiser of [useState<WordSRS>]): the store
    saved last, else the old mastery counts converted, else nothing.  The
    two arguments are what [JSON.parse] yields for the two saved items. *)
Definition migrate (old : gmap string Z) : WordSRS :=
  (fun count => Srs.mk (Z.min SRS_MAX_LEVEL (count / 2)) 0 (Some 0) count 0 0 0) <$> old.

Definition initialSRS (saved : option WordSRS) (oldMastery : option (gmap string Z))
    : WordSRS :=
  match saved with
  | Some srs => srs
  | None =>
      match oldMastery with
      | Some old => migrate old
      | None => ∅
      end
  end.

(** [{ ...prev, isPaused: p }] *)
Definition withPaused (g : Game.t) (p : bool) : Game.t :=
  Game.mk (Game.score g) (Game.isActive g) (Game.isGameOver g) p (Game.activeKana g)
          (Game.stackedKana g) (Game.explosions g) (Game.mode g) (Game.difficulty g)
          (Game.frozenUntil g) (Game.streak g) (Game.isFreezeAbilityActive g).

(** The updater shared by the pause button and the space bar: the pause flag
    is flipped, and on resuming the last time stamp is forgotten. *)
Definition flipPause (a : App.t) : App.t :=
  let nowPaused := negb (Game.isPaused (App.gameState a)) in
  App.mk (withPaused (App.gameState a) nowPaused) (App.wordSRS a) (App.sessionNumber a)
         (App.blocksProcessed a)
         (if nowPaused then App.lastTime a else None) (App.spawnTimer a).

(** [togglePause()], the pause button. *)
Definition togglePause (a : App.t) : App.t :=
  let g := App.gameState a in
  if negb (Game.isActive g) || Game.isGameOver g then a else flipPause a.

(** The [keydown] handler for the space bar. *)
Definition spacePause (a : App.t) : App.t :=
  let g := App.gameState a in
  if negb (Game.isActive g) && negb (Game.isPaused g) then a
  else if Game.isGameOver g then a
  else flipPause a.




(** [stopGame()], as far as the game state goes. *)
Definition stopGame (a : App.t) : App.t :=
  let g := App.gameState a in
  App.withGame a
    (Game.mk (Game.score g) false (Game.isGameOver g) false (Game.activeKana g)
             (Game.stackedKana g) (Game.explosions g) (Game.mode g) (Game.difficulty g)
             (Game.frozenUntil g) (Game.streak g) (Game.isFreezeAbilityActive g)).

(** The freeze button: rendered while the game runs, disabled as its
    [disabled] attribute says, and guarded once more in [onClick]. *)
Definition freezeDisabled (now : Z) (g : Game.t) : bool :=
  (Game.score g <? 150) || Game.isPaused g
  || (negb (Game.frozenUntil g =? 0) && (now <? Game.frozenUntil g)
      && Game.isFreezeAbilityActive g).

Definition freezeAbility (now : Z) (a : App.t) : App.t :=
  let g := App.gameState a in
  if Game.isActive g && negb (Game.isGameOver g) && negb (freezeDisabled now g)
     && (150 <=? Game.score g) && negb (Game.isPaused g)
  then
    App.withGame a
      (Game.mk (Game.score g - 150) (Game.isActive g) (Game.isGameOver g)
               (Game.isPaused g) (Game.activeKana g) (Game.stackedKana g)
               (Game.explosions g) (Game.mode g) (Game.difficulty g) (now + 10000)
               (Game.streak g) true)
  else a.

(** ** Statistics and the history record *)

Module CharStat.
Record t := mk { correct : Z; missed : Z; char : glyph; romaji : string }.
End CharStat.

Module WordStat.
Record t := mk {
  correct : Z;
  missed : Z;
  id : string;
  kanji : option (list glyph);
  romaji : string;
  en : option string
}.
End WordStat.

(** [interface GameStats] *)
Module Stats.
Record t := mk {
  correct : Z;
  missed : Z;
  byCharacter : gmap string CharStat.t;
  byWord : gmap string WordStat.t
}.

(** The statistics of [startGame]. *)
Definition empty : t := mk 0 0 ∅ ∅.
End Stats.

Section Statistics.
Context {K : Constants}.

(** [WORDS.find(w => w.id === id)] *)
Definition findWord (id : string) : option Word.t :=
  List.find (fun w => String.eqb (Word.id w) id) WORDS.

Definition freshWordStat (w : Word.t) : WordStat.t :=
  WordStat.mk 0 0 (Word.id w) (Word.kanji w) (Word.romaji w) (Word.en w).

Definition freshCharStat (k : Kana.t) : CharStat.t :=
  CharStat.mk 0 0 (Kana.char k) (Kana.romaji k).

(** The bookkeeping of [update] for one landed block. *)
Definition recordMiss (s : Stats.t) (kana : Kana.t) : Stats.t :=
  if isWordType (Kana.type kana) && truthy (Kana.wordId kana) then
    let wordId := default EmptyString (Kana.wordId kana) in
    match findWord wordId with
    | Some wWord =>
        let wordStat := default (freshWordStat wWord) (Stats.byWord s !! wordId) in
        if optZeq (Kana.wordIndex kana) 0 then
          Stats.mk (Stats.correct s) (Stats.missed s) (Stats.byCharacter s)
            (<[wordId := WordStat.mk (WordStat.correct wordStat)
                           (WordStat.missed wordStat + 1) (WordStat.id wordStat)
                           (WordStat.kanji wordStat) (WordStat.romaji wordStat)
                           (WordStat.en wordStat)]> (Stats.byWord s))
        else s
    | None => s
    end
  else
    let charStat := default (freshCharStat kana) (Stats.byCharacter s !! Kana.char kana) in
    Stats.mk (Stats.correct s) (Stats.missed s)
      (<[Kana.char kana := CharStat.mk (CharStat.correct charStat)
                             (CharStat.missed charStat + 1) (CharStat.char charStat)
                             (CharStat.romaji charStat)]> (Stats.byCharacter s))
      (Stats.byWord s).

(** The bookkeeping of [processInput] for the primary match. *)
Definition recordHit (s : Stats.t) (m : Kana.t) : Stats.t :=
  if isWordType (Kana.type m) && truthy (Kana.wordId m) then
    let wordId := default EmptyString (Kana.wordId m) in
    match findWord wordId with
    | Some wWord =>
        let wordStat := default (freshWordStat wWord) (Stats.byWord s !! wordId) in
        Stats.mk (Stats.correct s + 1) (Stats.missed s) (Stats.byCharacter s)
          (<[wordId := WordStat.mk (WordStat.correct wordStat + 1)
                         (WordStat.missed wordStat) (WordStat.id wordStat)
                         (WordStat.kanji wordStat) (WordStat.romaji wordStat)
                         (WordStat.en wordStat)]> (Stats.byWord s))
    | None =>
        Stats.mk (Stats.correct s + 1) (Stats.missed s) (Stats.byCharacter s)
                 (Stats.byWord s)
    end
  else
    let charStat := default (freshCharStat m) (Stats.byCharacter s !! Kana.char m) in
    Stats.mk (Stats.correct s + 1) (Stats.missed s)
      (<[Kana.char m := CharStat.mk (CharStat.correct charStat + 1)
                          (CharStat.missed charStat) (CharStat.char charStat)
                          (CharStat.romaji charStat)]> (Stats.byCharacter s))
      (Stats.byWord s).

(** What happens to the statistics in the course of a game: a block lands,
    or a block is matched. *)
Inductive StatEvent :=
| Landed (kana : Kana.t)
| Matched (m : Kana.t).

Definition recordEvent (s : Stats.t) (e : StatEvent) : Stats.t :=
  match e with
  | Landed kana => recordMiss s kana
  | Matched m => recordHit s m
  end.

Definition recordAll (events : list StatEvent) (s : Stats.t) : Stats.t :=
  fold_left recordEvent events s.
End Statistics.

(** [Math.round] on a number that is not negative. *)
Definition roundQ (q : Q) : Z := Qfloor (q + (1 # 2))%Q.

(** The accuracy [saveHistory] stores, from the values of [byCharacter]. *)
Definition historyAccuracy (uniqueChars : list CharStat.t) : Z :=
  let uniqueCorrect := length (List.filter (fun s => 0 <? CharStat.correct s) uniqueChars) in
  let totalUnique := length uniqueChars in
  if (0 <? totalUnique)%nat
  then roundQ (inject_Z (Z.of_nat uniqueCorrect) / inject_Z (Z.of_nat totalUnique) * 100)%Q
  else 0.

Definition saveHistoryAccuracy (s : Stats.t) : Z :=
  historyAccuracy (snd <$> map_to_list (Stats.byCharacter s)).

(** ** The colour of a stacked block *)

Definition getKanaColor (type : KanaType) (pos : option PartOfSpeech) : string :=
  match type with
  | TyWord =>
      match pos with
      | Some Verb => "bg-orange-400 text-orange-900 border-orange-500 font-bold"
      | Some Noun => "bg-blue-300 text-blue-900 border-blue-400 font-bold"
      | Some Adverb => "bg-violet-300 text-violet-900 border-violet-400 font-bold"
      | Some Adjective => "bg-pink-300 text-pink-900 border-pink-400 font-bold"
      | Some Other => "bg-cyan-300 text-cyan-900 border-cyan-400 font-bold"
      | None => "bg-purple-300 text-purple-900 border-purple-400 font-bold"
      end
  | TyHiragana => "bg-pink-300 text-pink-900 border-pink-400 text-3xl"
  | TyKatakana => "bg-blue-300 text-blue-900 border-blue-400 text-3xl"
  end.

(** [getFadedColors(pos).light] and [.faded] *)
Definition lightColor (pos : option PartOfSpeech) : string :=
  match pos with
  | Some Verb => "bg-orange-200 text-orange-700 border-orange-300"
  | Some Noun => "bg-blue-200 text-blue-700 border-blue-300"
  | Some Adverb => "bg-violet-200 text-violet-700 border-violet-300"
  | Some Adjective => "bg-pink-200 text-pink-700 border-pink-300"
  | Some Other => "bg-cyan-200 text-cyan-700 border-cyan-300"
  | None => "bg-purple-200 text-purple-700 border-purple-300"
  end.

Definition fadedColor (pos : option PartOfSpeech) : string :=
  match pos with
  | Some Verb => "bg-orange-200 text-orange-600 border-orange-300"
  | Some Noun => "bg-blue-200 text-blue-600 border-blue-300"
  | Some Adverb => "bg-violet-200 text-violet-600 border-violet-300"
  | Some Adjective => "bg-pink-200 text-pink-600 border-pink-300"
  | Some Other => "bg-cyan-200 text-cyan-600 border-cyan-300"
  | None => "bg-purple-200 text-purple-600 border-purple-300"
  end.

(** [getStackedBlockColor(kana)], the counter of processed blocks being
    [blocksProcessed]. *)
Definition getStackedBlockColor (blocksProcessed : Z) (kana : Kana.t) : string :=
  match Kana.type kana, Kana.stackedAt kana with
  | TyWord, Some stackedAt =>
      let blocksAfter := blocksProcessed - stackedAt in
      if CONFIDENCE_THRESHOLD_DIFFICULT <=? blocksAfter
      then "bg-gray-400 text-gray-700 border-gray-500 font-bold"
      else if 2 <=? blocksAfter
      then String.append (fadedColor (Kana.pos kana)) " font-bold opacity-70"
      else if CONFIDENCE_THRESHOLD_HESITANT <=? blocksAfter
      then String.append (lightColor (Kana.pos kana)) " font-bold"
      else getKanaColor TyWord (Kana.pos kana)
  | _, _ =>
      String.append (getKanaColor (Kana.type kana) (Kana.pos kana)) " grayscale-[0.3]"
  end.

(** ** Notions used by the further properties *)

(** A block without its vertical position and landing stamp, the two
    fields a frame changes. *)
Definition sameBlock (k : Kana.t) : Kana.t := Kana.landedAt k 0 0.

(** Blocks under one group key are at one height. *)
Definition cohesive (l : list Kana.t) : Prop :=
  forall a b, In a l -> In b l -> Kana.groupKey a = Kana.groupKey b -> Kana.y a = Kana.y b.

(** A block that would match the input [val]. *)
Definition matches (val : string) (k : Kana.t) : bool :=
  (negb (isWordType (Kana.type k)) && String.eqb (Kana.romaji k) val)
  || (isWordType (Kana.type k) && optStrEq (Kana.wordRomaji k) (Some val)).

(** The clears recorded for a word: the sum of its three lifetime counts. *)
Definition attempts (srs : WordSRS) (w : string) : Z :=
  match srs !! w with
  | Some d => Srs.confidentCount d + Srs.hesitantCount d + Srs.difficultCount d
  | None => 0
  end.

(** A record as the program writes it: a level of the table, and a session
    of next review. *)
Definition wellFormed (d : Srs.t) : Prop :=
  0 <= Srs.level d <= SRS_MAX_LEVEL /\ Srs.nextReviewSession d <> None.


(** The three cells whose occupants a stacked match takes with it, and the
    body of the loop over the stacked blocks and these cells. *)
Definition neighborCells {K : Constants} (m : Kana.t) : list (Q * Q) :=
  [ (Kana.x m, Kana.y m - CELL_SIZE);
    (Kana.x m - CELL_SIZE, Kana.y m);
    (Kana.x m + CELL_SIZE, Kana.y m) ]%Q.

Definition neighborStep (g : Game.t) (st : list string * Clear) (kn : Kana.t * (Q * Q))
    : list string * Clear :=
  let '(processedWordGroups, c) := st in
  let '(k, n) := kn in
  if isNeighbor k n then
    match Kana.wordGroupId k with
    | Some gid =>
        if truthy (Some gid) then
          if existsb (String.eqb gid) processedWordGroups then st
          else
            let groupMembers :=
              List.filter
                (fun m' => optStrEq (Kana.wordGroupId m') (Kana.wordGroupId k))
                (Game.stackedKana g) in
            (processedWordGroups ++ [gid],
             mkClear (toRemoveIds c ++ List.map Kana.id groupMembers)
                     (newExplosions c ++ List.map (explosionAt None) groupMembers))
        else
          (processedWordGroups,
           mkClear (toRemoveIds c ++ [Kana.id k])
                   (newExplosions c ++ [explosionAt None k]))
    | None =>
        (processedWordGroups,
         mkClear (toRemoveIds c ++ [Kana.id k])
                 (newExplosions c ++ [explosionAt None k]))
    end
  else st.
(** * Proofs *)

(** ** The SRS store *)

Lemma Qleb_true (a b : Q) : Qleb a b = true <-> (a <= b)%Q.
Proof. apply Qle_bool_iff. Qed.

Lemma Qleb_false (a b : Q) : Qleb a b = false <-> (b < a)%Q.
Proof.
  unfold Qleb. split; intros H.
  - apply Qnot_le_lt. intros Hle. apply Qle_bool_iff in Hle. congruence.
  - destruct (Qle_bool a b) eqn:E; [|reflexivity].
    apply Qle_bool_iff in E. exfalso. apply (Qlt_not_le _ _ H E).
Qed.

Lemma Qltb_true (a b : Q) : Qltb a b = true <-> (a < b)%Q.
Proof.
  unfold Qltb. rewrite negb_true_iff. apply (Qleb_false b a).
Qed.

Lemma Qltb_false (a b : Q) : Qltb a b = false <-> (b <= a)%Q.
Proof.
  unfold Qltb. rewrite negb_false_iff. apply (Qleb_true b a).
Qed.

Lemma progressGain_nonneg c : (0 <= progressGain c)%Q.
Proof. destruct c; vm_compute; discriminate. Qed.

Lemma freshSrs_bounded s : progressBounded (freshSrs s).
Proof.
  unfold progressBounded, freshSrs; simpl. split; [split|intros _]; lra.
Qed.

Lemma srsNext_bounded s c d : progressBounded d -> progressBounded (srsNext s c d).
Proof.
  intros [[H0 H1] Hlt]. pose proof (progressGain_nonneg c) as Hg.
  unfold progressBounded, srsNext; simpl.
  destruct (Qleb 1 (Srs.progress d + progressGain c)) eqn:Eq; simpl.
  - destruct (Srs.level d <? SRS_MAX_LEVEL) eqn:El; simpl.
    + split; [split|].
      * apply Q.min_glb; lra.
      * apply Q.le_min_l.
      * intros _. apply Q.min_lt_iff. right. lra.
    + apply Z.ltb_ge in El. split; [split|].
      * apply Q.min_glb; lra.
      * apply Q.le_min_l.
      * intros Hl. lia.
  - apply Qleb_false in Eq. split; [split|].
    + apply Q.min_glb; lra.
    + apply Q.le_min_l.
    + intros _. apply Q.min_lt_iff. right. exact Eq.
Qed.

Lemma srsUpdate_bounded s w c (st : WordSRS) :
  map_Forall (fun _ d => progressBounded d) st ->
  map_Forall (fun _ d => progressBounded d) (srsUpdate s w c st).
Proof.
  intros Hst. unfold srsUpdate. apply map_Forall_insert_2; [|exact Hst].
  apply srsNext_bounded. destruct (st !! w) as [d|] eqn:E; simpl.
  - exact (Hst w d E).
  - apply freshSrs_bounded.
Qed.

Lemma srsRun_bounded s events (st : WordSRS) :
  map_Forall (fun _ d => progressBounded d) st ->
  map_Forall (fun _ d => progressBounded d) (srsRun s events st).
Proof.
  revert st. induction events as [|e events IH]; intros st Hst; simpl.
  - exact Hst.
  - apply IH. apply srsUpdate_bounded. exact Hst.
Qed.

(** C1, as amended.  Whatever the sequence of clears, the progress stored
    for a word stays in the closed interval from 0 to 1, and it is below 1
    for every word whose level is below the maximum; only a word at the
    maximal level can hold the value 1. *)
Theorem srs_progress_bounded (s : Z) (events : list (string * ConfidenceLevel))
    (st : WordSRS) :
  (forall w d, st !! w = Some d -> progressBounded d) ->
  forall w d, srsRun s events st !! w = Some d ->
    (0 <= Srs.progress d <= 1)%Q
    /\ (Srs.level d < SRS_MAX_LEVEL -> (Srs.progress d < 1)%Q).
Proof.
  intros Hst w d Hd.
  exact (srsRun_bounded s events st Hst w d Hd).
Qed.

Lemma srs_progress_bounded_witness :
  exists d,
    srsRun 1 [("neko"%string, confident); ("neko"%string, hesitant)] ∅ !! "neko"%string
    = Some d
    /\ (0 <= Srs.progress d <= 1)%Q
    /\ (Srs.progress d < 1)%Q.
Proof.
  assert (Hrun : exists d,
             srsRun 1 [("neko"%string, confident); ("neko"%string, hesitant)] ∅
               !! "neko"%string = Some d)
    by (eexists; vm_compute; reflexivity).
  destruct Hrun as [d Hd]. exists d. split; [exact Hd|].
  destruct (srs_progress_bounded 1
              [("neko"%string, confident); ("neko"%string, hesitant)] ∅) with (w := "neko"%string) (d := d)
    as [Hb Hl].
  - intros w d0 H. rewrite lookup_empty in H. discriminate H.
  - exact Hd.
  - split; [exact Hb|]. apply Hl.
    vm_compute in Hd. injection Hd as <-. reflexivity.
Defined.

(** C1, as stated, fails: fourteen confident clears of one word take it to
    the maximal level and then to the progress 1, which is not below 1. *)
Lemma srs_progress_reaches_one :
  exists d,
    srsRun 1 (repeat ("neko"%string, confident) 14) ∅ !! "neko"%string = Some d
    /\ Srs.level d = SRS_MAX_LEVEL
    /\ (Srs.progress d == 1)%Q
    /\ ~ (Srs.progress d < 1)%Q.
Proof.
  eexists. split; [vm_compute; reflexivity|].
  split; [reflexivity|]. split; [reflexivity|].
  intros H. vm_compute in H. discriminate H.
Qed.

(** ** The review chance *)

(** The chance for [n] due words is the one the specification gives for
    [n + 1]. *)
Lemma reviewChance_shifted (n : nat) :
  (0 < n)%nat -> (reviewChance n == specReviewChance (S n))%Q.
Proof.
  intros Hn. unfold reviewChance, specReviewChance.
  destruct (0 <? Z.of_nat n) eqn:E; [|apply Z.ltb_ge in E; lia].
  replace (Z.of_nat (S n) - 1) with (Z.of_nat n) by lia.
  apply Q.min_compat; [reflexivity|]. ring.
Qed.

(** C2.  With one due word the program draws from the review pool with
    chance 0.35, where the comment above the computation and the
    specification say 0.30. *)
Theorem reviewChance_one_due :
  (reviewChance 1 == 0.35)%Q
  /\ (specReviewChance 1 == 0.3)%Q
  /\ ~ (reviewChance 1 == specReviewChance 1)%Q.
Proof.
  split; [reflexivity|]. split; [reflexivity|].
  intros H. vm_compute in H. discriminate H.
Qed.

(** ** The difficulty gate of the spawn scheduler *)

Section TierProofs.
Context {K : Constants}.

Lemma wordsAtLevel_In m w : In w (wordsAtLevel m) <-> In w WORDS /\ Word.morae w = m.
Proof.
  unfold wordsAtLevel. rewrite filter_In. rewrite Z.eqb_eq. reflexivity.
Qed.

Lemma allSeen_filter srs m :
  List.filter (unseen srs) (wordsAtLevel m) = [] <-> allSeen srs m.
Proof.
  split.
  - intros Hnil w Hw Hm. destruct (unseen srs w) eqn:E; [|reflexivity].
    assert (Hin : In w (List.filter (unseen srs) (wordsAtLevel m))).
    { apply filter_In. split; [apply wordsAtLevel_In; auto|exact E]. }
    rewrite Hnil in Hin. destruct Hin.
  - intros Hall. destruct (List.filter (unseen srs) (wordsAtLevel m)) as [|w l] eqn:E;
      [reflexivity|].
    assert (Hin : In w (List.filter (unseen srs) (wordsAtLevel m)))
      by (rewrite E; left; reflexivity).
    apply filter_In in Hin. destruct Hin as [Hin Hu].
    apply wordsAtLevel_In in Hin. destruct Hin as [Hin Hm].
    rewrite (Hall w Hin Hm) in Hu. discriminate Hu.
Qed.

Lemma seen_not_unseen srs m : allSeen srs m -> hasUnseen srs m -> False.
Proof.
  intros Hall (w & Hin & Hm & Hu). rewrite (Hall w Hin Hm) in Hu. discriminate Hu.
Qed.

Lemma hasUnseen_inhabited srs m : hasUnseen srs m -> wordsAtLevel m <> [].
Proof.
  intros (w & Hin & Hm & _) Hnil.
  assert (H : In w (wordsAtLevel m)) by (apply wordsAtLevel_In; auto).
  rewrite Hnil in H. destruct H.
Qed.

Lemma scanned_start srs b m : m <= b -> scanned srs b m (b, false).
Proof.
  intros Hm. constructor; simpl; intros; try lia; discriminate.
Qed.

Lemma scanned_step srs b m st :
  scanned srs b m st -> scanned srs b (m + 1) (unlockStep srs st m).
Proof.
  intros [Hlow Hhigh Hpassed Hraised Hstop Hopen Hclosed].
  destruct st as [cur stopped]; simpl in *. unfold unlockStep.
  destruct stopped.
  { (* the loop has been left *)
    destruct (Hclosed eq_refl) as (t0 & Ht0 & Hu0 & Hc0).
    constructor; simpl.
    - lia.
    - lia.
    - exact Hpassed.
    - intros t Ht Hne Hall. destruct (Z.eq_dec t m) as [->|Hn].
      + exfalso. apply (seen_not_unseen srs t0); [apply Hall; lia|exact Hu0].
      + apply Hraised; auto. lia.
    - intros t Ht Hu. destruct (Z.eq_dec t m) as [->|Hn]; [lia|].
      apply Hstop; auto. lia.
    - discriminate.
    - intros _. exists t0. split; [lia|]. split; [exact Hu0|lia]. }
  destruct (m <? cur) eqn:Em.
  { (* a tier below the current maximum *)
    apply Z.ltb_lt in Em.
    constructor; simpl.
    - lia.
    - lia.
    - exact Hpassed.
    - intros t Ht Hne Hall. apply Hraised; auto. lia.
    - intros t Ht Hu. apply Hstop; auto. lia.
    - intros _ t Ht. apply Hopen; auto. lia.
    - discriminate. }
  apply Z.ltb_ge in Em.
  assert (Hb : b <= m) by lia.
  destruct (wordsAtLevel m) as [|w0 ws] eqn:Ew.
  { (* a tier without words *)
    assert (Hvac : allSeen srs m).
    { intros w Hin Hm. assert (H : In w (wordsAtLevel m)) by (apply wordsAtLevel_In; auto).
      rewrite Ew in H. destruct H. }
    constructor; simpl.
    - lia.
    - lia.
    - exact Hpassed.
    - intros t Ht Hne Hall. destruct (Z.eq_dec t m) as [->|Hn].
      + congruence.
      + apply Hraised; auto. lia.
    - intros t Ht Hu. destruct (Z.eq_dec t m) as [->|Hn].
      + exfalso. apply (hasUnseen_inhabited srs m Hu Ew).
      + apply Hstop; auto. lia.
    - intros _ t Ht. destruct (Z.eq_dec t m) as [->|Hn]; [exact Hvac|].
      apply Hopen; auto. lia.
    - discriminate. }
  change (if unseen srs w0 then w0 :: List.filter (unseen srs) ws
          else List.filter (unseen srs) ws)
    with (List.filter (unseen srs) (w0 :: ws)).
  rewrite <- Ew.
  destruct (List.filter (unseen srs) (wordsAtLevel m)) as [|u us] eqn:Eu.
  { (* every word of the tier has been seen *)
    apply allSeen_filter in Eu.
    assert (Hall' : forall t, b <= t < m + 1 -> allSeen srs t).
    { intros t Ht. destruct (Z.eq_dec t m) as [->|Hn]; [exact Eu|].
      apply Hopen; auto. lia. }
    constructor; simpl.
    - lia.
    - lia.
    - intros t Ht. apply Hall'. lia.
    - intros t Ht Hne Hall. lia.
    - intros t Ht Hu. exfalso. apply (seen_not_unseen srs t); auto.
    - intros _. exact Hall'.
    - discriminate. }
  (* an unseen word: break *)
  assert (Hu : hasUnseen srs m).
  { assert (Hin : In u (List.filter (unseen srs) (wordsAtLevel m)))
      by (rewrite Eu; left; reflexivity).
    apply filter_In in Hin. destruct Hin as [Hin Hun].
    apply wordsAtLevel_In in Hin. exists u. tauto. }
  constructor; simpl.
  - lia.
  - lia.
  - exact Hpassed.
  - intros t Ht Hne Hall. destruct (Z.eq_dec t m) as [->|Hn].
    + exfalso. apply (seen_not_unseen srs m); [apply Hall; lia|exact Hu].
    + apply Hraised; auto. lia.
  - intros t Ht Hu'. destruct (Z.eq_dec t m) as [->|Hn]; [lia|].
    apply Hstop; auto. lia.
  - discriminate.
  - intros _. exists m. split; [lia|]. split; [exact Hu|lia].
Qed.

Lemma scanned_end srs score :
  scanned srs (baseMorae score) 7
    (fold_left (unlockStep srs) [2; 3; 4; 5; 6] (baseMorae score, false)).
Proof.
  assert (Hb : 2 <= baseMorae score).
  { unfold baseMorae. destruct (score <? 500); [lia|]. destruct (score <? 1000); lia. }
  cbv [fold_left].
  apply (scanned_step srs _ 6), (scanned_step srs _ 5), (scanned_step srs _ 4),
    (scanned_step srs _ 3), (scanned_step srs _ 2).
  apply scanned_start. exact Hb.
Qed.

(** C7.  [maxMorae] starts from the score-derived tier (2 below 500 points,
    3 below 1000, else 4); it never lies above a tier with an unseen word
    that is at or above the start; it is above every tier (up to 6, the
    last one the program examines) that has words, all of them seen, and
    is preceded only by such tiers; and every tier between the start and
    the result has all its words seen.  So from the start 2, with the
    words of tier 2 all seen and a word of tier 3 unseen, it is 3. *)
Theorem maxMorae_scan (srs : WordSRS) (score : Z) :
  let b := baseMorae score in
  let r := maxMoraeOf srs score in
  (score < 500 -> b = 2) /\ (500 <= score < 1000 -> b = 3) /\ (1000 <= score -> b = 4)
  /\ b <= r <= 7
  /\ (forall m, b <= m < r -> allSeen srs m)
  /\ (forall m, b <= m <= 6 -> wordsAtLevel m <> [] ->
        (forall t, b <= t <= m -> allSeen srs t) -> m + 1 <= r)
  /\ (forall m, b <= m <= 6 -> hasUnseen srs m -> r <= m)
  /\ (score < 500 -> wordsAtLevel 2 <> [] -> allSeen srs 2 -> hasUnseen srs 3 -> r = 3).
Proof.
  intros b r.
  destruct (scanned_end srs score) as [Hlow Hhigh Hpassed Hraised Hstop _ _].
  fold (maxMoraeOf srs score) in *. fold b in Hlow, Hhigh, Hpassed, Hraised, Hstop.
  fold r in Hlow, Hhigh, Hpassed, Hraised, Hstop.
  assert (Hb : (score < 500 -> b = 2) /\ (500 <= score < 1000 -> b = 3)
               /\ (1000 <= score -> b = 4)).
  { subst b. unfold baseMorae.
    destruct (score <? 500) eqn:E1; [apply Z.ltb_lt in E1|apply Z.ltb_ge in E1];
      (destruct (score <? 1000) eqn:E2; [apply Z.ltb_lt in E2|apply Z.ltb_ge in E2]);
      repeat split; intros; lia. }
  destruct Hb as (Hb2 & Hb3 & Hb4).
  assert (Hb7 : b <= 4).
  { subst b. unfold baseMorae. destruct (score <? 500); [lia|].
    destruct (score <? 1000); lia. }
  split; [exact Hb2|]. split; [exact Hb3|]. split; [exact Hb4|].
  split; [lia|]. split; [exact Hpassed|].
  split; [intros m Hm; apply Hraised; lia|].
  split; [intros m Hm; apply Hstop; lia|].
  intros Hs Hne Hall Hun. specialize (Hb2 Hs).
  assert (H3 : 2 + 1 <= r).
  { apply Hraised; [lia|exact Hne|]. intros t Ht. replace t with 2 by lia. exact Hall. }
  assert (H3' : r <= 3) by (apply Hstop; [lia|exact Hun]).
  lia.
Qed.
End TierProofs.

(** A tier without words neither raises the gate nor stops the loop: the
    catalog lacking words of two morae, the gate stays at 2 while a word of
    three morae is unseen, and opens tier 4 once both have been seen. *)
Example maxMorae_passes_empty_tier :
  @maxMoraeOf Sample.gapped (<["sakana"%string := Sample.atLevel 1]> ∅) 0 = 2
  /\ @maxMoraeOf Sample.gapped
       (<["sakana"%string := Sample.atLevel 1]>
          (<["kuruma"%string := Sample.atLevel 1]> ∅)) 0 = 4.
Proof. split; vm_compute; reflexivity. Qed.

Lemma maxMorae_scan_witness :
  let srs : WordSRS :=
    <["neko"%string := Sample.atLevel 1]> (<["inu"%string := Sample.atLevel 2]>
      (<["sakana"%string := Sample.atLevel 1]> ∅)) in
  @maxMoraeOf Sample.board srs 120 = 3.
Proof.
  intros srs.
  apply (@maxMorae_scan Sample.board srs 120).
  - lia.
  - vm_compute. discriminate.
  - intros w Hin Hm. vm_compute in Hin.
    destruct Hin as [<-|[<-|[<-|[<-|[]]]]]; try reflexivity; vm_compute in Hm; discriminate Hm.
  - exists Sample.kuruma. split; [vm_compute; tauto|]. split; reflexivity.
Defined.

(** ** The fall step *)

Section FallProofs.
Context {K : Constants}.

(** The fold behind [minTargetY] is a lower bound of its start and of
    every value it meets, and it is one of them. *)
Lemma fold_Qmin_le_start {A} (h : A -> Q) (l : list A) (q : Q) :
  (fold_left (fun m a => Qmin m (h a)) l q <= q)%Q.
Proof.
  revert q. induction l as [|a l IH]; intros q; simpl.
  - apply Qle_refl.
  - eapply Qle_trans; [apply IH|]. apply Q.le_min_l.
Qed.

Lemma fold_Qmin_le_each {A} (h : A -> Q) (l : list A) (q : Q) (a : A) :
  In a l -> (fold_left (fun m a => Qmin m (h a)) l q <= h a)%Q.
Proof.
  revert q. induction l as [|b l IH]; intros q Hin; simpl; [destruct Hin|].
  destruct Hin as [->|Hin].
  - eapply Qle_trans; [apply fold_Qmin_le_start|]. apply Q.le_min_r.
  - apply IH. exact Hin.
Qed.

Lemma fold_Qmin_attained {A} (h : A -> Q) (l : list A) (q : Q) :
  (fold_left (fun m a => Qmin m (h a)) l q == q)%Q
  \/ exists a, In a l /\ (fold_left (fun m a => Qmin m (h a)) l q == h a)%Q.
Proof.
  revert q. induction l as [|b l IH]; intros q; simpl.
  - left. reflexivity.
  - destruct (IH (Qmin q (h b))) as [He|(a & Hin & He)].
    + destruct (Q.min_dec q (h b)) as [Hm|Hm].
      * left. rewrite He. exact Hm.
      * right. exists b. split; [left; reflexivity|]. rewrite He. exact Hm.
    + right. exists a. split; [right; exact Hin|exact He].
Qed.

Lemma collides_iff speed stacked group :
  collides speed stacked group = true <->
  exists k, In k group
    /\ (topOfStack stacked (Kana.column k) <= Kana.y k + speed + CELL_SIZE)%Q.
Proof.
  unfold collides. rewrite existsb_exists. split.
  - intros (k & Hin & H). exists k. split; [exact Hin|]. apply Qleb_true. exact H.
  - intros (k & Hin & H). exists k. split; [exact Hin|]. apply Qleb_true. exact H.
Qed.

(** The stack below the board's floor line gives tops no lower than the
    floor. *)
Lemma minOr_le_default (d : Q) (l : list Q) :
  (forall q, In q l -> q <= d)%Q -> (minOr d l <= d)%Q.
Proof.
  destruct l as [|q r]; simpl; intros H.
  - apply Qle_refl.
  - change (fold_left Qmin r q) with (fold_left (fun m a => Qmin m (id a)) r q).
    eapply Qle_trans; [apply fold_Qmin_le_start|]. apply H. left. reflexivity.
Qed.

Lemma topOfStack_le_floor stacked col :
  (forall s, In s stacked -> (Kana.y s <= BOARD_HEIGHT)%Q) ->
  (topOfStack stacked col <= BOARD_HEIGHT)%Q.
Proof.
  intros H. unfold topOfStack. apply minOr_le_default.
  intros q Hq. apply in_map_iff in Hq. destruct Hq as (s & <- & Hs).
  apply filter_In in Hs. apply H. tauto.
Qed.

Lemma land_members row bp group f :
  let f' := fold_left (landMember row bp) group f in
  nextActiveKana f' = nextActiveKana f
  /\ nextStackedKana f'
     = nextStackedKana f ++ List.map (fun k => Kana.landedAt k row bp) group
  /\ triggeredGameOver f' = triggeredGameOver f
  /\ streakReset f' = match group with [] => streakReset f | _ => true end.
Proof.
  revert f. induction group as [|k group IH]; intros f; simpl.
  - rewrite app_nil_r. tauto.
  - destruct (IH (landMember row bp f k)) as (Ha & Hs & Hg & Hr).
    rewrite Ha, Hs, Hg, Hr. simpl. rewrite <- app_assoc. simpl.
    repeat split. destruct group; reflexivity.
Qed.

Lemma fallGroup_landing speed bp f group :
  collides speed (nextStackedKana f) group = true ->
  let row := minTargetY (nextStackedKana f) group in
  let f' := fallGroup speed bp f group in
  nextActiveKana f' = nextActiveKana f
  /\ nextStackedKana f'
     = nextStackedKana f ++ List.map (fun k => Kana.landedAt k row bp) group
  /\ triggeredGameOver f' = (if Qleb row 0 then true else triggeredGameOver f)
  /\ streakReset f' = true.
Proof.
  intros Hc row f'. subst f'. unfold fallGroup. rewrite Hc. fold row.
  destruct (land_members row bp group f) as (Ha & Hs & Hg & Hr). simpl.
  rewrite Ha, Hs, Hg, Hr. repeat split.
  destruct group; [discriminate Hc|reflexivity].
Qed.

(** Once set, the two flags of the fall loop stay set. *)
Lemma fallGroup_flags speed bp f group :
  (triggeredGameOver f = true -> triggeredGameOver (fallGroup speed bp f group) = true)
  /\ (streakReset f = true -> streakReset (fallGroup speed bp f group) = true).
Proof.
  destruct (collides speed (nextStackedKana f) group) eqn:Hc.
  - destruct (fallGroup_landing speed bp f group Hc) as (_ & _ & Hg & Hr).
    rewrite Hg, Hr. split; [|reflexivity]. intros ->. destruct (Qleb _ 0); reflexivity.
  - unfold fallGroup. rewrite Hc. simpl. tauto.
Qed.

Lemma fall_flags speed bp groups f :
  (triggeredGameOver f = true ->
   triggeredGameOver (fold_left (fallGroup speed bp) groups f) = true)
  /\ (streakReset f = true ->
      streakReset (fold_left (fallGroup speed bp) groups f) = true).
Proof.
  revert f. induction groups as [|g groups IH]; intros f; simpl; [tauto|].
  destruct (IH (fallGroup speed bp f g)) as [Hg Hr].
  destruct (fallGroup_flags speed bp f g) as [Hg' Hr']. split; auto.
Qed.

(** When some member of a group would reach the top of the stack of its
    column, the body of the fall loop moves no member on: it appends all
    members to the stacked list at one and the same row, and this row is
    the least, over the members, of the top of the member's column less
    one cell. *)
Lemma fallGroup_uniform_row (speed : Q) (bp : Z) (f : Fall) (group : list Kana.t) :
  (0 <= CELL_SIZE)%Q ->
  (0 <= BOARD_HEIGHT)%Q ->
  (forall s, In s (nextStackedKana f) -> (Kana.y s <= BOARD_HEIGHT)%Q) ->
  (exists k, In k group
     /\ (topOfStack (nextStackedKana f) (Kana.column k)
         <= Kana.y k + speed + CELL_SIZE)%Q) ->
  exists row,
    nextActiveKana (fallGroup speed bp f group) = nextActiveKana f
    /\ nextStackedKana (fallGroup speed bp f group)
       = nextStackedKana f ++ List.map (fun k => Kana.landedAt k row bp) group
    /\ (forall k, In k group -> Kana.y (Kana.landedAt k row bp) = row)
    /\ (forall k, In k group ->
          (row <= topOfStack (nextStackedKana f) (Kana.column k) - CELL_SIZE)%Q)
    /\ (exists k, In k group
          /\ (row == topOfStack (nextStackedKana f) (Kana.column k) - CELL_SIZE)%Q).
Proof.
  intros Hcell Hboard Hstack Hhit.
  assert (Hc : collides speed (nextStackedKana f) group = true)
    by (apply collides_iff; exact Hhit).
  destruct (fallGroup_landing speed bp f group Hc) as (Ha & Hs & _ & _).
  exists (minTargetY (nextStackedKana f) group).
  split; [exact Ha|]. split; [exact Hs|]. split; [reflexivity|].
  unfold minTargetY. split.
  - intros k Hin.
    apply (fold_Qmin_le_each
             (fun kana => topOfStack (nextStackedKana f) (Kana.column kana) - CELL_SIZE)%Q).
    exact Hin.
  - destruct (fold_Qmin_attained
                (fun kana => topOfStack (nextStackedKana f) (Kana.column kana) - CELL_SIZE)%Q
                group (BOARD_HEIGHT * 2)%Q) as [He|Hex]; [|exact Hex].
    destruct Hhit as (k & Hin & _). exists k. split; [exact Hin|].
    pose proof (fold_Qmin_le_each
                  (fun kana => topOfStack (nextStackedKana f) (Kana.column kana) - CELL_SIZE)%Q
                  group (BOARD_HEIGHT * 2)%Q k Hin) as Hle.
    simpl in Hle. rewrite He in Hle.
    pose proof (topOfStack_le_floor (nextStackedKana f) (Kana.column k) Hstack) as Htop.
    rewrite He. apply Qle_antisym; [exact Hle|]. lra.
Qed.
End FallProofs.

(** ** Landing, game over and the streak *)

Section TickProofs.
Context {K : Constants}.

(** The fall loop, run over all groups of the falling blocks. *)
Lemma fallStep_split speed bp prev pre group post :
  List.map snd (groupByKey (Game.activeKana prev)) = pre ++ group :: post ->
  fallStep speed bp prev
  = fold_left (fallGroup speed bp) post
      (fallGroup speed bp
         (fold_left (fallGroup speed bp) pre
            (mkFall [] (Game.stackedKana prev) false false (Game.score prev)))
         group).
Proof.
  intros H. unfold fallStep. rewrite H, fold_left_app. reflexivity.
Qed.

(** A frame leaves a finished game as it is. *)
Lemma update_game_over time now r a :
  Game.isGameOver (App.gameState a) = true ->
  App.gameState (update time now r a) = App.gameState a.
Proof.
  intros Hover. unfold update.
  destruct (App.lastTime a) as [last|]; [|reflexivity].
  destruct (noLastTime (Some last)); [reflexivity|].
  rewrite Hover, orb_true_r. reflexivity.
Qed.

Lemma updates_game_over frames a :
  Game.isGameOver (App.gameState a) = true ->
  App.gameState (updates frames a) = App.gameState a.
Proof.
  revert a. induction frames as [|fr frames IH]; intros a Hover; [reflexivity|].
  unfold updates in *. simpl. rewrite IH.
  - apply update_game_over. exact Hover.
  - rewrite update_game_over; exact Hover.
Qed.

(** C6.  If, in the fall loop of a frame, a group lands and its landing
    row is at or above row 0, the state the frame produces has the game
    over and the simulation inactive; and no sequence of later frames
    changes the falling blocks (or anything else in the game state). *)
Theorem landing_at_top_ends_game (bp : Z) (prev : Game.t)
    (pre post : list (list Kana.t)) (group : list Kana.t) :
  List.map snd (groupByKey (Game.activeKana prev)) = pre ++ group :: post ->
  let f := fold_left (fallGroup (currentSpeed prev) bp) pre
             (mkFall [] (Game.stackedKana prev) false false (Game.score prev)) in
  (exists k, In k group
     /\ (topOfStack (nextStackedKana f) (Kana.column k)
         <= Kana.y k + currentSpeed prev + CELL_SIZE)%Q) ->
  (minTargetY (nextStackedKana f) group <= 0)%Q ->
  Game.isGameOver (physics bp prev) = true
  /\ Game.isActive (physics bp prev) = false
  /\ forall a frames,
       App.gameState a = physics bp prev ->
       App.gameState (updates frames a) = physics bp prev
       /\ Game.activeKana (App.gameState (updates frames a))
          = Game.activeKana (physics bp prev).
Proof.
  intros Hgroups f Hhit Hrow.
  assert (Hover : triggeredGameOver (fallStep (currentSpeed prev) bp prev) = true).
  { rewrite (fallStep_split _ _ _ _ _ _ Hgroups). fold f.
    apply fall_flags.
    apply collides_iff in Hhit.
    destruct (fallGroup_landing (currentSpeed prev) bp f group Hhit) as (_ & _ & Hg & _).
    rewrite Hg. apply Qleb_true in Hrow. rewrite Hrow. reflexivity. }
  assert (Hphys : Game.isGameOver (physics bp prev) = true).
  { unfold physics. simpl. exact Hover. }
  split; [exact Hphys|]. split.
  - unfold physics. simpl. rewrite Hover. reflexivity.
  - intros a frames Ha.
    assert (Hg : App.gameState (updates frames a) = physics bp prev).
    { rewrite updates_game_over; [exact Ha|]. rewrite Ha. exact Hphys. }
    split; [exact Hg|]. rewrite Hg. reflexivity.
Qed.
End TickProofs.

Lemma landing_at_top_ends_game_witness :
  let column := [Sample.simple "s9" "ka" 0 0 (Some 0)] in
  let prev := Sample.game hiragana [Sample.simple "b0" "a" 0 (-50) None] column 3 in
  Game.isGameOver (@physics Sample.board 0 prev) = true
  /\ Game.isActive (@physics Sample.board 0 prev) = false
  /\ forall a frames,
       App.gameState a = @physics Sample.board 0 prev ->
       App.gameState (@updates Sample.board frames a) = @physics Sample.board 0 prev
       /\ Game.activeKana (App.gameState (@updates Sample.board frames a))
          = Game.activeKana (@physics Sample.board 0 prev).
Proof.
  intros column prev.
  apply (@landing_at_top_ends_game Sample.board 0 prev [] []
           [Sample.simple "b0" "a" 0 (-50) None]).
  - reflexivity.
  - eexists. split; [left; reflexivity|]. vm_compute. discriminate.
  - vm_compute. discriminate.
Defined.

(** ** Clearing *)

Section ClearProofs.
Context {K : Constants}.

(** Blocks with distinct identifiers are identified by them. *)
Lemma ids_injective (l : list Kana.t) (a b : Kana.t) :
  List.NoDup (List.map Kana.id l) ->
  In a l -> In b l -> Kana.id a = Kana.id b -> a = b.
Proof.
  induction l as [|c l IH]; simpl; intros Hnd Ha Hb Heq; [destruct Ha|].
  inversion Hnd as [|? ? Hnotin Hnd']; subst.
  destruct Ha as [->|Ha], Hb as [->|Hb].
  - reflexivity.
  - exfalso. apply Hnotin. rewrite Heq. apply in_map. exact Hb.
  - exfalso. apply Hnotin. rewrite <- Heq. apply in_map. exact Ha.
  - apply IH; assumption.
Qed.

Lemma ids_apart (l1 l2 : list Kana.t) (a b : Kana.t) :
  List.NoDup (List.map Kana.id (l1 ++ l2)) ->
  In a l1 -> In b l2 -> Kana.id a <> Kana.id b.
Proof.
  induction l1 as [|c l1 IH]; simpl; intros Hnd Ha Hb Heq; [destruct Ha|].
  inversion Hnd as [|? ? Hnotin Hnd']; subst.
  destruct Ha as [->|Ha].
  - apply Hnotin. rewrite Heq. apply in_map. apply in_or_app. right. exact Hb.
  - apply (IH Hnd' Ha Hb Heq).
Qed.

Lemma hasId_In (l : list Kana.t) (m : Kana.t) : In m l -> hasId l m = true.
Proof.
  intros Hin. unfold hasId. apply existsb_exists. exists m.
  split; [exact Hin|apply String.eqb_refl].
Qed.

Lemma hasId_other (l1 l2 : list Kana.t) (m : Kana.t) :
  List.NoDup (List.map Kana.id (l1 ++ l2)) -> In m l2 -> hasId l1 m = false.
Proof.
  intros Hnd Hin. destruct (hasId l1 m) eqn:E; [|reflexivity].
  unfold hasId in E. apply existsb_exists in E. destruct E as (k & Hk & Heq).
  apply String.eqb_eq in Heq. exfalso. exact (ids_apart l1 l2 k m Hnd Hk Hin Heq).
Qed.

Lemma processInput_streak val now a m :
  findMatch val (App.gameState a) = Some m ->
  Game.streak (App.gameState (processInput val now a))
  = if hasId (Game.activeKana (App.gameState a)) m
    then Game.streak (App.gameState a) + 1 else Game.streak (App.gameState a).
Proof.
  intros Hm. unfold processInput. rewrite Hm.
  destruct (updatesSrs m); simpl;
    destruct (hasId (Game.activeKana (App.gameState a)) m); reflexivity.
Qed.

(** C5.  A frame in whose fall loop some group lands leaves the streak at
    0.  A clear whose primary match is one of the falling blocks adds
    exactly 1 to the streak; a clear whose primary match is a stacked
    block leaves it as it is (the blocks bearing distinct identifiers). *)
Theorem streak_accounting :
  (forall bp prev pre group post,
      List.map snd (groupByKey (Game.activeKana prev)) = pre ++ group :: post ->
      (exists k, In k group
         /\ (topOfStack
               (nextStackedKana
                  (fold_left (fallGroup (currentSpeed prev) bp) pre
                     (mkFall [] (Game.stackedKana prev) false false (Game.score prev))))
               (Kana.column k)
             <= Kana.y k + currentSpeed prev + CELL_SIZE)%Q) ->
      Game.streak (physics bp prev) = 0)
  /\ (forall val now a m,
        findMatch val (App.gameState a) = Some m ->
        In m (Game.activeKana (App.gameState a)) ->
        Game.streak (App.gameState (processInput val now a))
        = Game.streak (App.gameState a) + 1)
  /\ (forall val now a m,
        findMatch val (App.gameState a) = Some m ->
        List.NoDup (List.map Kana.id (allVisible (App.gameState a))) ->
        In m (Game.stackedKana (App.gameState a)) ->
        Game.streak (App.gameState (processInput val now a))
        = Game.streak (App.gameState a)).
Proof.
  split; [|split].
  - intros bp prev pre group post Hgroups Hhit.
    assert (Hr : streakReset (fallStep (currentSpeed prev) bp prev) = true).
    { rewrite (fallStep_split _ _ _ _ _ _ Hgroups). apply fall_flags.
      apply collides_iff in Hhit.
      destruct (fallGroup_landing (currentSpeed prev) bp _ group Hhit) as (_ & _ & _ & Hr).
      exact Hr. }
    unfold physics. simpl. rewrite Hr. reflexivity.
  - intros val now a m Hm Hin.
    rewrite (processInput_streak val now a m Hm), (hasId_In _ _ Hin). reflexivity.
  - intros val now a m Hm Hnd Hin.
    rewrite (processInput_streak val now a m Hm).
    rewrite (hasId_other _ _ m Hnd Hin). reflexivity.
Qed.
End ClearProofs.

Lemma streak_accounting_witness :
  let landing := Sample.game hiragana [Sample.simple "b0" "a" 0 539.5 None] [] 4 in
  let board :=
    Sample.game hiragana [Sample.simple "b1" "a" 2 100 None]
                [Sample.simple "s1" "ka" 5 540 (Some 0)] 4 in
  let a := App.mk board ∅ 1 0 None 0 in
  Game.streak (@physics Sample.board 0 landing) = 0
  /\ Game.streak (App.gameState (@processInput Sample.board "a" 0 a)) = 5
  /\ Game.streak (App.gameState (@processInput Sample.board "ka" 0 a)) = 4.
Proof.
  intros landing board a.
  destruct (@streak_accounting Sample.board) as (Hland & Hair & Hstack).
  split; [|split].
  - apply (Hland 0 landing [] [Sample.simple "b0" "a" 0 539.5 None] []); [reflexivity|].
    eexists. split; [left; reflexivity|]. vm_compute. discriminate.
  - apply (Hair "a"%string 0 a (Sample.simple "b1" "a" 2 100 None)); [reflexivity|].
    left. reflexivity.
  - apply (Hstack "ka"%string 0 a (Sample.simple "s1" "ka" 5 540 (Some 0))); [reflexivity| |].
    + vm_compute. repeat constructor; simpl; intuition discriminate.
    + left. reflexivity.
Defined.

(** ** The sweep of a word *)

Section SweepProofs.
Context {K : Constants}.

Lemma optStrEq_eq a b : optStrEq a b = true <-> a = b.
Proof.
  destruct a as [s|], b as [t|]; simpl; split; intros H;
    try discriminate; try reflexivity.
  - apply String.eqb_eq in H. congruence.
  - apply String.eqb_eq. congruence.
Qed.

Lemma truthy_Some o : truthy o = true <-> exists s, o = Some s /\ s <> EmptyString.
Proof.
  destruct o as [s|]; simpl.
  - rewrite negb_true_iff. split.
    + intros H. exists s. split; [reflexivity|]. intros ->. discriminate H.
    + intros (t & [= <-] & Hne). apply String.eqb_neq. exact Hne.
  - split; [discriminate|]. intros (s & H & _). discriminate H.
Qed.

Lemma idsOfGroup_In g gid i :
  In i (idsOfGroup g gid) <->
  exists k, In k (allVisible g) /\ Kana.wordGroupId k = Some gid /\ Kana.id k = i.
Proof.
  unfold idsOfGroup. rewrite in_map_iff. split.
  - intros (k & Hid & Hin). apply filter_In in Hin. destruct Hin as [Hin Hg].
    apply optStrEq_eq in Hg. exists k. tauto.
  - intros (k & Hin & Hg & Hid). exists k. split; [exact Hid|].
    apply filter_In. split; [exact Hin|]. apply optStrEq_eq. exact Hg.
Qed.

(** The loop over [matchingGroups] appends, group after group, the
    identifiers and as many explosions. *)
Lemma sweep_ids g m (L : list string) (c : Clear) :
  toRemoveIds (fold_left (sweepGroup g m) L c)
  = toRemoveIds c
    ++ flat_map (idsOfGroup g)
         (List.filter (fun gid => negb (optStrEq (Some gid) (Kana.wordGroupId m))) L).
Proof.
  revert c. induction L as [|gid L IH]; intros c; cbn [fold_left List.filter].
  - cbn [flat_map]. rewrite app_nil_r. reflexivity.
  - rewrite IH. unfold sweepGroup.
    destruct (optStrEq (Some gid) (Kana.wordGroupId m)); cbn [negb flat_map toRemoveIds].
    + reflexivity.
    + rewrite <- app_assoc. reflexivity.
Qed.

Lemma sweepGroup_lengths g m c gid :
  (length (newExplosions (sweepGroup g m c gid)) + length (toRemoveIds c)
   = length (newExplosions c) + length (toRemoveIds (sweepGroup g m c gid)))%nat.
Proof.
  unfold sweepGroup. destruct (optStrEq (Some gid) (Kana.wordGroupId m)); simpl.
  - lia.
  - rewrite !length_app, !length_map. lia.
Qed.

Lemma sweep_lengths g m (L : list string) (c : Clear) :
  (length (newExplosions (fold_left (sweepGroup g m) L c)) + length (toRemoveIds c)
   = length (newExplosions c)
     + length (toRemoveIds (fold_left (sweepGroup g m) L c)))%nat.
Proof.
  revert c. induction L as [|gid L IH]; intros c; simpl.
  - lia.
  - pose proof (IH (sweepGroup g m c gid)) as H1.
    pose proof (sweepGroup_lengths g m c gid) as H2. lia.
Qed.

Lemma addOnce_In s l x : In x (addOnce s l) <-> In x l \/ x = s.
Proof.
  unfold addOnce. destruct (existsb (String.eqb s) l) eqn:E.
  - split; [tauto|]. intros [H| ->]; [exact H|].
    apply existsb_exists in E. destruct E as (y & Hy & Heq).
    apply String.eqb_eq in Heq. subst. exact Hy.
  - rewrite in_app_iff. simpl. intuition.
Qed.

Lemma addOnce_NoDup s l : List.NoDup l -> List.NoDup (addOnce s l).
Proof.
  intros Hnd. unfold addOnce. destruct (existsb (String.eqb s) l) eqn:E; [exact Hnd|].
  apply List.NoDup_app; [exact Hnd|repeat constructor; intros []|].
  intros x Hx [Hs|[]]. subst x.
  assert (Ht : existsb (String.eqb s) l = true).
  { apply existsb_exists. exists s. split; [exact Hx|apply String.eqb_refl]. }
  congruence.
Qed.

Lemma groups_fold (l : list Kana.t) (acc : list string) :
  (List.NoDup acc -> List.NoDup (fold_left collectGroup l acc))
  /\ forall gid, In gid (fold_left collectGroup l acc) <->
       In gid acc
       \/ exists k, In k l /\ Kana.wordGroupId k = Some gid /\ gid <> EmptyString.
Proof.
  revert acc. induction l as [|k l IH]; intros acc; simpl.
  - split; [tauto|]. intros gid. split; [tauto|].
    intros [H|(k & [] & _)]. exact H.
  - unfold collectGroup at 2 4.
    destruct (Kana.wordGroupId k) as [gk|] eqn:Ek.
    + simpl. destruct (String.eqb gk EmptyString) eqn:Ee; simpl.
      * destruct (IH acc) as [Hn Hi]. split; [exact Hn|].
        intros gid. rewrite Hi. split.
        -- intros [H|(k' & Hk' & Hg & Hne)]; [tauto|]. right. exists k'. tauto.
        -- intros [H|(k' & [->|Hk'] & Hg & Hne)]; [tauto| |].
           ++ exfalso. rewrite Ek in Hg. injection Hg as ->.
              apply String.eqb_eq in Ee. contradiction.
           ++ right. exists k'. tauto.
      * destruct (IH (addOnce gk acc)) as [Hn Hi]. split.
        -- intros Hacc. apply Hn, addOnce_NoDup, Hacc.
        -- intros gid. rewrite Hi, addOnce_In. split.
           ++ intros [[H| ->]|(k' & Hk' & Hg & Hne)]; [tauto| |].
              ** right. exists k. split; [left; reflexivity|]. split; [exact Ek|].
                 apply String.eqb_neq. exact Ee.
              ** right. exists k'. tauto.
           ++ intros [H|(k' & [->|Hk'] & Hg & Hne)]; [tauto| |].
              ** left. right. rewrite Ek in Hg. injection Hg as ->. reflexivity.
              ** right. exists k'. tauto.
    + destruct (IH acc) as [Hn Hi]. split; [exact Hn|].
      intros gid. rewrite Hi. split.
      * intros [H|(k' & Hk' & Hg & Hne)]; [tauto|]. right. exists k'. tauto.
      * intros [H|(k' & [->|Hk'] & Hg & Hne)]; [tauto| |].
        -- rewrite Ek in Hg. discriminate Hg.
        -- right. exists k'. tauto.
Qed.

Lemma matchingGroups_spec g m :
  List.NoDup (matchingGroups g m)
  /\ forall gid, In gid (matchingGroups g m) <->
       exists k, In k (allVisible g) /\ Kana.wordId k = Kana.wordId m
                 /\ Kana.wordGroupId k = Some gid /\ gid <> EmptyString.
Proof.
  unfold matchingGroups.
  destruct (groups_fold
              (List.filter (fun k => optStrEq (Kana.wordId k) (Kana.wordId m))
                           (allVisible g)) []) as [Hn Hi].
  split; [apply Hn; constructor|].
  intros gid. rewrite Hi. split.
  - intros [[]|(k & Hk & Hg & Hne)]. apply filter_In in Hk. destruct Hk as [Hk Hw].
    apply optStrEq_eq in Hw. exists k. tauto.
  - intros (k & Hk & Hw & Hg & Hne). right. exists k. split; [|tauto].
    apply filter_In. split; [exact Hk|]. apply optStrEq_eq. exact Hw.
Qed.
End SweepProofs.

Section SweepTheorem.
Context {K : Constants}.

Lemma filter_split {A} (p : A -> bool) (l : list A) :
  (length (List.filter p l) + length (List.filter (fun a => negb (p a)) l)
   = length l)%nat.
Proof.
  induction l as [|a l IH]; simpl; [reflexivity|].
  destruct (p a); simpl; lia.
Qed.

Lemma ids_filter_NoDup (p : Kana.t -> bool) (l : list Kana.t) :
  List.NoDup (List.map Kana.id l) -> List.NoDup (List.map Kana.id (List.filter p l)).
Proof.
  induction l as [|a l IH]; simpl; intros Hnd; [constructor|].
  inversion Hnd as [|? ? Hnotin Hnd']; subst.
  destruct (p a); simpl; [|apply IH; exact Hnd'].
  constructor; [|apply IH; exact Hnd'].
  intros Hin. apply Hnotin. apply in_map_iff in Hin.
  destruct Hin as (k & Hid & Hk). apply filter_In in Hk.
  rewrite <- Hid. apply in_map. tauto.
Qed.

Lemma flat_ids_In g (G : list string) i :
  In i (flat_map (idsOfGroup g) G) <->
  exists gid k, In gid G /\ In k (allVisible g)
                /\ Kana.wordGroupId k = Some gid /\ Kana.id k = i.
Proof.
  rewrite in_flat_map. split.
  - intros (gid & HG & Hi). apply idsOfGroup_In in Hi.
    destruct Hi as (k & Hk & Hg & Hid). exists gid, k. tauto.
  - intros (gid & k & HG & Hk & Hg & Hid). exists gid. split; [exact HG|].
    apply idsOfGroup_In. exists k. tauto.
Qed.

Lemma flat_ids_NoDup g (G : list string) :
  List.NoDup (List.map Kana.id (allVisible g)) ->
  List.NoDup G -> List.NoDup (flat_map (idsOfGroup g) G).
Proof.
  intros Hids. induction G as [|gid G IH]; simpl; intros HG; [constructor|].
  inversion HG as [|? ? Hnotin HG']; subst.
  apply List.NoDup_app.
  - unfold idsOfGroup. apply ids_filter_NoDup. exact Hids.
  - apply IH. exact HG'.
  - intros i Hi Hi'. apply idsOfGroup_In in Hi. destruct Hi as (k & Hk & Hg & Hid).
    apply flat_ids_In in Hi'. destruct Hi' as (gid' & k' & HG2 & Hk' & Hg' & Hid').
    assert (k = k') by (apply (ids_injective (allVisible g)); congruence).
    subst k'. rewrite Hg in Hg'. injection Hg' as <-. contradiction.
Qed.

(** Of blocks with distinct identifiers, as many are removed as there are
    identifiers to remove, when these are distinct and all on the board. *)
Lemma removed_count (l : list Kana.t) (T : list string) :
  List.NoDup (List.map Kana.id l) -> List.NoDup T ->
  (forall i, In i T -> exists k, In k l /\ Kana.id k = i) ->
  (length T + length (keep T l) = length l)%nat.
Proof.
  intros Hl HT Hon.
  pose proof (filter_split (fun k => existsb (String.eqb (Kana.id k)) T) l) as Hsplit.
  cbv beta in Hsplit.
  change (List.filter (fun a => negb (existsb (String.eqb (Kana.id a)) T)) l)
    with (keep T l) in Hsplit.
  assert (Hperm : Permutation
                    (List.map Kana.id
                       (List.filter (fun k => existsb (String.eqb (Kana.id k)) T) l)) T).
  { apply Stdlib.Sorting.Permutation.NoDup_Permutation;
      [apply ids_filter_NoDup; exact Hl|exact HT|].
    intros i. rewrite in_map_iff. split.
    - intros (k & Hid & Hk). apply filter_In in Hk. destruct Hk as [_ Hk].
      apply existsb_exists in Hk. destruct Hk as (j & Hj & Heq).
      apply String.eqb_eq in Heq. congruence.
    - intros Hi. destruct (Hon i Hi) as (k & Hk & Hid). exists k.
      split; [exact Hid|]. apply filter_In. split; [exact Hk|].
      apply existsb_exists. exists i. split; [exact Hi|].
      apply String.eqb_eq. exact Hid. }
  apply Permutation_length in Hperm. rewrite length_map in Hperm. lia.
Qed.

Lemma keep_In T l k :
  In k (keep T l) <-> In k l /\ ~ In (Kana.id k) T.
Proof.
  unfold keep. rewrite filter_In, negb_true_iff. split.
  - intros [Hk Hn]. split; [exact Hk|]. intros Hin.
    assert (Ht : existsb (String.eqb (Kana.id k)) T = true).
    { apply existsb_exists. exists (Kana.id k). split; [exact Hin|apply String.eqb_refl]. }
    congruence.
  - intros [Hk Hn]. split; [exact Hk|].
    destruct (existsb (String.eqb (Kana.id k)) T) eqn:E; [|reflexivity].
    apply existsb_exists in E. destruct E as (j & Hj & Heq).
    apply String.eqb_eq in Heq. subst j. contradiction.
Qed.

Lemma keep_app T l1 l2 : keep T (l1 ++ l2) = keep T l1 ++ keep T l2.
Proof. unfold keep. apply List.filter_app. Qed.

Lemma clearGroup_lengths g m :
  length (newExplosions (clearGroup g m)) = length (toRemoveIds (clearGroup g m)).
Proof.
  unfold clearGroup. destruct (truthy (Kana.wordGroupId m)); simpl.
  - rewrite !length_map. reflexivity.
  - reflexivity.
Qed.

(** The clear set of a word fragment whose group identifier is [mg]. *)
Lemma clearSet_word g m mg :
  Kana.type m = TyWord -> truthy (Kana.wordId m) = true ->
  Kana.wordGroupId m = Some mg -> mg <> EmptyString ->
  toRemoveIds (clearSet g m)
  = flat_map (idsOfGroup g)
      (mg :: List.filter (fun gid => negb (optStrEq (Some gid) (Some mg)))
               (matchingGroups g m))
  /\ length (newExplosions (clearSet g m)) = length (toRemoveIds (clearSet g m)).
Proof.
  intros Hty Hw Hg Hne. unfold clearSet. rewrite Hty, Hw. cbn [isWordType andb].
  unfold clearSameWord.
  assert (Hc : clearGroup g m
               = mkClear (idsOfGroup g mg)
                   (List.map (explosionAt
                                (Some (if existsb (hasId (Game.stackedKana g))
                                            (List.filter
                                               (fun k => optStrEq (Kana.wordGroupId k) (Some mg))
                                               (allVisible g))
                                       then ExNormal else ExConfident)))
                      (List.filter (fun k => optStrEq (Kana.wordGroupId k) (Some mg))
                                   (allVisible g)))).
  { unfold clearGroup. rewrite Hg.
    assert (Ht : truthy (Some mg) = true) by (apply truthy_Some; eauto).
    rewrite Ht. reflexivity. }
  split.
  - rewrite sweep_ids, Hc, Hg. reflexivity.
  - pose proof (sweep_lengths g m (matchingGroups g m) (clearGroup g m)) as Hl.
    pose proof (clearGroup_lengths g m) as Hl0. lia.
Qed.

(** C4.  In a clear whose primary match is a fragment of the word [W],
    every block of [W] on the board, falling or stacked, is removed, and
    with it every block of its group; the blocks of the other groups
    stay; and the call adds one explosion for each block it removes.
    The blocks are assumed to bear distinct identifiers and the blocks
    of [W] a group identifier, as every spawned fragment does. *)
Theorem same_word_swept (val : string) (now : Z) (a : App.t) (m : Kana.t) (W : string) :
  let g := App.gameState a in
  let g' := App.gameState (processInput val now a) in
  findMatch val g = Some m ->
  Kana.type m = TyWord ->
  Kana.wordId m = Some W ->
  W <> EmptyString ->
  (forall k, In k (allVisible g) -> Kana.wordId k = Some W ->
             truthy (Kana.wordGroupId k) = true) ->
  List.NoDup (List.map Kana.id (allVisible g)) ->
  (forall k, In k (allVisible g') -> Kana.wordId k <> Some W)
  /\ (forall k k', In k (allVisible g) -> In k' (allVisible g) ->
        Kana.wordId k = Some W -> Kana.wordGroupId k' = Kana.wordGroupId k ->
        ~ In k' (allVisible g'))
  /\ (forall k, In k (allVisible g) ->
        (forall k', In k' (allVisible g) -> Kana.wordId k' = Some W ->
                    Kana.wordGroupId k <> Kana.wordGroupId k') ->
        In k (allVisible g'))
  /\ exists news,
       Game.explosions g' = Game.explosions g ++ news
       /\ (length news + length (allVisible g') = length (allVisible g))%nat.
Proof.
  intros g g' Hfind Hty HW HWne Hgrouped Hids.
  assert (Hm : In m (allVisible g)).
  { unfold findMatch in Hfind.
    destruct (List.find _ (allVisible g)) as [m0|] eqn:E.
    - injection Hfind as ->. apply find_some in E. tauto.
    - apply find_some in Hfind. tauto. }
  assert (Hwt : truthy (Kana.wordId m) = true)
    by (rewrite HW; apply truthy_Some; eauto).
  destruct (proj1 (truthy_Some _) (Hgrouped m Hm HW)) as (mg & Hmg & Hmgne).
  destruct (clearSet_word g m mg Hty Hwt Hmg Hmgne) as [HT Hlen].
  destruct (matchingGroups_spec g m) as [HGnd HGin].
  set (GG := mg :: List.filter (fun gid => negb (optStrEq (Some gid) (Some mg)))
                     (matchingGroups g m)) in HT.
  assert (HGGnd : List.NoDup GG).
  { constructor; [|apply List.NoDup_filter; exact HGnd].
    intros Hin. apply filter_In in Hin. destruct Hin as [_ Hin].
    rewrite negb_true_iff in Hin.
    assert (optStrEq (Some mg) (Some mg) = true) by (apply optStrEq_eq; reflexivity).
    congruence. }
  (* the groups swept are those of the blocks of W *)
  assert (HGG : forall gid, In gid GG <->
                  exists k, In k (allVisible g) /\ Kana.wordId k = Some W
                            /\ Kana.wordGroupId k = Some gid).
  { intros gid. unfold GG. simpl. rewrite filter_In, HGin, negb_true_iff. split.
    - intros [<-|[(k & Hk & Hw & Hg & _) _]].
      + exists m. tauto.
      + exists k. rewrite Hw, HW in *. tauto.
    - intros (k & Hk & Hw & Hg).
      destruct (String.eqb gid mg) eqn:E.
      + apply String.eqb_eq in E. left. congruence.
      + right. split.
        * exists k. rewrite HW. split; [exact Hk|]. split; [exact Hw|].
          split; [exact Hg|].
          destruct (proj1 (truthy_Some _) (Hgrouped k Hk Hw)) as (s & Hs & Hsne).
          congruence.
        * simpl. rewrite ?E. reflexivity. }
  assert (Hall' : allVisible g' = keep (toRemoveIds (clearSet g m)) (allVisible g)).
  { subst g'. unfold processInput. fold g. rewrite Hfind.
    destruct (updatesSrs m); simpl; unfold allVisible; simpl;
      rewrite keep_app; reflexivity. }
  assert (Hgone : forall k gid, In k (allVisible g) -> Kana.wordGroupId k = Some gid ->
                    In gid GG -> ~ In k (allVisible g')).
  { intros k gid Hk Hg HG Hin. rewrite Hall' in Hin. apply keep_In in Hin.
    destruct Hin as [_ Hn]. apply Hn. rewrite HT. apply flat_ids_In.
    exists gid, k. tauto. }
  split; [|split; [|split]].
  - intros k Hin Hw.
    assert (Hk : In k (allVisible g)).
    { rewrite Hall' in Hin. apply keep_In in Hin. tauto. }
    destruct (proj1 (truthy_Some _) (Hgrouped k Hk Hw)) as (gid & Hg & _).
    apply (Hgone k gid Hk Hg); [|exact Hin]. apply HGG. exists k. tauto.
  - intros k k' Hk Hk' Hw Hsame.
    destruct (proj1 (truthy_Some _) (Hgrouped k Hk Hw)) as (gid & Hg & _).
    apply (Hgone k' gid Hk'); [congruence|]. apply HGG. exists k. tauto.
  - intros k Hk Hother. rewrite Hall'. apply keep_In. split; [exact Hk|].
    rewrite HT. intros Hin. apply flat_ids_In in Hin.
    destruct Hin as (gid & k2 & HG & Hk2 & Hg2 & Hid).
    assert (k2 = k) by (apply (ids_injective (allVisible g)); assumption).
    subst k2. apply HGG in HG. destruct HG as (k' & Hk' & Hw' & Hg').
    apply (Hother k' Hk' Hw'). congruence.
  - exists (newExplosions (clearSet g m)). split.
    + subst g'. unfold processInput. fold g. rewrite Hfind.
      destruct (updatesSrs m); reflexivity.
    + rewrite Hall', Hlen. apply removed_count; [exact Hids| |].
      * rewrite HT. apply flat_ids_NoDup; assumption.
      * intros i Hi. rewrite HT in Hi. apply flat_ids_In in Hi.
        destruct Hi as (gid & k & _ & Hk & _ & Hid). exists k. tauto.
Qed.
End SweepTheorem.

Lemma same_word_swept_witness :
  let falling := [Sample.fragment "b0" Sample.neko "g1" 0 2 1 100 None;
                  Sample.fragment "b1" Sample.neko "g1" 1 2 2 100 None] in
  let stacked := [Sample.fragment "s0" Sample.neko "g2" 0 2 4 540 (Some 0);
                  Sample.fragment "s1" Sample.neko "g2" 1 2 5 540 (Some 0);
                  Sample.fragment "s2" Sample.inu "g3" 0 2 6 540 (Some 0);
                  Sample.fragment "s3" Sample.inu "g3" 1 2 7 540 (Some 0)] in
  let a := App.mk (Sample.game words falling stacked 0) ∅ 1 0 None 0 in
  let g' := App.gameState (@processInput Sample.board "neko" 0 a) in
  (forall k, In k (allVisible g') -> Kana.wordId k <> Some "neko"%string)
  /\ exists news,
       Game.explosions g' = news
       /\ (length news + length (allVisible g') = 6)%nat.
Proof.
  intros falling stacked a g'.
  destruct (@same_word_swept Sample.board "neko" 0 a
              (Sample.fragment "b0" Sample.neko "g1" 0 2 1 100 None) "neko")
    as (Hnone & _ & _ & news & Hex & Hlen).
  - reflexivity.
  - reflexivity.
  - reflexivity.
  - discriminate.
  - intros k Hin _. vm_compute in Hin.
    destruct Hin as [<-|[<-|[<-|[<-|[<-|[<-|[]]]]]]]; reflexivity.
  - vm_compute. repeat constructor; simpl; intuition discriminate.
  - split; [exact Hnone|]. exists news. split; [exact Hex|exact Hlen].
Defined.

(** ** The spawn attempt *)

Section SpawnProofs.
Context {K : Constants}.

Lemma columnsNeeded_In start width c :
  In c (columnsNeeded start width) <-> start <= c < start + Z.of_nat width.
Proof.
  unfold columnsNeeded. rewrite in_map_iff. split.
  - intros (i & <- & Hi). apply in_seq in Hi. lia.
  - intros Hc. exists (Z.to_nat (c - start)). split; [lia|]. apply in_seq. lia.
Qed.

Lemma hasCollision_iff active start width :
  hasCollision active (columnsNeeded start width) = true <->
  exists k, In k active
    /\ start <= Qfloor (Kana.x k / CELL_SIZE) < start + Z.of_nat width
    /\ (Kana.y k < CELL_SIZE * 3)%Q.
Proof.
  unfold hasCollision. rewrite existsb_exists. split.
  - intros (k & Hk & H). apply andb_true_iff in H. destruct H as [Hc Hy].
    apply existsb_exists in Hc. destruct Hc as (c & Hc & Heq).
    apply Z.eqb_eq in Heq. subst c. apply columnsNeeded_In in Hc.
    apply Qltb_true in Hy. exists k. tauto.
  - intros (k & Hk & Hc & Hy). exists k. split; [exact Hk|].
    apply andb_true_iff. split.
    + apply existsb_exists. exists (Qfloor (Kana.x k / CELL_SIZE)).
      split; [apply columnsNeeded_In; exact Hc|apply Z.eqb_refl].
    + apply Qltb_true. exact Hy.
Qed.

Lemma nth_error_combine_seq {A} (l : list A) (n i : nat) (p : nat * A) :
  nth_error (combine (seq n (length l)) l) i = Some p ->
  fst p = (n + i)%nat /\ nth_error l i = Some (snd p).
Proof.
  revert n i. induction l as [|a l IH]; intros n i H; simpl in H.
  - destruct i; discriminate H.
  - destruct i as [|i]; simpl in H.
    + injection H as <-. simpl. split; [lia|reflexivity].
    + apply IH in H. destruct H as [H1 H2]. split; [lia|exact H2].
Qed.

Lemma newKanaList_length isWord c start r :
  length (newKanaList isWord c start r) = length (cText c).
Proof.
  unfold newKanaList. rewrite length_map, length_combine, length_seq. lia.
Qed.

Lemma newKanaList_nth isWord c start r i k :
  nth_error (newKanaList isWord c start r) i = Some k ->
  nth_error (cText c) i = Some (Kana.char k)
  /\ Kana.romaji k = cRomaji c
  /\ Kana.column k = start + Z.of_nat i
  /\ Kana.y k = (- CELL_SIZE)%Q
  /\ Kana.stackedAt k = None
  /\ Kana.hintCount k = None
  /\ (isWord = true ->
      Kana.wordGroupId k = Some (Rolls.groupId r)
      /\ Kana.wordIndex k = Some (Z.of_nat i)
      /\ Kana.wordLength k = Some (Z.of_nat (length (cText c)))
      /\ Kana.wordRomaji k = Some (cRomaji c))
  /\ (isWord = false ->
      Kana.wordGroupId k = None /\ Kana.wordIndex k = None
      /\ Kana.wordLength k = None /\ Kana.wordRomaji k = None).
Proof.
  unfold newKanaList. intros H. rewrite nth_error_map in H.
  destruct (nth_error (combine (seq 0 (length (cText c))) (cText c)) i) as [p|] eqn:E;
    [|discriminate H].
  apply nth_error_combine_seq in E. destruct E as [Hi Hc]. simpl in Hi.
  injection H as <-. simpl. rewrite Hi.
  split; [exact Hc|]. split; [reflexivity|]. split; [reflexivity|].
  split; [reflexivity|]. split; [reflexivity|]. split; [reflexivity|].
  split; intros ->; repeat split.
Qed.

(** C9, as amended.  A spawn attempt that completes leaves the stacked
    blocks alone.  If the chosen text is wider than the board, or a
    falling block lies in one of the columns needed and less than three
    cells below the top edge, the game state is unchanged.  Otherwise the
    attempt appends one block per glyph, in adjacent columns from the
    start column on, each with the transcription of the entry; in words
    mode all of them carry the group identifier drawn for the attempt,
    their index in the text and its width, and in the other modes none
    of them carries a group identifier, an index or a length. *)
Theorem spawn_attempt_atomic (g : Game.t) (srs : WordSRS) (sessionNumber : Z)
    (r : Rolls.t) (g' : Game.t) :
  spawnKana g srs sessionNumber r = Some g' ->
  Game.stackedKana g' = Game.stackedKana g
  /\ exists c,
       chooseEntry g srs sessionNumber r = Some c
       /\ let width := Z.of_nat (length (cText c)) in
          let start := Qfloor (Rolls.start r * inject_Z (COLUMNS - width + 1)) in
          let blocked :=
            exists k, In k (Game.activeKana g)
              /\ start <= Qfloor (Kana.x k / CELL_SIZE) < start + width
              /\ (Kana.y k < CELL_SIZE * 3)%Q in
          (COLUMNS < width \/ blocked -> g' = g)
          /\ (width <= COLUMNS -> ~ blocked ->
              exists blocks,
                Game.activeKana g' = Game.activeKana g ++ blocks
                /\ length blocks = length (cText c)
                /\ forall i k, nth_error blocks i = Some k ->
                     nth_error (cText c) i = Some (Kana.char k)
                     /\ Kana.romaji k = cRomaji c
                     /\ Kana.column k = start + Z.of_nat i
                     /\ (Game.mode g = words ->
                         Kana.wordGroupId k = Some (Rolls.groupId r)
                         /\ Kana.wordIndex k = Some (Z.of_nat i)
                         /\ Kana.wordLength k = Some width)
                     /\ (Game.mode g <> words ->
                         Kana.wordGroupId k = None
                         /\ Kana.wordIndex k = None
                         /\ Kana.wordLength k = None)).
Proof.
  unfold spawnKana, spawnOutcome. intros H.
  destruct (chooseEntry g srs sessionNumber r) as [c|] eqn:Ec; [|discriminate H].
  set (width := Z.of_nat (length (cText c))) in *.
  set (start := Qfloor (Rolls.start r * inject_Z (COLUMNS - width + 1))) in *.
  pose proof (hasCollision_iff (Game.activeKana g) start (length (cText c))) as Hcol.
  fold width in Hcol.
  destruct (COLUMNS - width <? 0) eqn:Efit.
  { apply Z.ltb_lt in Efit. injection H as <-. split; [reflexivity|].
    exists c. split; [reflexivity|]. cbv zeta. split; [reflexivity|]. lia. }
  apply Z.ltb_ge in Efit.
  destruct (hasCollision (Game.activeKana g) (columnsNeeded start (length (cText c))))
    eqn:Ehit.
  { injection H as <-. split; [reflexivity|].
    exists c. split; [reflexivity|]. cbv zeta. split; [reflexivity|].
    intros _ Hfree. exfalso. apply Hfree. apply Hcol. reflexivity. }
  injection H as <-. split; [reflexivity|].
  exists c. split; [reflexivity|]. cbv zeta. split.
  - intros [Hwide|Hblocked]; [lia|].
    apply Hcol in Hblocked. discriminate Hblocked.
  - intros _ _.
    exists (newKanaList (KanaMode_eqb (Game.mode g) words) c start r).
    split; [reflexivity|]. split; [apply newKanaList_length|].
    intros i k Hk. apply newKanaList_nth in Hk.
    destruct Hk as (Hch & Hro & Hco & _ & _ & _ & Hw & Hs).
    split; [exact Hch|]. split; [exact Hro|]. split; [exact Hco|]. split.
    + intros Hm. rewrite Hm in Hw. destruct (Hw eq_refl) as (H1 & H2 & H3 & _). tauto.
    + intros Hm. destruct (Game.mode g); try (exfalso; apply Hm; reflexivity);
        destruct (Hs eq_refl) as (H1 & H2 & H3 & _); tauto.
Qed.
End SpawnProofs.

Lemma spawn_attempt_atomic_witness :
  let g := Sample.game words [] [] 0 in
  exists g',
    @spawnKana Sample.board g ∅ 1 Sample.rolls = Some g'
    /\ Game.stackedKana g' = Game.stackedKana g
    /\ exists c, @chooseEntry Sample.board g ∅ 1 Sample.rolls = Some c.
Proof.
  intros g.
  assert (Hrun : exists g', @spawnKana Sample.board g ∅ 1 Sample.rolls = Some g')
    by (eexists; vm_compute; reflexivity).
  destruct Hrun as [g' Hrun]. exists g'. split; [exact Hrun|].
  destruct (@spawn_attempt_atomic Sample.board g ∅ 1 Sample.rolls g' Hrun)
    as (Hst & c & Hc & _).
  split; [exact Hst|]. exists c. exact Hc.
Defined.

(** C9, as stated, fails: in hiragana mode an accepted spawn appends a
    block that carries no group identifier, no index and no length. *)
Lemma spawn_simple_symbol_has_no_group :
  let g := Sample.game hiragana [] [] 0 in
  exists k,
    @spawnKana Sample.board g ∅ 1 Sample.rolls
    = Some (Game.withActive g (Game.activeKana g ++ [k]))
    /\ Kana.romaji k = "a"%string
    /\ Kana.wordGroupId k = None
    /\ Kana.wordIndex k = None
    /\ Kana.wordLength k = None.
Proof.
  intros g. eexists. split; [vm_compute; reflexivity|].
  repeat split.
Qed.

(** ** What every block on the board satisfies *)

Section Preserved.
Context {K : Constants}.

(** A property of blocks that neither a move nor a landing destroys. *)
Variable P : Kana.t -> Prop.
Hypothesis P_withY : forall k y, P k -> P (Kana.withY k y).
Hypothesis P_landedAt : forall k y n, P k -> P (Kana.landedAt k y n).

Lemma addToGroup_all key k gs : P k -> groupsAll P gs -> groupsAll P (addToGroup key k gs).
Proof.
  intros Hk. induction gs as [|[key' g] gs IH]; intros Hgs; simpl.
  - repeat constructor. exact Hk.
  - inversion Hgs as [|? ? Hg Hrest]; subst.
    destruct (String.eqb key key').
    + constructor; [|exact Hrest]. simpl in *. apply List.Forall_app. split; [exact Hg|].
      repeat constructor. exact Hk.
    + constructor; [exact Hg|]. apply IH. exact Hrest.
Qed.

Lemma groupByKey_all l : Forall P l -> groupsAll P (groupByKey l).
Proof.
  unfold groupByKey. intros Hl.
  assert (H : forall gs, groupsAll P gs ->
                groupsAll P (fold_left (fun gs k => addToGroup (Kana.groupKey k) k gs) l gs)).
  { induction Hl as [|k l Hk Hl IH]; intros gs Hgs; simpl; [exact Hgs|].
    apply IH. apply addToGroup_all; assumption. }
  apply H. constructor.
Qed.

Lemma insertGroup_all e l :
  Forall P (snd e) -> groupsAll P l -> groupsAll P (insertGroup e l).
Proof.
  intros He. induction l as [|s l IH]; intros Hl; simpl.
  - repeat constructor. exact He.
  - inversion Hl as [|? ? Hs Hrest]; subst.
    destruct (Qltb (groupBottom e) (groupBottom s)).
    + constructor; [exact Hs|]. apply IH. exact Hrest.
    + constructor; [exact He|]. exact Hl.
Qed.

Lemma sortGroups_all l : groupsAll P l -> groupsAll P (sortGroups l).
Proof.
  unfold sortGroups. induction 1 as [|e l He Hl IH]; simpl.
  - constructor.
  - apply insertGroup_all; assumption.
Qed.

Lemma gravity_all speed stacked : Forall P stacked -> Forall P (gravity speed stacked).
Proof.
  intros Hst. unfold gravity.
  assert (H : forall gs updated, groupsAll P gs -> Forall P updated ->
                Forall P (fold_left (settleGroup speed) gs updated)).
  { induction gs as [|g gs IH]; intros updated Hgs Hu; simpl; [exact Hu|].
    inversion Hgs as [|? ? Hg Hrest]; subst. apply IH; [exact Hrest|].
    unfold settleGroup. apply List.Forall_app. split; [exact Hu|].
    apply List.Forall_map. eapply List.Forall_impl; [|exact Hg].
    intros k Hk. apply P_withY. exact Hk. }
  apply H; [|constructor]. apply sortGroups_all, groupByKey_all. exact Hst.
Qed.

Lemma land_all row bp group f :
  Forall P group -> Forall P (nextStackedKana f) ->
  Forall P (nextStackedKana (fold_left (landMember row bp) group f)).
Proof.
  intros Hg Hf. destruct (land_members row bp group f) as (_ & Hs & _).
  rewrite Hs. apply List.Forall_app. split; [exact Hf|].
  apply List.Forall_map. eapply List.Forall_impl; [|exact Hg].
  intros k Hk. apply P_landedAt. exact Hk.
Qed.

Lemma fallGroup_all speed bp f group :
  Forall P group -> Forall P (nextActiveKana f) -> Forall P (nextStackedKana f) ->
  Forall P (nextActiveKana (fallGroup speed bp f group))
  /\ Forall P (nextStackedKana (fallGroup speed bp f group)).
Proof.
  intros Hg Ha Hs. unfold fallGroup.
  destruct (collides speed (nextStackedKana f) group); simpl.
  - destruct (land_members (minTargetY (nextStackedKana f) group) bp group f)
      as (Hact & _).
    rewrite Hact. split; [exact Ha|]. apply land_all; assumption.
  - split; [|exact Hs]. apply List.Forall_app. split; [exact Ha|].
    apply List.Forall_map. eapply List.Forall_impl; [|exact Hg].
    intros k Hk. apply P_withY. exact Hk.
Qed.

Lemma physics_all bp prev :
  Forall P (Game.activeKana prev) -> Forall P (Game.stackedKana prev) ->
  Forall P (Game.activeKana (physics bp prev))
  /\ Forall P (Game.stackedKana (physics bp prev)).
Proof.
  intros Ha Hs. unfold physics. simpl.
  assert (H : forall gs f, Forall (Forall P) gs ->
                Forall P (nextActiveKana f) -> Forall P (nextStackedKana f) ->
                Forall P (nextActiveKana
                            (fold_left (fallGroup (currentSpeed prev) bp) gs f))
                /\ Forall P (nextStackedKana
                               (fold_left (fallGroup (currentSpeed prev) bp) gs f))).
  { induction gs as [|g gs IH]; intros f Hgs Hfa Hfs; simpl; [tauto|].
    inversion Hgs as [|? ? Hg Hrest]; subst.
    destruct (fallGroup_all (currentSpeed prev) bp f g Hg Hfa Hfs) as [Hfa' Hfs'].
    apply IH; assumption. }
  destruct (H (List.map snd (groupByKey (Game.activeKana prev)))
              (mkFall [] (Game.stackedKana prev) false false (Game.score prev)))
    as [Hfa Hfs].
  - apply List.Forall_map. apply groupByKey_all. exact Ha.
  - constructor.
  - exact Hs.
  - split; [exact Hfa|]. apply gravity_all. exact Hfs.
Qed.
End Preserved.

Section HintProofs.
Context {K : Constants}.

Lemma keep_all (P : Kana.t -> Prop) T l : Forall P l -> Forall P (keep T l).
Proof.
  intros H. apply List.Forall_forall. intros k Hk. apply keep_In in Hk.
  rewrite List.Forall_forall in H. apply H. tauto.
Qed.

Lemma spawnKana_unhinted g srs s r g' :
  spawnKana g srs s r = Some g' -> boardAll unhinted g -> boardAll unhinted g'.
Proof.
  unfold spawnKana. intros H [Ha Hs].
  destruct (spawnOutcome g srs s r) as [| |blocks] eqn:E; try discriminate H.
  - injection H as <-. split; assumption.
  - injection H as <-. split; [|exact Hs]. simpl. apply List.Forall_app. split; [exact Ha|].
    unfold spawnOutcome in E.
    destruct (chooseEntry g srs s r) as [c|]; [|discriminate E].
    destruct (COLUMNS - Z.of_nat (length (cText c)) <? 0); [discriminate E|].
    destruct (hasCollision _ _); [discriminate E|]. injection E as <-.
    apply List.Forall_forall. intros k Hk. apply In_nth_error in Hk. destruct Hk as [i Hi].
    apply newKanaList_nth in Hi. unfold unhinted. tauto.
Qed.

Lemma update_unhinted time now r a :
  boardAll unhinted (App.gameState a) ->
  boardAll unhinted (App.gameState (update time now r a)).
Proof.
  intros Hb. unfold update.
  assert (Hphys : forall bp g, boardAll unhinted g -> boardAll unhinted (physics bp g)).
  { intros bp g [Ha Hs]. apply physics_all; auto. }
  destruct (App.lastTime a) as [last|]; [|exact Hb].
  destruct (noLastTime (Some last)); [exact Hb|].
  destruct (negb (Game.isActive (App.gameState a)) || Game.isGameOver (App.gameState a)
            || Game.isPaused (App.gameState a)); [exact Hb|].
  destruct (negb (Game.frozenUntil (App.gameState a) =? 0)
            && (now <? Game.frozenUntil (App.gameState a))); [exact Hb|].
  set (g1 := if Game.isFreezeAbilityActive (App.gameState a)
             then Game.withFreezeAbility (App.gameState a) false
             else App.gameState a).
  assert (Hg1 : boardAll unhinted g1).
  { subst g1. destruct (Game.isFreezeAbilityActive (App.gameState a)); exact Hb. }
  destruct (Qltb _ _).
  - destruct (spawnKana g1 (App.wordSRS a) (App.sessionNumber a) r) as [g2|] eqn:E; simpl.
    + apply Hphys. eapply spawnKana_unhinted; eassumption.
    + exact Hg1.
  - simpl. apply Hphys. exact Hg1.
Qed.

Lemma processInput_unhinted val now a :
  boardAll unhinted (App.gameState a) ->
  boardAll unhinted (App.gameState (processInput val now a)).
Proof.
  intros [Ha Hs]. unfold processInput.
  destruct (findMatch val (App.gameState a)) as [m|]; [|split; assumption].
  destruct (updatesSrs m); simpl; split; apply keep_all; assumption.
Qed.

(** No reachable state holds a block with a hint count. *)
Lemma reachable_unhinted a : Reachable a -> boardAll unhinted (App.gameState a).
Proof.
  induction 1 as [m srs s|a m d _ _|a time now r _ IH|a val now _ IH|a g' lt _ IH Ha Hs].
  - split; constructor.
  - split; constructor.
  - apply update_unhinted. exact IH.
  - apply processInput_unhinted. exact IH.
  - destruct IH as [IHa IHs]. split; simpl; [rewrite Ha|rewrite Hs]; assumption.
Qed.

Lemma findMatch_In val g m : findMatch val g = Some m -> In m (allVisible g).
Proof.
  unfold findMatch. intros H.
  destruct (List.find _ (allVisible g)) as [m0|] eqn:E.
  - injection H as ->. apply find_some in E. tauto.
  - apply find_some in H. tauto.
Qed.

Lemma reachable_match_unhinted a val m :
  Reachable a -> findMatch val (App.gameState a) = Some m -> Kana.hintCount m = None.
Proof.
  intros Hr Hm. destruct (reachable_unhinted a Hr) as [Ha Hs].
  apply findMatch_In in Hm. unfold allVisible in Hm. apply in_app_or in Hm.
  rewrite List.Forall_forall in Ha, Hs. destruct Hm as [Hm|Hm]; [apply Ha|apply Hs]; exact Hm.
Qed.

(** Where no hint was used, or the block is stacked, the program's
    classification is the specification's. *)
Lemma classify_spec isStacked hintCount blocksAfter :
  isStacked = true \/ hintCount < 1 ->
  classify isStacked hintCount blocksAfter
  = specConfidence isStacked hintCount blocksAfter.
Proof.
  unfold classify, specConfidence. intros [->|Hh]; simpl.
  - reflexivity.
  - destruct (3 <=? hintCount) eqn:E3; [apply Z.leb_le in E3; lia|].
    destruct (1 <=? hintCount) eqn:E1; [apply Z.leb_le in E1; lia|].
    destruct isStacked; reflexivity.
Qed.

Lemma updates_reachable frames a : Reachable a -> Reachable (updates frames a).
Proof.
  revert a. unfold updates.
  induction frames as [|[[time now] r] frames IH]; intros a Ha; simpl; [exact Ha|].
  apply IH. apply R_update. exact Ha.
Qed.

(** A falling block with a hint count would not be classified as the
    specification says: the program looks at the hints first.  No
    reachable state holds such a block. *)
Lemma hinted_unstacked_not_confident blocksAfter :
  classify false 1 blocksAfter = hesitant /\ specConfidence false 1 blocksAfter = confident.
Proof. split; reflexivity. Qed.

(** C8.  The confidence the program computes for the primary match of a
    clear.  In a reachable state a match among the falling blocks, which
    has never been stacked, is confident (the blocks bearing distinct
    identifiers).  In any state whatever, a match among the stacked blocks
    is classified as the specification describes: difficult from three
    hints on, hesitant from one hint on, and, with no hint, difficult,
    hesitant or confident as the count of blocks processed since its
    landing reaches the high threshold (10), the low one (4), or neither;
    so a stacked block without hints cleared one count after its landing
    is confident.  The SRS store is updated with this confidence whenever
    the match is a word fragment that carries its word's identifier, kanji
    and gloss. *)
Theorem clear_confidence (a : App.t) (val : string) (now : Z) (m : Kana.t) :
  findMatch val (App.gameState a) = Some m ->
  (Reachable a ->
   List.NoDup (List.map Kana.id (allVisible (App.gameState a))) ->
   In m (Game.activeKana (App.gameState a)) ->
   confidenceOf a m = confident)
  /\ (In m (Game.stackedKana (App.gameState a)) ->
      confidenceOf a m
      = specConfidence true (default 0 (Kana.hintCount m))
          (App.blocksProcessed a - default 0 (Kana.stackedAt m))
      /\ (3 <= default 0 (Kana.hintCount m) -> confidenceOf a m = difficult)
      /\ (1 <= default 0 (Kana.hintCount m) < 3 -> confidenceOf a m = hesitant)
      /\ (default 0 (Kana.hintCount m) < 1 ->
          confidenceOf a m
          = if CONFIDENCE_THRESHOLD_DIFFICULT
                 <=? App.blocksProcessed a - default 0 (Kana.stackedAt m)
            then difficult
            else if CONFIDENCE_THRESHOLD_HESITANT
                      <=? App.blocksProcessed a - default 0 (Kana.stackedAt m)
                 then hesitant else confident)
      /\ (default 0 (Kana.hintCount m) < 1 ->
          App.blocksProcessed a - default 0 (Kana.stackedAt m) = 1 ->
          confidenceOf a m = confident))
  /\ (updatesSrs m = true ->
      App.wordSRS (processInput val now a)
      = srsUpdate (App.sessionNumber a) (default EmptyString (Kana.wordId m))
          (confidenceOf a m) (App.wordSRS a)).
Proof.
  intros Hm. split; [|split].
  - intros Hr Hnd Hin.
    assert (Hno : hasId (Game.stackedKana (App.gameState a)) m = false).
    { destruct (hasId (Game.stackedKana (App.gameState a)) m) eqn:E; [|reflexivity].
      unfold hasId in E. apply existsb_exists in E. destruct E as (k & Hk & Heq).
      apply String.eqb_eq in Heq. exfalso.
      exact (ids_apart _ _ m k Hnd Hin Hk (eq_sym Heq)). }
    unfold confidenceOf. rewrite classify_spec.
    + rewrite Hno. reflexivity.
    + right. rewrite (reachable_match_unhinted a val m Hr Hm). simpl. lia.
  - intros Hin. unfold confidenceOf. rewrite (hasId_In _ _ Hin).
    set (h := default 0 (Kana.hintCount m)).
    set (e := App.blocksProcessed a - default 0 (Kana.stackedAt m)).
    split; [apply classify_spec; left; reflexivity|].
    unfold classify. split; [|split; [|split]].
    + intros H3. replace (3 <=? h) with true by (symmetry; apply Z.leb_le; exact H3).
      reflexivity.
    + intros [H1 H3]. replace (3 <=? h) with false by (symmetry; apply Z.leb_gt; exact H3).
      replace (1 <=? h) with true by (symmetry; apply Z.leb_le; exact H1). reflexivity.
    + intros H0. replace (3 <=? h) with false by (symmetry; apply Z.leb_gt; lia).
      replace (1 <=? h) with false by (symmetry; apply Z.leb_gt; lia). reflexivity.
    + intros H0 He. replace (3 <=? h) with false by (symmetry; apply Z.leb_gt; lia).
      replace (1 <=? h) with false by (symmetry; apply Z.leb_gt; lia). rewrite He.
      reflexivity.
  - intros Hu. unfold processInput. rewrite Hm, Hu. reflexivity.
Qed.

(** C10.  In every reachable state no block, falling or stacked, has a
    hint count; hence, for the primary match of any clear, the
    confidence is a function of two things only: whether the block is
    stacked, and the count of blocks processed since it landed. *)
Theorem hint_count_never_written (a : App.t) :
  Reachable a ->
  (forall k, In k (allVisible (App.gameState a)) -> Kana.hintCount k = None)
  /\ (forall val m,
        findMatch val (App.gameState a) = Some m ->
        confidenceOf a m
        = if hasId (Game.stackedKana (App.gameState a)) m
          then
            if CONFIDENCE_THRESHOLD_DIFFICULT
                 <=? App.blocksProcessed a - default 0 (Kana.stackedAt m)
            then difficult
            else if CONFIDENCE_THRESHOLD_HESITANT
                      <=? App.blocksProcessed a - default 0 (Kana.stackedAt m)
                 then hesitant else confident
          else confident).
Proof.
  intros Hr. split.
  - intros k Hk. destruct (reachable_unhinted a Hr) as [Ha Hs].
    unfold allVisible in Hk. apply in_app_or in Hk.
    rewrite List.Forall_forall in Ha, Hs. destruct Hk as [Hk|Hk]; [apply Ha|apply Hs]; exact Hk.
  - intros val m Hm. unfold confidenceOf.
    rewrite (reachable_match_unhinted a val m Hr Hm). reflexivity.
Qed.
End HintProofs.

(** ** The stack stays on the board *)

Section StackProofs.
Context {K : Constants}.
Hypothesis cell_nonneg : (0 <= CELL_SIZE)%Q.

Lemma minInf_fold_le {A} (h : A -> Q) (l : list A) (m : option Q) (d : Q) :
  fold_left (fun m a => minInf m (h a)) l m = Some d ->
  (forall a, In a l -> d <= h a)%Q
  /\ (forall p, m = Some p -> d <= p)%Q.
Proof.
  revert m. induction l as [|b l IH]; intros m H; simpl in H.
  - split; [intros a []|]. intros p Hp. rewrite H in Hp. injection Hp as ->. apply Qle_refl.
  - destruct (IH _ H) as [Hall Hstart]. split.
    + intros a [->|Ha]; [|apply Hall; exact Ha].
      destruct m as [p|]; simpl in Hstart.
      * eapply Qle_trans; [apply (Hstart _ eq_refl)|]. apply Q.le_min_r.
      * apply (Hstart _ eq_refl).
    + intros p ->. simpl in Hstart.
      eapply Qle_trans; [apply (Hstart _ eq_refl)|]. apply Q.le_min_l.
Qed.

Lemma fallDistance_le updated kana :
  Forall onBoard updated ->
  (fallDistance updated kana <= BOARD_HEIGHT - CELL_SIZE - Kana.y kana)%Q.
Proof.
  intros Hu. unfold fallDistance.
  assert (Hfloor : (minOr BOARD_HEIGHT
                      (List.map Kana.y
                         (List.filter
                            (fun s => (Kana.column s =? Kana.column kana)
                                      && Qltb (Kana.y kana) (Kana.y s)) updated))
                    <= BOARD_HEIGHT)%Q).
  { apply minOr_le_default. intros q Hq. apply in_map_iff in Hq.
    destruct Hq as (s & <- & Hs). apply filter_In in Hs. destruct Hs as [Hs _].
    rewrite List.Forall_forall in Hu. specialize (Hu s Hs). unfold onBoard in Hu. lra. }
  lra.
Qed.

Lemma settleGroup_onBoard speed updated g :
  Forall onBoard (snd g) -> Forall onBoard updated ->
  Forall onBoard (settleGroup speed updated g).
Proof.
  intros Hg Hu. unfold settleGroup. apply List.Forall_app. split; [exact Hu|].
  apply List.Forall_map. apply List.Forall_forall. intros kana Hk.
  rewrite List.Forall_forall in Hg. specialize (Hg kana Hk).
  unfold onBoard in *. simpl.
  destruct (fold_left (fun m kana0 => minInf m (fallDistance updated kana0)) (snd g) None)
    as [d|] eqn:E.
  - destruct (minInf_fold_le _ _ _ _ E) as [Hall _].
    pose proof (Hall kana Hk) as Hd.
    pose proof (fallDistance_le updated kana Hu) as Hf.
    pose proof (Q.le_min_l d speed) as Hmin.
    destruct (Q.max_spec 0 (Qmin d speed)) as [[_ ->]|[_ ->]]; lra.
  - (* no member: the list is empty *)
    exfalso. destruct (snd g) as [|k0 l0]; [destruct Hk|].
    simpl in E.
    assert (Hne : forall l q,
               fold_left (fun m kana0 => minInf m (fallDistance updated kana0)) l (Some q)
               <> None).
    { clear. induction l as [|b l IH]; intros q; simpl; [discriminate|]. apply IH. }
    apply (Hne l0 _ E).
Qed.

Lemma gravity_onBoard speed stacked :
  Forall onBoard stacked -> Forall onBoard (gravity speed stacked).
Proof.
  intros Hst. unfold gravity.
  assert (H : forall gs updated, groupsAll onBoard gs -> Forall onBoard updated ->
                Forall onBoard (fold_left (settleGroup speed) gs updated)).
  { induction gs as [|g gs IH]; intros updated Hgs Hu; simpl; [exact Hu|].
    inversion Hgs as [|? ? Hg Hrest]; subst. apply IH; [exact Hrest|].
    apply settleGroup_onBoard; assumption. }
  apply H; [|constructor].
  apply (sortGroups_all onBoard), (groupByKey_all onBoard). exact Hst.
Qed.

Lemma fallGroup_onBoard speed bp f group :
  Forall onBoard (nextStackedKana f) ->
  Forall onBoard (nextStackedKana (fallGroup speed bp f group)).
Proof.
  intros Hf. destruct (collides speed (nextStackedKana f) group) eqn:Hc.
  - destruct (fallGroup_landing speed bp f group Hc) as (_ & Hs & _). rewrite Hs.
    apply List.Forall_app. split; [exact Hf|].
    apply List.Forall_map. apply List.Forall_forall. intros k Hk.
    unfold onBoard. simpl.
    pose proof (fold_Qmin_le_each
                  (fun kana => topOfStack (nextStackedKana f) (Kana.column kana) - CELL_SIZE)%Q
                  group (BOARD_HEIGHT * 2)%Q k Hk) as Hle.
    change (fold_left _ group (BOARD_HEIGHT * 2)%Q)
      with (minTargetY (nextStackedKana f) group) in Hle.
    cbv beta in Hle.
    assert (Htop : (topOfStack (nextStackedKana f) (Kana.column k) <= BOARD_HEIGHT)%Q).
    { apply topOfStack_le_floor. intros s Hs'.
      rewrite List.Forall_forall in Hf. specialize (Hf s Hs'). unfold onBoard in Hf. lra. }
    lra.
  - unfold fallGroup. rewrite Hc. simpl. exact Hf.
Qed.

Lemma fall_onBoard speed bp groups f :
  Forall onBoard (nextStackedKana f) ->
  Forall onBoard (nextStackedKana (fold_left (fallGroup speed bp) groups f)).
Proof.
  revert f. induction groups as [|g groups IH]; intros f Hf; simpl; [exact Hf|].
  apply IH. apply fallGroup_onBoard. exact Hf.
Qed.

Lemma physics_onBoard bp prev :
  Forall onBoard (Game.stackedKana prev) ->
  Forall onBoard (Game.stackedKana (physics bp prev)).
Proof.
  intros Hs. unfold physics. simpl. apply gravity_onBoard.
  unfold fallStep. apply fall_onBoard. exact Hs.
Qed.

Lemma spawnKana_stacked g srs s r g' :
  spawnKana g srs s r = Some g' -> Game.stackedKana g' = Game.stackedKana g.
Proof.
  unfold spawnKana. destruct (spawnOutcome g srs s r); intros H;
    try discriminate H; injection H as <-; reflexivity.
Qed.

(** In every reachable state every stacked block lies at least one cell
    above the floor line, so the stack meets the assumption under which
    the landing row was characterised. *)
Lemma reachable_stack_onBoard a :
  Reachable a -> Forall onBoard (Game.stackedKana (App.gameState a)).
Proof.
  induction 1 as [m srs s|a m d _ _|a time now r _ IH|a val now _ IH|a g' lt _ IH Ha Hs].
  - constructor.
  - constructor.
  - unfold update.
    destruct (App.lastTime a) as [last|]; [|exact IH].
    destruct (noLastTime (Some last)); [exact IH|].
    destruct (negb (Game.isActive (App.gameState a)) || Game.isGameOver (App.gameState a)
              || Game.isPaused (App.gameState a)); [exact IH|].
    destruct (negb (Game.frozenUntil (App.gameState a) =? 0)
              && (now <? Game.frozenUntil (App.gameState a))); [exact IH|].
    set (g1 := if Game.isFreezeAbilityActive (App.gameState a)
               then Game.withFreezeAbility (App.gameState a) false
               else App.gameState a).
    assert (Hg1 : Forall onBoard (Game.stackedKana g1)).
    { subst g1. destruct (Game.isFreezeAbilityActive (App.gameState a)); exact IH. }
    destruct (Qltb _ _).
    + destruct (spawnKana g1 (App.wordSRS a) (App.sessionNumber a) r) as [g2|] eqn:E; simpl.
      * apply physics_onBoard. rewrite (spawnKana_stacked _ _ _ _ _ E). exact Hg1.
      * exact Hg1.
    + simpl. apply physics_onBoard. exact Hg1.
  - unfold processInput.
    destruct (findMatch val (App.gameState a)) as [m|]; [|exact IH].
    destruct (updatesSrs m); simpl; apply keep_all; exact IH.
  - simpl. rewrite Hs. exact IH.
Qed.

(** So, in the fall loop of a frame taken from a reachable state, the
    stack against which each group is tested has no block below the
    floor line. *)
Lemma reachable_fall_loop_stack a bp pre s :
  Reachable a ->
  In s (nextStackedKana
          (fold_left (fallGroup (currentSpeed (App.gameState a)) bp) pre
             (mkFall [] (Game.stackedKana (App.gameState a)) false false
                     (Game.score (App.gameState a))))) ->
  (Kana.y s <= BOARD_HEIGHT)%Q.
Proof.
  intros Hr Hs.
  pose proof (fall_onBoard (currentSpeed (App.gameState a)) bp pre
                (mkFall [] (Game.stackedKana (App.gameState a)) false false
                        (Game.score (App.gameState a)))
                (reachable_stack_onBoard a Hr)) as Hall.
  rewrite List.Forall_forall in Hall. specialize (Hall s Hs).
  unfold onBoard in Hall. lra.
Qed.
End StackProofs.

Lemma played_reachable : @Reachable Sample.steep Sample.played.
Proof.
  unfold Sample.played. apply updates_reachable.
  apply (@R_startGame Sample.steep (@mounted words ∅ 1) words slow).
  apply R_mounted.
Qed.

Lemma clear_confidence_witness :
  let hinted (n : Z) : Kana.t :=
    Kana.mk "s0" "ne" "neko" TyWord 0 540 0 false (Some ["cat"]) (Some "cat")
            (Some "neko") (Some "g0") (Some "neko") (Some 0) (Some 1) (Some Noun)
            (Some 5) (Some n) in
  let state (n : Z) : App.t :=
    App.mk (Sample.game words [] [hinted n] 0) ∅ 1 6 (Some 900%Q) 0 in
  confidenceOf (state 3) (hinted 3) = difficult
  /\ confidenceOf (state 1) (hinted 1) = hesitant
  /\ confidenceOf (state 0) (hinted 0) = confident.
Proof.
  intros hinted state.
  destruct (@clear_confidence Sample.board (state 3) "neko" 0 (hinted 3) eq_refl) as (_ & H3 & _).
  destruct (@clear_confidence Sample.board (state 1) "neko" 0 (hinted 1) eq_refl) as (_ & H1 & _).
  destruct (@clear_confidence Sample.board (state 0) "neko" 0 (hinted 0) eq_refl) as (_ & H0 & _).
  destruct H3 as (_ & H3 & _); [left; reflexivity|].
  destruct H1 as (_ & _ & H1 & _); [left; reflexivity|].
  destruct H0 as (_ & _ & _ & _ & H0); [left; reflexivity|].
  split; [apply H3; cbn; lia|]. split; [apply H1; cbn; lia|].
  apply H0; [cbn; lia|reflexivity].
Defined.

Lemma hint_count_never_written_witness :
  Forall (fun k => Kana.hintCount k = None) (allVisible (App.gameState Sample.played)).
Proof.
  apply List.Forall_forall.
  apply (@hint_count_never_written Sample.steep Sample.played played_reachable).
Defined.

(** * Further properties *)

(** ** The SRS store over a run of clears *)

Lemma srsNext_level s c d :
  Srs.level d <= Srs.level (srsNext s c d)
  /\ Srs.level (srsNext s c d) <= Srs.level d + 1
  /\ Srs.level (srsNext s c d) <= Z.max (Srs.level d) SRS_MAX_LEVEL.
Proof.
  unfold srsNext; simpl.
  destruct (Qleb 1 (Srs.progress d + progressGain c) && (Srs.level d <? SRS_MAX_LEVEL))
    eqn:E; simpl; [|lia].
  apply andb_true_iff in E. destruct E as [_ E]. apply Z.ltb_lt in E. lia.
Qed.

Lemma srsUpdate_lookup s w c (st : WordSRS) w' :
  srsUpdate s w c st !! w'
  = if String.eqb w w'
    then Some (srsNext s c (default (freshSrs s) (st !! w)))
    else st !! w'.
Proof.
  unfold srsUpdate. destruct (String.eqb w w') eqn:E.
  - apply String.eqb_eq in E. subst. apply lookup_insert_eq.
  - apply String.eqb_neq in E. apply lookup_insert_ne. exact E.
Qed.

Lemma srsRun_cons s e events (st : WordSRS) :
  srsRun s (e :: events) st = srsRun s events (srsUpdate s (fst e) (snd e) st).
Proof. reflexivity. Qed.

Lemma srs_level_kept s events (st : WordSRS) w d :
  st !! w = Some d ->
  exists d', srsRun s events st !! w = Some d'
    /\ Srs.level d <= Srs.level d'
    /\ Srs.level d' <= Z.max (Srs.level d) SRS_MAX_LEVEL.
Proof.
  revert st d. induction events as [|[w0 c] events IH]; intros st d Hd.
  - exists d. simpl. split; [exact Hd|]. lia.
  - rewrite srsRun_cons. simpl fst. simpl snd.
    pose proof (srsUpdate_lookup s w0 c st w) as Hl.
    destruct (String.eqb w0 w) eqn:E.
    + apply String.eqb_eq in E. subst w0. rewrite Hd in Hl.
      change (default (freshSrs s) (Some d)) with d in Hl.
      destruct (IH _ _ Hl) as (d' & Hd' & H1 & H2).
      exists d'. split; [exact Hd'|].
      pose proof (srsNext_level s c d). lia.
    + rewrite Hd in Hl. apply (IH _ _ Hl).
Qed.

(** X1.  Over any run of clears a record, once written, is never removed
    and its level never decreases; the level never passes the larger of its
    start and the maximal level; and a word first met during the run ends
    at a level between 0 and the maximum. *)
Theorem srs_level_never_decreases (s : Z) (events : list (string * ConfidenceLevel))
    (st : WordSRS) (w : string) :
  (forall d, st !! w = Some d ->
     exists d', srsRun s events st !! w = Some d'
       /\ Srs.level d <= Srs.level d'
       /\ Srs.level d' <= Z.max (Srs.level d) SRS_MAX_LEVEL)
  /\ (st !! w = None ->
      forall d', srsRun s events st !! w = Some d' ->
        0 <= Srs.level d' <= SRS_MAX_LEVEL).
Proof.
  split; [apply srs_level_kept|].
  revert st. induction events as [|[w0 c] events IH]; intros st Hnone d' Hd'.
  - simpl in Hd'. congruence.
  - rewrite srsRun_cons in Hd'. simpl fst in Hd'. simpl snd in Hd'.
    pose proof (srsUpdate_lookup s w0 c st w) as Hl.
    destruct (String.eqb w0 w) eqn:E.
    + apply String.eqb_eq in E. subst w0. rewrite Hnone in Hl.
      change (default (freshSrs s) None) with (freshSrs s) in Hl.
      destruct (srs_level_kept s events _ _ _ Hl) as (d2 & Hd2 & H1 & H2).
      rewrite Hd2 in Hd'. injection Hd' as <-.
      pose proof (srsNext_level s c (freshSrs s)) as H3.
      change (Srs.level (freshSrs s)) with 0 in H3.
      unfold SRS_MAX_LEVEL in *. lia.
    + rewrite Hnone in Hl. apply (IH _ Hl _ Hd').
Qed.

Lemma srs_level_never_decreases_witness :
  exists d',
    srsRun 2 [("neko"%string, confident); ("inu"%string, difficult)]
      (<["neko"%string := Srs.mk 3 0.5 (Some 9) 6 0 0 1]> ∅) !! "neko"%string = Some d'
    /\ 3 <= Srs.level d' /\ Srs.level d' <= 6.
Proof.
  destruct (srs_level_never_decreases 2
              [("neko"%string, confident); ("inu"%string, difficult)]
              (<["neko"%string := Srs.mk 3 0.5 (Some 9) 6 0 0 1]> ∅) "neko"%string)
    as [Hkept _].
  destruct (Hkept (Srs.mk 3 0.5 (Some 9) 6 0 0 1)) as (d' & Hd' & H1 & H2).
  - vm_compute. reflexivity.
  - exists d'. split; [exact Hd'|]. simpl in H1, H2. unfold SRS_MAX_LEVEL in H2. lia.
Defined.

Lemma attempts_update s w c (st : WordSRS) w' :
  attempts (srsUpdate s w c st) w'
  = attempts st w' + (if String.eqb w w' then 1 else 0).
Proof.
  unfold attempts. rewrite srsUpdate_lookup.
  destruct (String.eqb w w') eqn:E.
  - apply String.eqb_eq in E. subst w'.
    destruct (st !! w) as [d|]; simpl; destruct c; simpl; lia.
  - destruct (st !! w'); lia.
Qed.

(** X2.  The three lifetime counts of a word together count its clears:
    after a run, their sum has grown by the number of events of the run
    that concern the word (a word without a record counting as 0). *)
Theorem srs_counts_every_clear (s : Z) (events : list (string * ConfidenceLevel))
    (st : WordSRS) (w : string) :
  attempts (srsRun s events st) w
  = attempts st w
    + Z.of_nat (length (List.filter (fun e => String.eqb (fst e) w) events)).
Proof.
  revert st. induction events as [|[w0 c] events IH]; intros st.
  - simpl. lia.
  - rewrite srsRun_cons, IH, attempts_update. simpl.
    destruct (String.eqb w0 w); simpl; lia.
Qed.

Lemma intervalAt_mastered l i :
  MASTERY_THRESHOLD <= l -> intervalAt l = Some i -> l = 6 /\ i = 60.
Proof.
  unfold MASTERY_THRESHOLD, intervalAt. intros Hl H.
  destruct (l <? 0) eqn:E; [discriminate H|].
  destruct (Z.eq_dec l 6) as [->|Hne].
  - split; [reflexivity|]. vm_compute in H. congruence.
  - exfalso. assert (Hn : (7 <= Z.to_nat l)%nat) by lia.
    assert (Hnone : nth_error SRS_INTERVALS (Z.to_nat l) = None).
    { apply nth_error_None. simpl. exact Hn. }
    congruence.
Qed.

Section ReviewProofs.
Context {K : Constants}.

(** X3.  A word cleared in session [s] is in the review pool of no session
    before [s + 60]: whatever the store held and however the clear went,
    the word counts as due only at the mastery level, and then 60 sessions
    later. *)
Theorem cleared_word_rests (srs : WordSRS) (s s' : Z) (c : ConfidenceLevel) (w : Word.t) :
  In w (dueWords (srsUpdate s (Word.id w) c srs) s') ->
  s + 60 <= s'
  /\ exists d, srsUpdate s (Word.id w) c srs !! Word.id w = Some d
               /\ Srs.level d = MASTERY_THRESHOLD.
Proof.
  unfold dueWords. intros H. apply filter_In in H. destruct H as [_ H].
  rewrite srsUpdate_lookup, String.eqb_refl in H.
  apply andb_true_iff in H. destruct H as [Hl Hr]. apply Z.leb_le in Hl.
  unfold reviewReached in Hr.
  set (d := srsNext s c (default (freshSrs s) (srs !! Word.id w))) in *.
  assert (Hnext : Srs.nextReviewSession d
                  = match intervalAt (Srs.level d) with
                    | Some i => Some (s + i)
                    | None => None
                    end) by reflexivity.
  rewrite Hnext in Hr.
  destruct (intervalAt (Srs.level d)) as [i|] eqn:Ei; [|discriminate Hr].
  destruct (intervalAt_mastered _ _ Hl Ei) as [H6 ->].
  apply Z.leb_le in Hr. split; [exact Hr|].
  exists d. rewrite srsUpdate_lookup, String.eqb_refl. split; [reflexivity|exact H6].
Qed.
End ReviewProofs.

Lemma cleared_word_rests_witness :
  let srs : WordSRS := <["neko"%string := Srs.mk 6 0 (Some 0) 12 0 0 1]> ∅ in
  In Sample.neko (@dueWords Sample.board srs 5)
  /\ ~ In Sample.neko (@dueWords Sample.board (srsUpdate 5 "neko" confident srs) 64)
  /\ In Sample.neko (@dueWords Sample.board (srsUpdate 5 "neko" confident srs) 65).
Proof.
  intros srs. split; [|split].
  - vm_compute. left. reflexivity.
  - intros H.
    destruct (@cleared_word_rests Sample.board srs 5 64 confident Sample.neko H) as [Hs _].
    lia.
  - vm_compute. left. reflexivity.
Defined.

Lemma srsRun_snoc s events e (st : WordSRS) :
  srsRun s (events ++ [e]) st = srsUpdate s (fst e) (snd e) (srsRun s events st).
Proof. unfold srsRun. rewrite fold_left_app. reflexivity. Qed.

Lemma repeat_snoc {A} (x : A) n : repeat x (S n) = repeat x n ++ [x].
Proof.
  induction n as [|n IH]; [reflexivity|].
  change (repeat x (S (S n))) with (x :: repeat x (S n)). rewrite IH at 1. reflexivity.
Qed.

(** The first eleven confident clears of a new word. *)
Lemma confident_clears_climb s w n :
  (1 <= n <= 12)%nat ->
  exists d,
    srsRun s (repeat (w, confident) n) ∅ !! w = Some d
    /\ Srs.level d = Z.of_nat n / 2
    /\ (Srs.progress d == inject_Z (Z.of_nat n mod 2) * (1 # 2))%Q.
Proof.
  induction n as [|n IH]; intros Hn; [lia|].
  destruct n as [|n].
  - exists (srsNext s confident (freshSrs s)). split.
    + change (repeat (w, confident) 1) with [(w, confident)].
      rewrite srsRun_cons. simpl. rewrite srsUpdate_lookup, String.eqb_refl, lookup_empty.
      reflexivity.
    + split; [reflexivity|]. vm_compute. reflexivity.
  - destruct IH as (d & Hd & Hl & Hp); [lia|].
    rewrite repeat_snoc, srsRun_snoc. simpl fst. simpl snd.
    rewrite srsUpdate_lookup, String.eqb_refl, Hd.
    change (default (freshSrs s) (Some d)) with d.
    eexists. split; [reflexivity|].
    assert (Hlt : Srs.level d < SRS_MAX_LEVEL).
    { rewrite Hl. unfold SRS_MAX_LEVEL. apply Z.div_lt_upper_bound; lia. }
    unfold srsNext. cbn [Srs.level Srs.progress progressGain].
    destruct (Z.of_nat (S n) mod 2 =? 0) eqn:Epar.
    + (* an even count: half way to the next level *)
      apply Z.eqb_eq in Epar. rewrite Epar in Hp.
      assert (Hq : Qleb 1 (Srs.progress d + PROGRESS_CONFIDENT) = false).
      { apply Qleb_false. unfold PROGRESS_CONFIDENT. rewrite Hp. reflexivity. }
      rewrite Hq. cbn [andb]. split.
      * rewrite Hl. replace (Z.of_nat (S (S n))) with (Z.of_nat (S n) + 1) by lia.
        pose proof (Z.div_mod (Z.of_nat (S n)) 2 ltac:(lia)).
        pose proof (Z.div_mod (Z.of_nat (S n) + 1) 2 ltac:(lia)).
        pose proof (Z.mod_pos_bound (Z.of_nat (S n) + 1) 2 ltac:(lia)). lia.
      * assert (Hm : Z.of_nat (S (S n)) mod 2 = 1).
        { replace (Z.of_nat (S (S n))) with (Z.of_nat (S n) + 1) by lia.
          rewrite Z.add_mod, Epar by lia. reflexivity. }
        rewrite Hm. unfold PROGRESS_CONFIDENT. rewrite Hp. reflexivity.
    + (* an odd count: the level is gained *)
      apply Z.eqb_neq in Epar.
      assert (Hm1 : Z.of_nat (S n) mod 2 = 1).
      { pose proof (Z.mod_pos_bound (Z.of_nat (S n)) 2 ltac:(lia)). lia. }
      rewrite Hm1 in Hp.
      assert (Hq : Qleb 1 (Srs.progress d + PROGRESS_CONFIDENT) = true).
      { apply Qleb_true. unfold PROGRESS_CONFIDENT. rewrite Hp. discriminate. }
      rewrite Hq. apply Z.ltb_lt in Hlt. rewrite Hlt. cbn [andb]. split.
      * rewrite Hl. replace (Z.of_nat (S (S n))) with (Z.of_nat (S n) + 1) by lia.
        pose proof (Z.div_mod (Z.of_nat (S n)) 2 ltac:(lia)).
        pose proof (Z.div_mod (Z.of_nat (S n) + 1) 2 ltac:(lia)).
        pose proof (Z.mod_pos_bound (Z.of_nat (S n) + 1) 2 ltac:(lia)). lia.
      * assert (Hm : Z.of_nat (S (S n)) mod 2 = 0).
        { replace (Z.of_nat (S (S n))) with (Z.of_nat (S n) + 1) by lia.
          rewrite Z.add_mod, Hm1 by lia. reflexivity. }
        rewrite Hm. reflexivity.
Qed.

(** X4.  Confident clears raise a new word by one level for every two of
    them, up to the maximal level: after [n >= 1] confident clears its level
    is the lesser of [n / 2] and 6, so the word is mastered from the twelfth
    on. *)
Theorem confident_clears_level (s : Z) (w : string) (n : nat) :
  (1 <= n)%nat ->
  exists d,
    srsRun s (repeat (w, confident) n) ∅ !! w = Some d
    /\ Srs.level d = Z.min SRS_MAX_LEVEL (Z.of_nat n / 2).
Proof.
  intros Hn. destruct (le_lt_dec n 12) as [Hle|Hgt].
  - destruct (confident_clears_climb s w n) as (d & Hd & Hl & _); [lia|].
    exists d. split; [exact Hd|]. rewrite Hl. unfold SRS_MAX_LEVEL.
    assert (Z.of_nat n / 2 <= 6) by (apply Z.div_le_upper_bound; lia). lia.
  - destruct (confident_clears_climb s w 12) as (d & Hd & Hl & _); [lia|].
    replace n with (12 + (n - 12))%nat by lia.
    rewrite repeat_app. unfold srsRun. rewrite fold_left_app.
    fold (srsRun s (repeat (w, confident) 12) ∅).
    fold (srsRun s (repeat (w, confident) (n - 12))
            (srsRun s (repeat (w, confident) 12) ∅)).
    destruct (srs_level_kept s (repeat (w, confident) (n - 12)) _ w d Hd)
      as (d' & Hd' & H1 & H2).
    exists d'. split; [exact Hd'|].
    change (Z.of_nat 12 / 2) with 6 in Hl. unfold SRS_MAX_LEVEL in *.
    assert (6 <= Z.of_nat (12 + (n - 12)) / 2) by (apply Z.div_le_lower_bound; lia).
    lia.
Qed.

Lemma confident_clears_level_witness :
  exists d,
    srsRun 1 (repeat ("neko"%string, confident) 5) ∅ !! "neko"%string = Some d
    /\ Srs.level d = 2.
Proof.
  destruct (confident_clears_level 1 "neko" 5) as (d & Hd & Hl); [lia|].
  exists d. split; [exact Hd|]. rewrite Hl. reflexivity.
Defined.

(** ** The first store *)

Lemma intervalAt_defined l : 0 <= l <= SRS_MAX_LEVEL -> intervalAt l <> None.
Proof.
  unfold SRS_MAX_LEVEL. intros Hl.
  assert (H : l = 0 \/ l = 1 \/ l = 2 \/ l = 3 \/ l = 4 \/ l = 5 \/ l = 6) by lia.
  destruct H as [->|[->|[->|[->|[->|[->| ->]]]]]]; discriminate.
Qed.

Lemma srsNext_wellFormed s c d : wellFormed d -> wellFormed (srsNext s c d).
Proof.
  intros [Hl _]. pose proof (srsNext_level s c d) as (H1 & H2 & H3).
  assert (Hl' : 0 <= Srs.level (srsNext s c d) <= SRS_MAX_LEVEL) by lia.
  split; [exact Hl'|].
  assert (Hnext : Srs.nextReviewSession (srsNext s c d)
                  = match intervalAt (Srs.level (srsNext s c d)) with
                    | Some i => Some (s + i)
                    | None => None
                    end) by reflexivity.
  rewrite Hnext. pose proof (intervalAt_defined _ Hl') as Hi.
  destruct (intervalAt (Srs.level (srsNext s c d))); [discriminate|contradiction].
Qed.

Lemma srsRun_wellFormed s events (st : WordSRS) :
  map_Forall (fun _ d => wellFormed d) st ->
  map_Forall (fun _ d => wellFormed d) (srsRun s events st).
Proof.
  revert st. induction events as [|e events IH]; intros st Hst; [exact Hst|].
  rewrite srsRun_cons. apply IH. unfold srsUpdate. apply map_Forall_insert_2; [|exact Hst].
  apply srsNext_wellFormed. destruct (st !! e.1) as [d|] eqn:E; simpl.
  - exact (Hst _ _ E).
  - split; [unfold SRS_MAX_LEVEL; simpl; lia|discriminate].
Qed.

Lemma migrate_lookup (old : gmap string Z) w d :
  migrate old !! w = Some d ->
  exists count, old !! w = Some count
    /\ d = Srs.mk (Z.min SRS_MAX_LEVEL (count / 2)) 0 (Some 0) count 0 0 0.
Proof.
  unfold migrate. rewrite lookup_fmap. destruct (old !! w) as [count|]; simpl.
  - intros [= <-]. exists count. split; reflexivity.
  - discriminate.
Qed.

(** X5.  A store converted from old mastery counts, none of them negative,
    and then updated by any run of clears holds only records that the
    program could have written itself: a level between 0 and the maximum,
    a progress within its bounds, and a session of next review. *)
Theorem migrated_store_sound (old : gmap string Z) (s : Z)
    (events : list (string * ConfidenceLevel)) (w : string) (d : Srs.t) :
  (forall w count, old !! w = Some count -> 0 <= count) ->
  srsRun s events (initialSRS None (Some old)) !! w = Some d ->
  0 <= Srs.level d <= SRS_MAX_LEVEL
  /\ Srs.nextReviewSession d <> None
  /\ (0 <= Srs.progress d <= 1)%Q
  /\ (Srs.level d < SRS_MAX_LEVEL -> (Srs.progress d < 1)%Q).
Proof.
  intros Hold Hd. simpl in Hd.
  assert (Hwf : map_Forall (fun _ d => wellFormed d) (migrate old)).
  { intros w0 d0 H0. apply migrate_lookup in H0. destruct H0 as (count & Hc & ->).
    specialize (Hold _ _ Hc). split; [|discriminate]. simpl. unfold SRS_MAX_LEVEL.
    assert (0 <= count / 2) by (apply Z.div_pos; lia). lia. }
  assert (Hpb : map_Forall (fun _ d => progressBounded d) (migrate old)).
  { intros w0 d0 H0. apply migrate_lookup in H0. destruct H0 as (count & Hc & ->).
    unfold progressBounded. simpl. split; [split|intros _]; lra. }
  destruct (srsRun_wellFormed s events _ Hwf w d Hd) as [H1 H2].
  destruct (srsRun_bounded s events _ Hpb w d Hd) as [H3 H4].
  tauto.
Qed.

Lemma migrated_store_sound_witness :
  exists d,
    srsRun 3 [("neko"%string, confident)]
      (initialSRS None (Some (<["neko"%string := 7]> ∅))) !! "neko"%string = Some d
    /\ 0 <= Srs.level d <= SRS_MAX_LEVEL
    /\ Srs.nextReviewSession d <> None.
Proof.
  assert (Hrun : exists d,
             srsRun 3 [("neko"%string, confident)]
               (initialSRS None (Some (<["neko"%string := 7]> ∅))) !! "neko"%string
             = Some d) by (eexists; vm_compute; reflexivity).
  destruct Hrun as [d Hd]. exists d. split; [exact Hd|].
  destruct (migrated_store_sound (<["neko"%string := 7]> ∅) 3
              [("neko"%string, confident)] "neko" d) as (H1 & H2 & _).
  - intros w count H. destruct (String.eqb "neko" w) eqn:E.
    + apply String.eqb_eq in E. subst w. rewrite lookup_insert_eq in H.
      injection H as <-. lia.
    + apply String.eqb_neq in E. rewrite lookup_insert_ne in H by exact E.
      rewrite lookup_empty in H. discriminate H.
  - exact Hd.
  - split; [exact H1|exact H2].
Defined.

Section MigrationProofs.
Context {K : Constants}.

(** X6.  A word that the old format had counted twelve times or more is
    converted to the mastery level and is due for review at once, in every
    session from 0 on; a word counted less than twelve times is not due. *)
Theorem migrated_mastery_is_due (old : gmap string Z) (w : Word.t) (count s : Z) :
  In w WORDS ->
  old !! Word.id w = Some count ->
  0 <= s ->
  (12 <= count -> In w (dueWords (migrate old) s))
  /\ (count < 12 -> ~ In w (dueWords (migrate old) s)).
Proof.
  intros Hw Hc Hs.
  assert (Hl : migrate old !! Word.id w
               = Some (Srs.mk (Z.min SRS_MAX_LEVEL (count / 2)) 0 (Some 0) count 0 0 0)).
  { unfold migrate. rewrite lookup_fmap, Hc. reflexivity. }
  unfold dueWords. split.
  - intros H12. apply filter_In. split; [exact Hw|]. rewrite Hl. simpl.
    apply andb_true_iff. split.
    + apply Z.leb_le. unfold MASTERY_THRESHOLD, SRS_MAX_LEVEL.
      assert (6 <= count / 2) by (apply Z.div_le_lower_bound; lia). lia.
    + unfold reviewReached. simpl. apply Z.leb_le. exact Hs.
  - intros H12 Hin. apply filter_In in Hin. destruct Hin as [_ Hin].
    rewrite Hl in Hin. simpl in Hin. apply andb_true_iff in Hin. destruct Hin as [Hin _].
    apply Z.leb_le in Hin. unfold MASTERY_THRESHOLD, SRS_MAX_LEVEL in Hin.
    assert (count / 2 < 6) by (apply Z.div_lt_upper_bound; lia). lia.
Qed.
End MigrationProofs.

Lemma migrated_mastery_is_due_witness :
  In Sample.neko (@dueWords Sample.board (migrate (<["neko"%string := 13]> ∅)) 1).
Proof.
  apply (@migrated_mastery_is_due Sample.board (<["neko"%string := 13]> ∅)
           Sample.neko 13 1).
  - left. reflexivity.
  - vm_compute. reflexivity.
  - lia.
  - lia.
Defined.

(** ** What a frame does to the blocks *)

Lemma sameBlock_withY k y : sameBlock (Kana.withY k y) = sameBlock k.
Proof. reflexivity. Qed.

Lemma sameBlock_landedAt k y n : sameBlock (Kana.landedAt k y n) = sameBlock k.
Proof. reflexivity. Qed.

Lemma sameBlock_map_withY (d : Kana.t -> Q) l :
  List.map sameBlock (List.map (fun k => Kana.withY k (d k)) l) = List.map sameBlock l.
Proof. rewrite List.map_map. apply List.map_ext. intros k. apply sameBlock_withY. Qed.

Lemma sameBlock_map_landedAt row bp l :
  List.map sameBlock (List.map (fun k => Kana.landedAt k row bp) l) = List.map sameBlock l.
Proof. rewrite List.map_map. apply List.map_ext. intros k. apply sameBlock_landedAt. Qed.

Section ConservationProofs.
Context {K : Constants}.

Lemma addToGroup_perm key k gs :
  Permutation (concat (List.map snd (addToGroup key k gs)))
              (k :: concat (List.map snd gs)).
Proof.
  induction gs as [|[key' g] gs IH]; simpl.
  - reflexivity.
  - destruct (String.eqb key key'); simpl.
    + rewrite <- app_assoc. simpl.
      symmetry. apply Permutation_cons_app. reflexivity.
    + rewrite IH. symmetry. apply Permutation_middle.
Qed.

Lemma groupByKey_perm l : Permutation (concat (List.map snd (groupByKey l))) l.
Proof.
  unfold groupByKey.
  assert (H : forall gs,
             Permutation
               (concat (List.map snd
                  (fold_left (fun gs k => addToGroup (Kana.groupKey k) k gs) l gs)))
               (concat (List.map snd gs) ++ l)).
  { induction l as [|k l IH]; intros gs; simpl.
    - rewrite app_nil_r. reflexivity.
    - rewrite IH, addToGroup_perm. simpl. apply Permutation_middle. }
  rewrite H. reflexivity.
Qed.

Lemma insertGroup_perm e l :
  Permutation (concat (List.map snd (insertGroup e l)))
              (snd e ++ concat (List.map snd l)).
Proof.
  induction l as [|s l IH]; simpl; [reflexivity|].
  destruct (Qltb (groupBottom e) (groupBottom s)); simpl; [|reflexivity].
  rewrite IH, !app_assoc. apply Permutation_app_tail, Permutation_app_comm.
Qed.

Lemma sortGroups_perm l :
  Permutation (concat (List.map snd (sortGroups l))) (concat (List.map snd l)).
Proof.
  unfold sortGroups. induction l as [|e l IH]; simpl; [reflexivity|].
  rewrite insertGroup_perm, IH. reflexivity.
Qed.

Lemma settle_perm speed gs updated :
  Permutation (List.map sameBlock (fold_left (settleGroup speed) gs updated))
              (List.map sameBlock (updated ++ concat (List.map snd gs))).
Proof.
  revert updated. induction gs as [|g gs IH]; intros updated; simpl.
  - rewrite app_nil_r. reflexivity.
  - rewrite IH. unfold settleGroup. rewrite <- app_assoc, !List.map_app.
    rewrite (sameBlock_map_withY (fun k => _)). reflexivity.
Qed.

Lemma gravity_perm speed stacked :
  Permutation (List.map sameBlock (gravity speed stacked)) (List.map sameBlock stacked).
Proof.
  unfold gravity. rewrite settle_perm. simpl. apply Permutation_map.
  rewrite sortGroups_perm. apply groupByKey_perm.
Qed.

Lemma fallGroup_perm speed bp f group :
  Permutation
    (List.map sameBlock
       (nextActiveKana (fallGroup speed bp f group)
          ++ nextStackedKana (fallGroup speed bp f group)))
    (List.map sameBlock (nextActiveKana f ++ nextStackedKana f ++ group)).
Proof.
  destruct (collides speed (nextStackedKana f) group) eqn:Hc.
  - destruct (fallGroup_landing speed bp f group Hc) as (Ha & Hs & _).
    rewrite Ha, Hs, !List.map_app, sameBlock_map_landedAt. reflexivity.
  - unfold fallGroup. rewrite Hc. simpl. rewrite <- app_assoc, !List.map_app.
    rewrite (sameBlock_map_withY (fun k => _)).
    apply Permutation_app_head, Permutation_app_comm.
Qed.

Lemma fall_perm speed bp groups f :
  Permutation
    (List.map sameBlock
       (nextActiveKana (fold_left (fallGroup speed bp) groups f)
          ++ nextStackedKana (fold_left (fallGroup speed bp) groups f)))
    (List.map sameBlock (nextActiveKana f ++ nextStackedKana f ++ concat groups)).
Proof.
  revert f. induction groups as [|g groups IH]; intros f; simpl.
  - rewrite app_nil_r. reflexivity.
  - rewrite IH, !List.map_app.
    pose proof (fallGroup_perm speed bp f g) as Hg. rewrite !List.map_app in Hg.
    rewrite app_assoc, Hg, <- !app_assoc. reflexivity.
Qed.

(** X7.  A frame neither creates nor destroys a block: the blocks on the
    board after the physics of a frame are those before it, each once,
    differing at most in their height and landing stamp. *)
Theorem frame_conserves_blocks (bp : Z) (prev : Game.t) :
  Permutation (List.map sameBlock (allVisible (physics bp prev)))
              (List.map sameBlock (allVisible prev)).
Proof.
  unfold allVisible, physics. simpl.
  set (f := fallStep (currentSpeed prev) bp prev).
  rewrite List.map_app, gravity_perm, <- List.map_app.
  subst f. unfold fallStep. rewrite fall_perm. simpl.
  rewrite !List.map_app. rewrite Permutation_app_comm. apply Permutation_app_tail.
  apply Permutation_map. apply groupByKey_perm.
Qed.
End ConservationProofs.

Section FrameProofs.
Context {K : Constants}.

Lemma gravity_length speed stacked : length (gravity speed stacked) = length stacked.
Proof.
  rewrite <- (List.length_map sameBlock (gravity speed stacked)).
  rewrite <- (List.length_map sameBlock stacked).
  apply Permutation_length, gravity_perm.
Qed.

Lemma land_score row bp group f :
  0 <= fallScore f ->
  fallScore (fold_left (landMember row bp) group f)
  = Z.max 0 (fallScore f - 5 * Z.of_nat (length group)).
Proof.
  revert f. induction group as [|k group IH]; intros f Hf.
  - simpl. lia.
  - cbn [fold_left]. rewrite IH by (simpl; lia).
    cbn [landMember fallScore length]. lia.
Qed.

Lemma fallGroup_score speed bp f group :
  0 <= fallScore f ->
  (length (nextStackedKana f) <= length (nextStackedKana (fallGroup speed bp f group)))%nat
  /\ fallScore (fallGroup speed bp f group)
     = Z.max 0 (fallScore f
                - 5 * (Z.of_nat (length (nextStackedKana (fallGroup speed bp f group)))
                       - Z.of_nat (length (nextStackedKana f)))).
Proof.
  intros Hf. destruct (collides speed (nextStackedKana f) group) eqn:Hc.
  - destruct (fallGroup_landing speed bp f group Hc) as (_ & Hs & _).
    rewrite Hs, List.length_app, List.length_map. split; [lia|].
    unfold fallGroup. rewrite Hc. cbn [fallScore]. rewrite land_score by exact Hf. lia.
  - unfold fallGroup. rewrite Hc. simpl. split; lia.
Qed.

Lemma fall_score speed bp groups f :
  0 <= fallScore f ->
  (length (nextStackedKana f)
   <= length (nextStackedKana (fold_left (fallGroup speed bp) groups f)))%nat
  /\ fallScore (fold_left (fallGroup speed bp) groups f)
     = Z.max 0 (fallScore f
                - 5 * (Z.of_nat (length (nextStackedKana
                                           (fold_left (fallGroup speed bp) groups f)))
                       - Z.of_nat (length (nextStackedKana f)))).
Proof.
  revert f. induction groups as [|g groups IH]; intros f Hf.
  - simpl. split; lia.
  - cbn [fold_left]. destruct (fallGroup_score speed bp f g Hf) as [Hl Hs].
    destruct (IH (fallGroup speed bp f g)) as [Hl' Hs']; [rewrite Hs; lia|].
    split; [lia|]. rewrite Hs', Hs. lia.
Qed.

(** X8.  Each block that lands in a frame costs five points, the score
    never falling below zero: the score after the frame is the score
    before it less five times the growth of the stack, or zero. *)
Theorem landing_costs_five (bp : Z) (prev : Game.t) :
  0 <= Game.score prev ->
  (length (Game.stackedKana prev) <= length (Game.stackedKana (physics bp prev)))%nat
  /\ Game.score (physics bp prev)
     = Z.max 0 (Game.score prev
                - 5 * (Z.of_nat (length (Game.stackedKana (physics bp prev)))
                       - Z.of_nat (length (Game.stackedKana prev)))).
Proof.
  intros Hs. unfold physics. cbn [Game.score Game.stackedKana].
  rewrite gravity_length. unfold fallStep.
  destruct (fall_score (currentSpeed prev) bp
              (List.map snd (groupByKey (Game.activeKana prev)))
              (mkFall [] (Game.stackedKana prev) false false (Game.score prev)) Hs)
    as [Hl He].
  cbn [nextStackedKana fallScore] in Hl, He. split; [exact Hl|]. rewrite He. lia.
Qed.

Lemma fallGroup_active speed bp f group k' :
  In k' (nextActiveKana (fallGroup speed bp f group)) ->
  In k' (nextActiveKana f)
  \/ exists k, In k group /\ k' = Kana.withY k (Kana.y k + speed).
Proof.
  destruct (collides speed (nextStackedKana f) group) eqn:Hc.
  - destruct (fallGroup_landing speed bp f group Hc) as (Ha & _). rewrite Ha. tauto.
  - unfold fallGroup. rewrite Hc. cbn [nextActiveKana]. rewrite in_app_iff, in_map_iff.
    intros [H|(k & <- & Hk)]; [tauto|]. right. exists k. tauto.
Qed.

Lemma fall_active speed bp groups f k' :
  In k' (nextActiveKana (fold_left (fallGroup speed bp) groups f)) ->
  In k' (nextActiveKana f)
  \/ exists k, In k (concat groups) /\ k' = Kana.withY k (Kana.y k + speed).
Proof.
  revert f. induction groups as [|g groups IH]; intros f H.
  - left. exact H.
  - cbn [fold_left] in H. destruct (IH _ H) as [H1|(k & Hk & ->)].
    + destruct (fallGroup_active _ _ _ _ _ H1) as [H2|(k & Hk & ->)]; [tauto|].
      right. exists k. split; [|reflexivity]. simpl. apply in_or_app. tauto.
    + right. exists k. split; [|reflexivity]. simpl. apply in_or_app. tauto.
Qed.

Lemma groupByKey_In l k : In k (concat (List.map snd (groupByKey l))) <-> In k l.
Proof.
  split; apply Permutation_in; [|symmetry]; apply groupByKey_perm.
Qed.

Lemma groupKey_withY k y : Kana.groupKey (Kana.withY k y) = Kana.groupKey k.
Proof. reflexivity. Qed.

(** X9.  The blocks still falling after a frame are falling blocks of
    before it, each lowered by exactly the current speed; none is new and
    none comes back from the stack.  Hence fragments under one group key
    that were level before the frame are level after it. *)
Theorem falling_blocks_descend (bp : Z) (prev : Game.t) :
  Forall (fun k' => exists k, In k (Game.activeKana prev)
                              /\ k' = Kana.withY k (Kana.y k + currentSpeed prev))
         (Game.activeKana (physics bp prev))
  /\ (cohesive (Game.activeKana prev) -> cohesive (Game.activeKana (physics bp prev))).
Proof.
  assert (Hfrom : forall k', In k' (Game.activeKana (physics bp prev)) ->
                    exists k, In k (Game.activeKana prev)
                              /\ k' = Kana.withY k (Kana.y k + currentSpeed prev)).
  { intros k' Hk'. unfold physics, fallStep in Hk'. cbn [Game.activeKana] in Hk'.
    destruct (fall_active _ _ _ _ _ Hk') as [[]|(k & Hk & ->)].
    exists k. split; [|reflexivity]. apply groupByKey_In. exact Hk. }
  split.
  - apply List.Forall_forall. exact Hfrom.
  - intros Hco a' b' Ha' Hb' Hkey.
    destruct (Hfrom a' Ha') as (a & Ha & ->). destruct (Hfrom b' Hb') as (b & Hb & ->).
    rewrite !groupKey_withY in Hkey. cbn [Kana.withY Kana.y].
    rewrite (Hco a b Ha Hb Hkey). reflexivity.
Qed.

Lemma settle_from speed gs updated k' :
  In k' (fold_left (settleGroup speed) gs updated) ->
  In k' updated
  \/ exists k d, In k (concat (List.map snd gs))
                 /\ (0 <= d <= Qmax 0 speed)%Q /\ k' = Kana.withY k (Kana.y k + d).
Proof.
  revert updated. induction gs as [|g gs IH]; intros updated H.
  - left. exact H.
  - cbn [fold_left] in H. destruct (IH _ H) as [H1|(k & d & Hk & Hd & ->)].
    + unfold settleGroup in H1. rewrite in_app_iff, in_map_iff in H1.
      destruct H1 as [H1|(k & <- & Hk)]; [tauto|]. right.
      eexists k, _. split; [simpl; apply in_or_app; tauto|]. split; [|reflexivity].
      split; [apply Q.le_max_l|]. apply Q.max_le_compat_l.
      destruct (fold_left _ (snd g) None); [apply Q.le_min_r|apply Qle_refl].
    + right. exists k, d. split; [simpl; apply in_or_app; tauto|]. tauto.
Qed.

(** X10.  The gravity step only lowers: every block of the settled stack
    is a block of the stack it started from, moved down by some distance
    between zero and the current speed (by nothing when that speed is not
    positive), and otherwise unchanged. *)
Theorem gravity_only_lowers (speed : Q) (stacked : list Kana.t) :
  Forall (fun k' => exists k d, In k stacked /\ (0 <= d <= Qmax 0 speed)%Q
                                /\ k' = Kana.withY k (Kana.y k + d))
         (gravity speed stacked).
Proof.
  apply List.Forall_forall. intros k' Hk'. unfold gravity in Hk'.
  destruct (settle_from _ _ _ _ Hk') as [[]|(k & d & Hk & Hd & ->)].
  exists k, d. split; [|tauto].
  apply groupByKey_In. revert Hk. apply Permutation_in, sortGroups_perm.
Qed.
End FrameProofs.

Lemma landing_costs_five_witness :
  Game.score
    (@physics Sample.steep 0
       (Sample.game words [Sample.fragment "b0" Sample.neko "g1" 0 2 0 300 None;
                           Sample.fragment "b1" Sample.neko "g1" 1 2 1 300 None] [] 3))
  = 90.
Proof.
  destruct (@landing_costs_five Sample.steep 0
              (Sample.game words [Sample.fragment "b0" Sample.neko "g1" 0 2 0 300 None;
                                  Sample.fragment "b1" Sample.neko "g1" 1 2 1 300 None]
                 [] 3)) as [_ H].
  - cbn. lia.
  - rewrite H. vm_compute. reflexivity.
Defined.

Section GroupProofs.
Context {K : Constants}.

Lemma addToGroup_keys key k gs key' :
  In key' (List.map fst (addToGroup key k gs)) ->
  key' = key \/ In key' (List.map fst gs).
Proof.
  induction gs as [|[key0 g] gs IH]; simpl.
  - intros [<-|[]]. tauto.
  - destruct (String.eqb key key0); simpl; [tauto|].
    intros [H|H]; [tauto|]. destruct (IH H); tauto.
Qed.

Lemma addToGroup_NoDup key k gs :
  List.NoDup (List.map fst gs) -> List.NoDup (List.map fst (addToGroup key k gs)).
Proof.
  induction gs as [|[key0 g] gs IH]; simpl; intros H.
  - constructor; [intros []|constructor].
  - destruct (String.eqb key key0) eqn:E; simpl; [exact H|].
    inversion H as [|? ? Hn Hrest]; subst. constructor; [|apply IH; exact Hrest].
    intros Hin. destruct (addToGroup_keys _ _ _ _ Hin) as [->|Hin']; [|tauto].
    rewrite String.eqb_refl in E. discriminate E.
Qed.

Lemma addToGroup_members key k gs key' g' x :
  In (key', g') (addToGroup key k gs) -> In x g' ->
  (x = k /\ key' = key) \/ exists g, In (key', g) gs /\ In x g.
Proof.
  induction gs as [|[key0 g] gs IH]; simpl.
  - intros [H|[]] Hx. injection H as <- <-. destruct Hx as [<-|[]]. tauto.
  - destruct (String.eqb key key0) eqn:E; simpl.
    + intros [H|H] Hx.
      * injection H as <- <-. apply String.eqb_eq in E. subst key0.
        apply in_app_iff in Hx. destruct Hx as [Hx|[<-|[]]]; [|tauto].
        right. exists g. tauto.
      * right. exists g'. tauto.
    + intros [H|H] Hx.
      * injection H as <- <-. right. exists g. tauto.
      * destruct (IH H Hx) as [?|(g0 & ? & ?)]; [tauto|]. right. exists g0. tauto.
Qed.

(** The groups of [groupByKey] bear distinct keys, and each holds blocks of
    its key only. *)
Lemma groupByKey_keys l :
  List.NoDup (List.map fst (groupByKey l))
  /\ forall key g k, In (key, g) (groupByKey l) -> In k g -> Kana.groupKey k = key.
Proof.
  unfold groupByKey.
  assert (H : forall gs,
             List.NoDup (List.map fst gs) ->
             (forall key g k, In (key, g) gs -> In k g -> Kana.groupKey k = key) ->
             List.NoDup (List.map fst
                (fold_left (fun gs k => addToGroup (Kana.groupKey k) k gs) l gs))
             /\ forall key g k,
                  In (key, g) (fold_left (fun gs k => addToGroup (Kana.groupKey k) k gs) l gs) ->
                  In k g -> Kana.groupKey k = key).
  { induction l as [|x l IH]; intros gs Hn Hm; simpl; [tauto|].
    apply IH; [apply addToGroup_NoDup; exact Hn|].
    intros key g k Hin Hk.
    destruct (addToGroup_members _ _ _ _ _ _ Hin Hk) as [[-> ->]|(g0 & Hg0 & Hk0)];
      [reflexivity|]. eapply Hm; eassumption. }
  apply H; [constructor|]. intros key g k [].
Qed.

Lemma insertGroup_permutation e l : Permutation (insertGroup e l) (e :: l).
Proof.
  induction l as [|s l IH]; simpl; [reflexivity|].
  destruct (Qltb (groupBottom e) (groupBottom s)); [|reflexivity].
  rewrite IH. apply perm_swap.
Qed.

Lemma sortGroups_permutation l : Permutation (sortGroups l) l.
Proof.
  unfold sortGroups. induction l as [|e l IH]; simpl; [reflexivity|].
  rewrite insertGroup_permutation, IH. reflexivity.
Qed.

Lemma settle_cohesive speed gs updated :
  List.NoDup (List.map fst gs) ->
  (forall key g k, In (key, g) gs -> In k g -> Kana.groupKey k = key) ->
  (forall key g a b, In (key, g) gs -> In a g -> In b g -> Kana.y a = Kana.y b) ->
  (forall u, In u updated -> ~ In (Kana.groupKey u) (List.map fst gs)) ->
  cohesive updated ->
  cohesive (fold_left (settleGroup speed) gs updated).
Proof.
  revert updated. induction gs as [|[key g] gs IH]; intros updated Hn Hm Hy Hu Hco.
  - exact Hco.
  - cbn [fold_left]. inversion Hn as [|? ? Hkey Hrest]; subst.
    assert (Hnew : forall k', In k' (settleGroup speed updated (key, g)) ->
              (In k' updated)
              \/ exists k, In k g
                   /\ k' = Kana.withY k
                        (Kana.y k
                         + Qmax 0 (match fold_left
                                           (fun m kana => minInf m (fallDistance updated kana))
                                           g None with
                                   | Some d => Qmin d speed
                                   | None => speed
                                   end))).
    { intros k' Hk'. unfold settleGroup in Hk'. rewrite in_app_iff, in_map_iff in Hk'.
      destruct Hk' as [?|(k & <- & Hk)]; [tauto|]. right. exists k. tauto. }
    apply IH.
    + exact Hrest.
    + intros key' g' k Hin. apply Hm. right. exact Hin.
    + intros key' g' a b Hin. apply (Hy key' g'). right. exact Hin.
    + intros u Hin Hk. destruct (Hnew u Hin) as [Hold|(k & Hkg & ->)].
      * apply (Hu u Hold). right. exact Hk.
      * rewrite groupKey_withY, (Hm key g k) in Hk by (simpl; tauto). tauto.
    + intros a' b' Ha' Hb' Hsame.
      destruct (Hnew a' Ha') as [Ha|(a & Ha & ->)];
        destruct (Hnew b' Hb') as [Hb|(b & Hb & ->)].
      * apply Hco; assumption.
      * exfalso. apply (Hu a' Ha). left. cbn [fst]. rewrite Hsame, groupKey_withY.
        symmetry. apply (Hm key g b); simpl; tauto.
      * exfalso. apply (Hu b' Hb). left. cbn [fst]. rewrite <- Hsame, groupKey_withY.
        symmetry. apply (Hm key g a); simpl; tauto.
      * cbn [Kana.withY Kana.y]. rewrite (Hy key g a b) by (simpl; tauto). reflexivity.
Qed.

(** X11.  A stacked group sinks as one: when the stacked blocks under each
    group key are level, they are level again after the gravity step. *)
Theorem stacked_groups_stay_level (speed : Q) (stacked : list Kana.t) :
  cohesive stacked -> cohesive (gravity speed stacked).
Proof.
  intros Hco. unfold gravity.
  destruct (groupByKey_keys stacked) as [Hn Hm].
  assert (Hin : forall key g, In (key, g) (sortGroups (groupByKey stacked)) ->
                  In (key, g) (groupByKey stacked)).
  { intros key g. apply Permutation_in, sortGroups_permutation. }
  apply settle_cohesive.
  - eapply Permutation_NoDup; [|exact Hn].
    apply Permutation_map. symmetry. apply sortGroups_permutation.
  - intros key g k H. apply Hm, Hin, H.
  - intros key g a b H Ha Hb. apply Hco.
    + apply groupByKey_In, in_concat. exists g. split; [|exact Ha].
      apply in_map_iff. exists (key, g). split; [reflexivity|apply Hin, H].
    + apply groupByKey_In, in_concat. exists g. split; [|exact Hb].
      apply in_map_iff. exists (key, g). split; [reflexivity|apply Hin, H].
    + rewrite (Hm key g a), (Hm key g b) by auto. reflexivity.
  - intros u [].
  - intros a b [].
Qed.
End GroupProofs.

Lemma stacked_groups_stay_level_witness :
  cohesive [Sample.simple "s0" "a" 0 540 (Some 0);
            Sample.fragment "b0" Sample.neko "g1" 0 2 0 300 (Some 0);
            Sample.fragment "b1" Sample.neko "g1" 1 2 1 300 (Some 0)]
  /\ cohesive
       (@gravity Sample.board 300
          [Sample.simple "s0" "a" 0 540 (Some 0);
           Sample.fragment "b0" Sample.neko "g1" 0 2 0 300 (Some 0);
           Sample.fragment "b1" Sample.neko "g1" 1 2 1 300 (Some 0)]).
Proof.
  assert (H : cohesive [Sample.simple "s0" "a" 0 540 (Some 0);
                        Sample.fragment "b0" Sample.neko "g1" 0 2 0 300 (Some 0);
                        Sample.fragment "b1" Sample.neko "g1" 1 2 1 300 (Some 0)]).
  { intros a b Ha Hb Hk. simpl in Ha, Hb.
    destruct Ha as [<-|[<-|[<-|[]]]]; destruct Hb as [<-|[<-|[<-|[]]]];
      try reflexivity; vm_compute in Hk; discriminate Hk. }
  split; [exact H|].
  apply (@stacked_groups_stay_level Sample.board). exact H.
Defined.

(** ** The landing stamps *)

Section StampProofs.
Context {K : Constants}.

(** What one call of [spawnKana] that returns does to the board. *)
Lemma spawnKana_blocks g srs s r g' :
  spawnKana g srs s r = Some g' ->
  Game.stackedKana g' = Game.stackedKana g
  /\ exists blocks,
       Game.activeKana g' = Game.activeKana g ++ blocks
       /\ Forall (fun k => Kana.stackedAt k = None) blocks.
Proof.
  unfold spawnKana. intros H.
  destruct (spawnOutcome g srs s r) as [| |blocks] eqn:E; try discriminate H;
    injection H as <-.
  - split; [reflexivity|]. exists []. rewrite app_nil_r. split; [reflexivity|constructor].
  - split; [reflexivity|]. exists blocks. split; [reflexivity|].
    unfold spawnOutcome in E.
    destruct (chooseEntry g srs s r) as [c|]; [|discriminate E].
    destruct (COLUMNS - Z.of_nat (length (cText c)) <? 0); [discriminate E|].
    destruct (hasCollision _ _); [discriminate E|]. injection E as <-.
    apply List.Forall_forall. intros k Hk. apply In_nth_error in Hk. destruct Hk as [i Hi].
    apply newKanaList_nth in Hi. tauto.
Qed.

(** The game state after a frame: that before it, or the outcome of the
    physics on it, a block possibly spawned and the freeze flag possibly
    cleared first. *)
Lemma update_cases time now r a :
  let g := App.gameState a in
  let a' := update time now r a in
  App.wordSRS a' = App.wordSRS a
  /\ App.sessionNumber a' = App.sessionNumber a
  /\ App.blocksProcessed a' = App.blocksProcessed a
  /\ App.lastTime a' = Some time
  /\ (App.gameState a' = g /\ App.spawnTimer a' = App.spawnTimer a
      \/ Game.isActive g = true /\ Game.isGameOver g = false /\ Game.isPaused g = false
         /\ (Game.frozenUntil g = 0 \/ Game.frozenUntil g <= now)
         /\ exists g1,
              Game.activeKana g1 = Game.activeKana g
              /\ Game.stackedKana g1 = Game.stackedKana g
              /\ Game.score g1 = Game.score g
              /\ Game.streak g1 = Game.streak g
              /\ (App.gameState a' = g1
                  \/ App.gameState a' = physics (App.blocksProcessed a) g1
                  \/ exists g2,
                       spawnKana g1 (App.wordSRS a) (App.sessionNumber a) r = Some g2
                       /\ App.gameState a' = physics (App.blocksProcessed a) g2)).
Proof.
  cbv zeta. unfold update.
  destruct (App.lastTime a) as [last|]; [|simpl; tauto].
  destruct (noLastTime (Some last)); [simpl; tauto|].
  destruct (Game.isActive (App.gameState a)) eqn:Ea; [|simpl; tauto].
  destruct (Game.isGameOver (App.gameState a)) eqn:Eo; [simpl; tauto|].
  destruct (Game.isPaused (App.gameState a)) eqn:Ep; [simpl; tauto|].
  cbn [negb orb].
  destruct (negb (Game.frozenUntil (App.gameState a) =? 0)
            && (now <? Game.frozenUntil (App.gameState a))) eqn:Ef; [simpl; tauto|].
  assert (Hf : Game.frozenUntil (App.gameState a) = 0
               \/ Game.frozenUntil (App.gameState a) <= now).
  { apply andb_false_iff in Ef. destruct Ef as [Ef|Ef].
    - left. apply negb_false_iff, Z.eqb_eq in Ef. exact Ef.
    - right. apply Z.ltb_ge in Ef. exact Ef. }
  set (g1 := if Game.isFreezeAbilityActive (App.gameState a)
             then Game.withFreezeAbility (App.gameState a) false
             else App.gameState a).
  assert (Hg1 : Game.activeKana g1 = Game.activeKana (App.gameState a)
                /\ Game.stackedKana g1 = Game.stackedKana (App.gameState a)
                /\ Game.score g1 = Game.score (App.gameState a)
                /\ Game.streak g1 = Game.streak (App.gameState a)).
  { subst g1. destruct (Game.isFreezeAbilityActive (App.gameState a)); simpl; tauto. }
  destruct Hg1 as (H1 & H2 & H3 & H4).
  destruct (Qltb _ _).
  - destruct (spawnKana g1 (App.wordSRS a) (App.sessionNumber a) r) as [g2|] eqn:E;
      cbn [App.wordSRS App.sessionNumber App.blocksProcessed App.lastTime App.gameState
           App.spawnTimer];
      repeat (split; [reflexivity|]); right; repeat (split; [first [reflexivity|exact Hf]|]);
      exists g1; repeat (split; [assumption|]).
    + right. right. exists g2. split; [exact E|reflexivity].
    + left. reflexivity.
  - cbn [App.wordSRS App.sessionNumber App.blocksProcessed App.lastTime App.gameState
         App.spawnTimer].
    repeat (split; [reflexivity|]). right. repeat (split; [first [reflexivity|exact Hf]|]).
    exists g1. repeat (split; [assumption|]). right. left. reflexivity.
Qed.

Section Landing.
Variables PA PS : Kana.t -> Prop.
Variable bp : Z.
Hypothesis PA_withY : forall k y, PA k -> PA (Kana.withY k y).
Hypothesis PS_withY : forall k y, PS k -> PS (Kana.withY k y).
Hypothesis PA_lands : forall k row, PA k -> PS (Kana.landedAt k row bp).

Lemma fallGroup_lands speed f group :
  Forall PA group -> Forall PA (nextActiveKana f) -> Forall PS (nextStackedKana f) ->
  Forall PA (nextActiveKana (fallGroup speed bp f group))
  /\ Forall PS (nextStackedKana (fallGroup speed bp f group)).
Proof.
  intros Hg Ha Hs. destruct (collides speed (nextStackedKana f) group) eqn:Hc.
  - destruct (fallGroup_landing speed bp f group Hc) as (Hact & Hst & _).
    rewrite Hact, Hst. split; [exact Ha|]. apply List.Forall_app. split; [exact Hs|].
    apply List.Forall_map. eapply List.Forall_impl; [|exact Hg].
    intros k Hk. apply PA_lands. exact Hk.
  - unfold fallGroup. rewrite Hc. cbn [nextActiveKana nextStackedKana].
    split; [|exact Hs]. apply List.Forall_app. split; [exact Ha|].
    apply List.Forall_map. eapply List.Forall_impl; [|exact Hg].
    intros k Hk. apply PA_withY. exact Hk.
Qed.

Lemma physics_lands prev :
  Forall PA (Game.activeKana prev) -> Forall PS (Game.stackedKana prev) ->
  Forall PA (Game.activeKana (physics bp prev))
  /\ Forall PS (Game.stackedKana (physics bp prev)).
Proof.
  intros Ha Hs. unfold physics. cbn [Game.activeKana Game.stackedKana].
  assert (H : forall gs f, Forall (Forall PA) gs ->
                Forall PA (nextActiveKana f) -> Forall PS (nextStackedKana f) ->
                Forall PA (nextActiveKana
                             (fold_left (fallGroup (currentSpeed prev) bp) gs f))
                /\ Forall PS (nextStackedKana
                                (fold_left (fallGroup (currentSpeed prev) bp) gs f))).
  { induction gs as [|g gs IH]; intros f Hgs Hfa Hfs; simpl; [tauto|].
    inversion Hgs as [|? ? Hg Hrest]; subst.
    destruct (fallGroup_lands (currentSpeed prev) f g Hg Hfa Hfs) as [Hfa' Hfs'].
    apply IH; assumption. }
  destruct (H (List.map snd (groupByKey (Game.activeKana prev)))
              (mkFall [] (Game.stackedKana prev) false false (Game.score prev)))
    as [Hfa Hfs].
  - apply List.Forall_map. apply (groupByKey_all PA). exact Ha.
  - constructor.
  - exact Hs.
  - split; [exact Hfa|]. apply (gravity_all PS PS_withY). exact Hfs.
Qed.
End Landing.

(** X12.  In every reachable state the counter of processed blocks is not
    negative, no falling block bears a landing stamp, and every stacked
    block bears one between zero and the counter: the count of blocks
    processed since a landing, from which the confidence and the colour of
    a stacked block are computed, is never negative. *)
Theorem landing_stamps_bounded (a : App.t) :
  Reachable a ->
  0 <= App.blocksProcessed a
  /\ Forall (fun k => Kana.stackedAt k = None) (Game.activeKana (App.gameState a))
  /\ Forall (fun k => exists n, Kana.stackedAt k = Some n
                                /\ 0 <= n <= App.blocksProcessed a)
            (Game.stackedKana (App.gameState a)).
Proof.
  induction 1 as [m srs s|a m d _ IH|a time now r _ IH|a val now _ IH|a g' lt _ IH Ha Hs].
  - cbn. split; [lia|]. split; constructor.
  - cbn. split; [tauto|]. split; constructor.
  - destruct IH as (Hbp & Hact & Hst).
    assert (Hphys : forall g,
              Forall (fun k => Kana.stackedAt k = None) (Game.activeKana g) ->
              Forall (fun k => exists n, Kana.stackedAt k = Some n
                                         /\ 0 <= n <= App.blocksProcessed a)
                     (Game.stackedKana g) ->
              Forall (fun k => Kana.stackedAt k = None)
                     (Game.activeKana (physics (App.blocksProcessed a) g))
              /\ Forall (fun k => exists n, Kana.stackedAt k = Some n
                                            /\ 0 <= n <= App.blocksProcessed a)
                        (Game.stackedKana (physics (App.blocksProcessed a) g))).
    { intros g. apply physics_lands.
      - intros k y Hk. exact Hk.
      - intros k y Hk. exact Hk.
      - intros k row _. exists (App.blocksProcessed a). cbn. split; [reflexivity|lia]. }
    pose proof (update_cases time now r a) as Hu. cbv zeta in Hu.
    destruct Hu as (_ & _ & Hb & _ & Hg). rewrite Hb. split; [exact Hbp|].
    destruct Hg as [[-> _]|(_ & _ & _ & _ & g1 & H1 & H2 & _ & _ & Hg)]; [tauto|].
    destruct Hg as [->|[->|(g2 & Hsp & ->)]].
    + rewrite H1, H2. tauto.
    + apply Hphys; [rewrite H1|rewrite H2]; assumption.
    + destruct (spawnKana_blocks _ _ _ _ _ Hsp) as (Hs2 & blocks & Ha2 & Hnew).
      apply Hphys.
      * rewrite Ha2, H1. apply List.Forall_app. tauto.
      * rewrite Hs2, H2. exact Hst.
  - destruct IH as (Hbp & Hact & Hst). unfold processInput.
    destruct (findMatch val (App.gameState a)) as [m|]; [|tauto].
    destruct (updatesSrs m); cbn [App.gameState App.blocksProcessed App.withGame
                                   applyClear Game.activeKana Game.stackedKana].
    + split; [lia|]. split; [apply keep_all; exact Hact|]. apply keep_all.
      eapply List.Forall_impl; [|exact Hst]. intros k (n & Hn & Hle). exists n.
      split; [exact Hn|lia].
    + split; [exact Hbp|]. split; apply keep_all; assumption.
  - cbn [App.gameState App.blocksProcessed]. rewrite Ha, Hs. exact IH.
Qed.

Lemma fallGroup_grows speed bp f group :
  (length (nextStackedKana f) <= length (nextStackedKana (fallGroup speed bp f group)))%nat
  /\ (length (nextStackedKana (fallGroup speed bp f group)) = length (nextStackedKana f) ->
      triggeredGameOver (fallGroup speed bp f group) = triggeredGameOver f
      /\ streakReset (fallGroup speed bp f group) = streakReset f
      /\ fallScore (fallGroup speed bp f group) = fallScore f).
Proof.
  destruct (collides speed (nextStackedKana f) group) eqn:Hc.
  - destruct (fallGroup_landing speed bp f group Hc) as (_ & Hs & _).
    rewrite Hs, List.length_app, List.length_map. split; [lia|]. intros Hl.
    destruct group; [discriminate Hc|]. simpl in Hl. lia.
  - unfold fallGroup. rewrite Hc. simpl. split; [lia|tauto].
Qed.

Lemma fall_grows speed bp groups f :
  (length (nextStackedKana f)
   <= length (nextStackedKana (fold_left (fallGroup speed bp) groups f)))%nat
  /\ (length (nextStackedKana (fold_left (fallGroup speed bp) groups f))
      = length (nextStackedKana f) ->
      triggeredGameOver (fold_left (fallGroup speed bp) groups f) = triggeredGameOver f
      /\ streakReset (fold_left (fallGroup speed bp) groups f) = streakReset f
      /\ fallScore (fold_left (fallGroup speed bp) groups f) = fallScore f).
Proof.
  revert f. induction groups as [|g groups IH]; intros f.
  - simpl. split; [lia|tauto].
  - cbn [fold_left]. destruct (fallGroup_grows speed bp f g) as [Hl Hq].
    destruct (IH (fallGroup speed bp f g)) as [Hl' Hq']. split; [lia|]. intros He.
    destruct Hq' as (H1 & H2 & H3); [lia|]. destruct Hq as (H4 & H5 & H6); [lia|].
    rewrite H1, H2, H3. tauto.
Qed.

(** X13.  Only a landing breaks a streak, ends the game or costs points:
    a frame after which the stack holds as many blocks as before leaves
    the streak as it is, the game running and the score untouched (a
    negative score apart, which becomes zero). *)
Theorem quiet_frame_keeps_streak (bp : Z) (prev : Game.t) :
  length (Game.stackedKana (physics bp prev)) = length (Game.stackedKana prev) ->
  Game.streak (physics bp prev) = Game.streak prev
  /\ Game.isGameOver (physics bp prev) = false
  /\ Game.isActive (physics bp prev) = true
  /\ Game.score (physics bp prev) = Z.max 0 (Game.score prev).
Proof.
  unfold physics. cbn [Game.stackedKana Game.streak Game.isGameOver Game.isActive Game.score].
  rewrite gravity_length. unfold fallStep. intros Hl.
  destruct (fall_grows (currentSpeed prev) bp
              (List.map snd (groupByKey (Game.activeKana prev)))
              (mkFall [] (Game.stackedKana prev) false false (Game.score prev)))
    as [_ Hq].
  destruct (Hq Hl) as (H1 & H2 & H3). rewrite H1, H2, H3. cbn. tauto.
Qed.
End StampProofs.

Lemma landing_stamps_bounded_witness :
  Forall (fun k => exists n, Kana.stackedAt k = Some n
                             /\ 0 <= n <= App.blocksProcessed Sample.played)
         (Game.stackedKana (App.gameState Sample.played)).
Proof.
  apply (@landing_stamps_bounded Sample.steep Sample.played played_reachable).
Defined.

Lemma quiet_frame_keeps_streak_witness :
  Game.streak
    (@physics Sample.board 0
       (Sample.game hiragana [Sample.simple "b0" "a" 0 100 None]
                    [Sample.simple "s0" "ka" 0 540 (Some 0)] 3))
  = 3.
Proof.
  apply (@quiet_frame_keeps_streak Sample.board 0
           (Sample.game hiragana [Sample.simple "b0" "a" 0 100 None]
                        [Sample.simple "s0" "ka" 0 540 (Some 0)] 3)).
  vm_compute. reflexivity.
Defined.

(** ** Frames that leave the board alone *)

Section IdleProofs.
Context {K : Constants}.

(** Frames taken while the game is paused, stopped or over, or while the
    clock is short of [frozenUntil], change neither the game state nor the
    spawn timer. *)
Lemma idle_frames frames :
  forall a,
    (Game.isPaused (App.gameState a) = true
     \/ Game.isActive (App.gameState a) = false
     \/ Game.isGameOver (App.gameState a) = true
     \/ (Game.frozenUntil (App.gameState a) <> 0
         /\ Forall (fun f => snd (fst f) < Game.frozenUntil (App.gameState a)) frames)) ->
    App.gameState (updates frames a) = App.gameState a
    /\ App.spawnTimer (updates frames a) = App.spawnTimer a
    /\ App.wordSRS (updates frames a) = App.wordSRS a
    /\ App.blocksProcessed (updates frames a) = App.blocksProcessed a.
Proof.
  unfold updates. induction frames as [|[[time now] r] frames IH]; intros a Hidle.
  - simpl. tauto.
  - cbn [fold_left fst snd].
    pose proof (update_cases time now r a) as Hu. cbv zeta in Hu.
    destruct Hu as (Hsrs & _ & Hbp & _ & Hg).
    assert (Hsame : App.gameState (update time now r a) = App.gameState a
                    /\ App.spawnTimer (update time now r a) = App.spawnTimer a).
    { destruct Hg as [Hg|(Ha & Ho & Hp & Hf & _)]; [exact Hg|]. exfalso.
      destruct Hidle as [H|[H|[H|[Hnz Hall]]]]; try congruence.
      inversion Hall as [|? ? Hnow _]; subst. cbn [fst snd] in Hnow. lia. }
    destruct Hsame as [Hgs Hst].
    destruct (IH (update time now r a)) as (H1 & H2 & H3 & H4).
    + rewrite Hgs. destruct Hidle as [H|[H|[H|[Hnz Hall]]]]; try tauto.
      right. right. right. split; [exact Hnz|]. inversion Hall; assumption.
    + rewrite H1, H2, H3, H4, Hgs, Hst, Hsrs, Hbp. tauto.
Qed.



(** X15.  The freeze ability, when the button accepts the click, costs
    150 points, leaves a score that is not negative and the blocks where
    they are, and holds the board and the spawn timer through every frame
    whose clock is short of ten seconds later. *)
Theorem freeze_holds_the_board (now : Z) (a : App.t) (frames : list (Q * Z * Rolls.t)) :
  Game.isActive (App.gameState a) = true ->
  Game.isGameOver (App.gameState a) = false ->
  freezeDisabled now (App.gameState a) = false ->
  0 <= now ->
  Forall (fun f => snd (fst f) < now + 10000) frames ->
  Game.score (App.gameState (freezeAbility now a)) = Game.score (App.gameState a) - 150
  /\ 0 <= Game.score (App.gameState (freezeAbility now a))
  /\ allVisible (App.gameState (freezeAbility now a)) = allVisible (App.gameState a)
  /\ App.gameState (updates frames (freezeAbility now a))
     = App.gameState (freezeAbility now a)
  /\ App.spawnTimer (updates frames (freezeAbility now a)) = App.spawnTimer a.
Proof.
  intros Ha Ho Hd Hnow Hfr. unfold freezeAbility. rewrite Ha, Ho, Hd.
  unfold freezeDisabled in Hd. apply orb_false_iff in Hd. destruct Hd as [Hd _].
  apply orb_false_iff in Hd. destruct Hd as [Hs Hp]. apply Z.ltb_ge in Hs.
  rewrite Hp. replace (150 <=? Game.score (App.gameState a)) with true
    by (symmetry; apply Z.leb_le; exact Hs).
  cbn [negb andb]. cbn [App.withGame App.gameState Game.score].
  split; [reflexivity|]. split; [lia|]. split; [reflexivity|].
  match goal with |- context [updates frames ?b] =>
    destruct (idle_frames frames b) as (Hg & Hst & _) end.
  { right. right. right. cbn [App.withGame App.gameState Game.frozenUntil].
    split; [lia|exact Hfr]. }
  split; [exact Hg|exact Hst].
Qed.

(** X16.  A clear grants three quarters of a second: after an input that
    matches a block, the board and the spawn timer are held through every
    frame whose clock is short of 750 ms later.  The clear sets the end of
    the hold whatever it was before, so a clear made while the freeze
    ability runs cuts the freeze short. *)
Theorem clear_grants_thinking_time (val : string) (now now0 : Z) (a : App.t) (m : Kana.t)
    (frames : list (Q * Z * Rolls.t)) :
  findMatch val (App.gameState a) = Some m ->
  0 <= now ->
  Forall (fun f => snd (fst f) < now + 750) frames ->
  App.gameState (updates frames (processInput val now a))
  = App.gameState (processInput val now a)
  /\ App.spawnTimer (updates frames (processInput val now a)) = App.spawnTimer a
  /\ Game.frozenUntil (App.gameState (processInput val now (freezeAbility now0 a)))
     = now + 750.
Proof.
  intros Hm Hnow Hfr.
  assert (Hfz : forall b, findMatch val (App.gameState b) = Some m ->
                  Game.frozenUntil (App.gameState (processInput val now b)) = now + 750
                  /\ App.spawnTimer (processInput val now b) = App.spawnTimer b).
  { intros b Hb. unfold processInput. rewrite Hb.
    destruct (updatesSrs m); split; reflexivity. }
  destruct (Hfz a Hm) as [Hf Hst].
  destruct (idle_frames frames (processInput val now a)) as (Hg & Hst' & _).
  { right. right. right. rewrite Hf. split; [lia|exact Hfr]. }
  split; [exact Hg|]. split; [rewrite Hst'; exact Hst|].
  apply Hfz. unfold freezeAbility.
  destruct (_ && _); [|exact Hm]. revert Hm. unfold findMatch, allVisible. simpl. tauto.
Qed.
End IdleProofs.


Lemma freeze_holds_the_board_witness :
  Game.score
    (App.gameState
       (freezeAbility 0
          (App.mk (Game.mk 200 true false false [Sample.simple "b0" "a" 0 100 None] []
                           [] hiragana slow 0 0 false) ∅ 1 0 (Some 900%Q) 0)))
  = 50
  /\ App.gameState
       (@updates Sample.board [(1000%Q, 5000, Sample.rolls)]
          (freezeAbility 0
             (App.mk (Game.mk 200 true false false [Sample.simple "b0" "a" 0 100 None] []
                              [] hiragana slow 0 0 false) ∅ 1 0 (Some 900%Q) 0)))
     = App.gameState
         (freezeAbility 0
            (App.mk (Game.mk 200 true false false [Sample.simple "b0" "a" 0 100 None] []
                             [] hiragana slow 0 0 false) ∅ 1 0 (Some 900%Q) 0)).
Proof.
  destruct (@freeze_holds_the_board Sample.board 0
              (App.mk (Game.mk 200 true false false [Sample.simple "b0" "a" 0 100 None] []
                               [] hiragana slow 0 0 false) ∅ 1 0 (Some 900%Q) 0)
              [(1000%Q, 5000, Sample.rolls)]) as (Hs & _ & _ & Hg & _).
  - reflexivity.
  - reflexivity.
  - reflexivity.
  - lia.
  - repeat constructor.
  - split; [rewrite Hs; reflexivity|exact Hg].
Defined.

Lemma clear_grants_thinking_time_witness :
  App.gameState
    (@updates Sample.steep [(5000%Q, 100, Sample.rolls); (5016%Q, 700, Sample.rolls)]
       (@processInput Sample.steep "neko" 0 Sample.played))
  = App.gameState (@processInput Sample.steep "neko" 0 Sample.played).
Proof.
  assert (Hrun : exists m, @findMatch "neko" (App.gameState Sample.played) = Some m)
    by (eexists; vm_compute; reflexivity).
  destruct Hrun as [m Hm].
  destruct (@clear_grants_thinking_time Sample.steep "neko" 0 0 Sample.played m
              [(5000%Q, 100, Sample.rolls); (5016%Q, 700, Sample.rolls)] Hm)
    as (H & _).
  - lia.
  - repeat constructor.
  - exact H.
Defined.

(** ** What a clear does to the board *)

Section ClearProofs.
Context {K : Constants}.

Lemma clearNeighbors_eq g m c :
  clearNeighbors g m c
  = snd (fold_left (neighborStep g)
           (flat_map (fun k => List.map (fun n => (k, n)) (neighborCells m))
                     (Game.stackedKana g))
           ([], c)).
Proof. reflexivity. Qed.

Lemma neighborStep_spec g pg c k n :
  In k (Game.stackedKana g) ->
  let st1 := neighborStep g (pg, c) (k, n) in
  (forall i, In i (toRemoveIds c) -> In i (toRemoveIds (snd st1)))
  /\ (forall i, In i (toRemoveIds (snd st1)) ->
        In i (toRemoveIds c) \/ exists s, In s (Game.stackedKana g) /\ Kana.id s = i)
  /\ (isNeighbor k n = true -> truthy (Kana.wordGroupId k) = false ->
        In (Kana.id k) (toRemoveIds (snd st1)))
  /\ (length (newExplosions (snd st1)) + length (toRemoveIds c)
      = length (newExplosions c) + length (toRemoveIds (snd st1)))%nat.
Proof.
  intros Hk. cbv zeta. unfold neighborStep.
  assert (Hself : forall i, In i (toRemoveIds c ++ [Kana.id k]) ->
            In i (toRemoveIds c) \/ exists s, In s (Game.stackedKana g) /\ Kana.id s = i).
  { intros i Hi. apply in_app_iff in Hi. destruct Hi as [Hi|[<-|[]]]; [tauto|].
    right. exists k. tauto. }
  destruct (isNeighbor k n); cbn [snd].
  - destruct (Kana.wordGroupId k) as [gid|] eqn:Eg.
    + destruct (truthy (Some gid)) eqn:Et.
      * destruct (existsb (String.eqb gid) pg); cbn [snd toRemoveIds newExplosions].
        -- split; [tauto|]. split; [tauto|]. split; [discriminate|lia].
        -- split; [intros i Hi; apply in_or_app; tauto|]. split.
           ++ intros i Hi. apply in_app_iff in Hi. destruct Hi as [Hi|Hi]; [tauto|].
              right. apply in_map_iff in Hi. destruct Hi as (s & <- & Hs).
              apply filter_In in Hs. exists s. tauto.
           ++ split; [discriminate|]. rewrite !List.length_app, !List.length_map. lia.
      * cbn [snd toRemoveIds newExplosions].
        split; [intros i Hi; apply in_or_app; tauto|]. split; [exact Hself|].
        split; [intros _ _; apply in_or_app; right; left; reflexivity|].
        rewrite !List.length_app. simpl. lia.
    + cbn [snd toRemoveIds newExplosions].
      split; [intros i Hi; apply in_or_app; tauto|]. split; [exact Hself|].
      split; [intros _ _; apply in_or_app; right; left; reflexivity|].
      rewrite !List.length_app. simpl. lia.
  - split; [tauto|]. split; [tauto|]. split; [discriminate|lia].
Qed.

Lemma neighbors_fold g (L : list (Kana.t * (Q * Q))) :
  (forall k n, In (k, n) L -> In k (Game.stackedKana g)) ->
  forall st,
    (forall i, In i (toRemoveIds (snd st)) ->
       In i (toRemoveIds (snd (fold_left (neighborStep g) L st))))
    /\ (forall i, In i (toRemoveIds (snd (fold_left (neighborStep g) L st))) ->
          In i (toRemoveIds (snd st))
          \/ exists s, In s (Game.stackedKana g) /\ Kana.id s = i)
    /\ (forall k n, In (k, n) L -> isNeighbor k n = true ->
          truthy (Kana.wordGroupId k) = false ->
          In (Kana.id k) (toRemoveIds (snd (fold_left (neighborStep g) L st))))
    /\ (length (newExplosions (snd (fold_left (neighborStep g) L st)))
        + length (toRemoveIds (snd st))
        = length (newExplosions (snd st))
          + length (toRemoveIds (snd (fold_left (neighborStep g) L st))))%nat.
Proof.
  induction L as [|[k n] L IH]; intros HL [pg c].
  - cbn [fold_left snd]. split; [tauto|]. split; [tauto|]. split; [intros ? ? []|lia].
  - cbn [fold_left].
    destruct (neighborStep_spec g pg c k n) as (S1 & S2 & S3 & S4);
      [apply (HL k n); left; reflexivity|].
    destruct (IH (fun k0 n0 H => HL k0 n0 (or_intror H)) (neighborStep g (pg, c) (k, n)))
      as (Hmono & Hfrom & Hhit & Hlen).
    cbn [snd]. split; [intros i Hi; apply Hmono, S1, Hi|].
    split.
    { intros i Hi. destruct (Hfrom i Hi) as [H|H]; [|tauto]. apply S2, H. }
    split; [|lia].
    intros k0 n0 [Heq|Hin] Hn Ht.
    + injection Heq as <- <-. apply Hmono, S3; assumption.
    + eapply Hhit; eassumption.
Qed.

Lemma neighbor_pairs g m k n :
  In (k, n) (flat_map (fun k => List.map (fun n => (k, n)) (neighborCells m))
                      (Game.stackedKana g))
  <-> In k (Game.stackedKana g) /\ In n (neighborCells m).
Proof.
  rewrite in_flat_map. split.
  - intros (k0 & Hk0 & Hin). apply in_map_iff in Hin. destruct Hin as (n0 & Heq & Hn0).
    injection Heq as <- <-. tauto.
  - intros [Hk Hn]. exists k. split; [exact Hk|]. apply in_map_iff. exists n. tauto.
Qed.

Lemma clearGroup_has_match g m :
  In m (allVisible g) -> In (Kana.id m) (toRemoveIds (clearGroup g m)).
Proof.
  intros Hm. unfold clearGroup. destruct (truthy (Kana.wordGroupId m)); cbn [toRemoveIds].
  - apply in_map. apply filter_In. split; [exact Hm|]. apply optStrEq_eq. reflexivity.
  - left. reflexivity.
Qed.

(** The clear set holds the match, and as many explosions as identifiers. *)
Lemma clearSet_has_match g m :
  In m (allVisible g) ->
  In (Kana.id m) (toRemoveIds (clearSet g m))
  /\ length (newExplosions (clearSet g m)) = length (toRemoveIds (clearSet g m)).
Proof.
  intros Hm. pose proof (clearGroup_has_match g m Hm) as Hg.
  pose proof (clearGroup_lengths g m) as Hl. unfold clearSet.
  destruct (isWordType (Kana.type m) && truthy (Kana.wordId m)).
  - unfold clearSameWord. split.
    + rewrite sweep_ids. apply in_or_app. tauto.
    + pose proof (sweep_lengths g m (matchingGroups g m) (clearGroup g m)). lia.
  - destruct (hasId (Game.stackedKana g) m); [|tauto].
    rewrite clearNeighbors_eq.
    destruct (neighbors_fold g _ (fun k n H => proj1 (proj1 (neighbor_pairs g m k n) H))
                ([], clearGroup g m)) as (Hmono & _ & _ & Hlen).
    cbn [snd] in *. split; [apply Hmono, Hg|lia].
Qed.

(** X17.  A matching input removes the block it matched and adds none:
    no block bearing the identifier of the match is left on the board,
    every block left was there before, unchanged, and at least one
    explosion is shown. *)
Theorem clear_removes_match (val : string) (now : Z) (a : App.t) (m : Kana.t) :
  findMatch val (App.gameState a) = Some m ->
  Forall (fun k => Kana.id k <> Kana.id m /\ In k (allVisible (App.gameState a)))
         (allVisible (App.gameState (processInput val now a)))
  /\ (length (Game.explosions (App.gameState a))
      < length (Game.explosions (App.gameState (processInput val now a))))%nat.
Proof.
  intros Hm. pose proof (findMatch_In _ _ _ Hm) as Hin.
  destruct (clearSet_has_match _ _ Hin) as [Hid Hlen].
  assert (Hg : App.gameState (processInput val now a)
               = applyClear now m (hasId (Game.activeKana (App.gameState a)) m)
                   (clearSet (App.gameState a) m) (App.gameState a)).
  { unfold processInput. rewrite Hm. destruct (updatesSrs m); reflexivity. }
  rewrite Hg. unfold allVisible, applyClear. cbn [Game.activeKana Game.stackedKana
    Game.explosions]. split.
  - rewrite <- keep_app. apply List.Forall_forall. intros k Hk. apply keep_In in Hk.
    destruct Hk as [Hk Hnot]. split; [|exact Hk]. intros Heq. apply Hnot.
    rewrite Heq. exact Hid.
  - rewrite List.length_app, Hlen.
    destruct (toRemoveIds (clearSet (App.gameState a) m)); [destruct Hid|simpl; lia].
Qed.

(** X18.  A clear never costs points: with a streak that is not negative,
    a matching input raises the score by at least 3 for a word and 10 for
    a simple symbol, and by at least 4 or 15 plus the streak bonus when
    the match was still falling. *)
Theorem clear_earns_points (val : string) (now : Z) (a : App.t) (m : Kana.t) :
  findMatch val (App.gameState a) = Some m ->
  0 <= Game.streak (App.gameState a) ->
  Game.score (App.gameState a) + (if isWordType (Kana.type m) then 3 else 10)
  <= Game.score (App.gameState (processInput val now a))
  /\ (hasId (Game.activeKana (App.gameState a)) m = true ->
      Game.score (App.gameState a)
      + (if isWordType (Kana.type m)
         then 4 + 2 * (Game.streak (App.gameState a) + 1)
         else 15 + 5 * (Game.streak (App.gameState a) + 1))
      <= Game.score (App.gameState (processInput val now a))).
Proof.
  intros Hm Hs. pose proof (findMatch_In _ _ _ Hm) as Hin.
  destruct (clearSet_has_match _ _ Hin) as [Hid Hlen].
  assert (Hn : (1 <= length (newExplosions (clearSet (App.gameState a) m)))%nat).
  { rewrite Hlen. destruct (toRemoveIds (clearSet (App.gameState a) m));
      [destruct Hid|simpl; lia]. }
  assert (Hg : App.gameState (processInput val now a)
               = applyClear now m (hasId (Game.activeKana (App.gameState a)) m)
                   (clearSet (App.gameState a) m) (App.gameState a)).
  { unfold processInput. rewrite Hm. destruct (updatesSrs m); reflexivity. }
  rewrite Hg. unfold applyClear, totalPoints. cbn [Game.score].
  set (n := Z.of_nat (length (newExplosions (clearSet (App.gameState a) m)))).
  assert (Hn' : 1 <= n) by (subst n; lia). clearbody n.
  destruct (isWordType (Kana.type m));
    destruct (hasId (Game.activeKana (App.gameState a)) m).
  - assert (4 <= (3 + (n - 1) * 1) * 3 / 2) by (apply Z.div_le_lower_bound; lia).
    split; [lia|intros _; lia].
  - split; [lia|discriminate].
  - assert (15 <= (10 + (n - 1) * 5) * 3 / 2) by (apply Z.div_le_lower_bound; lia).
    split; [lia|intros _; lia].
  - split; [lia|discriminate].
Qed.
End ClearProofs.

Section KanaClearProofs.
Context {K : Constants}.

Lemma hasId_false l m :
  hasId l m = false <-> forall k, In k l -> Kana.id k <> Kana.id m.
Proof.
  unfold hasId. split.
  - intros H k Hk Heq.
    assert (Ht : existsb (fun k => String.eqb (Kana.id k) (Kana.id m)) l = true).
    { apply existsb_exists. exists k. split; [exact Hk|]. apply String.eqb_eq. exact Heq. }
    congruence.
  - intros H. destruct (existsb _ l) eqn:E; [|reflexivity].
    apply existsb_exists in E. destruct E as (k & Hk & Heq).
    apply String.eqb_eq in Heq. destruct (H k Hk Heq).
Qed.

Lemma keep_untouched T l :
  (forall k, In k l -> ~ In (Kana.id k) T) -> keep T l = l.
Proof.
  intros H. unfold keep. induction l as [|k l IH]; [reflexivity|]. simpl.
  destruct (existsb (String.eqb (Kana.id k)) T) eqn:E.
  - apply existsb_exists in E. destruct E as (i & Hi & Heq). apply String.eqb_eq in Heq.
    subst i. destruct (H k (or_introl eq_refl) Hi).
  - simpl. f_equal. apply IH. intros k0 Hk0. apply H. right. exact Hk0.
Qed.

Lemma updatesSrs_word m : updatesSrs m = true -> isWordType (Kana.type m) = true.
Proof.
  unfold updatesSrs. intros H. apply andb_true_iff in H. destruct H as [H _].
  apply andb_true_iff in H. destruct H as [H _].
  apply andb_true_iff in H. tauto.
Qed.

(** X19.  Typing the reading of a falling simple symbol clears that block
    and nothing else: the stack is untouched, the falling blocks lose the
    ones with its identifier, one explosion appears at its place, the
    streak grows by one and the score by 20 plus five times the streak of
    before; no SRS record and no counter changes. *)
Theorem falling_kana_clear (val : string) (now : Z) (a : App.t) (m : Kana.t) :
  findMatch val (App.gameState a) = Some m ->
  isWordType (Kana.type m) = false ->
  truthy (Kana.wordGroupId m) = false ->
  hasId (Game.stackedKana (App.gameState a)) m = false ->
  Game.activeKana (App.gameState (processInput val now a))
  = keep [Kana.id m] (Game.activeKana (App.gameState a))
  /\ Game.stackedKana (App.gameState (processInput val now a))
     = Game.stackedKana (App.gameState a)
  /\ Game.explosions (App.gameState (processInput val now a))
     = Game.explosions (App.gameState a) ++ [explosionAt None m]
  /\ Game.streak (App.gameState (processInput val now a))
     = Game.streak (App.gameState a) + 1
  /\ Game.score (App.gameState (processInput val now a))
     = Game.score (App.gameState a) + 20 + 5 * Game.streak (App.gameState a)
  /\ App.wordSRS (processInput val now a) = App.wordSRS a
  /\ App.blocksProcessed (processInput val now a) = App.blocksProcessed a.
Proof.
  intros Hm Hty Hgid Hst. pose proof (findMatch_In _ _ _ Hm) as Hin.
  assert (Hact : hasId (Game.activeKana (App.gameState a)) m = true).
  { unfold allVisible in Hin. apply in_app_iff in Hin. destruct Hin as [Hin|Hin].
    - apply hasId_In. exact Hin.
    - apply hasId_In in Hin. congruence. }
  assert (Hsrs : updatesSrs m = false).
  { destruct (updatesSrs m) eqn:E; [|reflexivity].
    apply updatesSrs_word in E. congruence. }
  assert (Hc : clearSet (App.gameState a) m = mkClear [Kana.id m] [explosionAt None m]).
  { unfold clearSet, clearGroup. rewrite Hty, Hgid, Hst. reflexivity. }
  unfold processInput. rewrite Hm, Hsrs, Hc, Hact.
  cbn [App.withGame App.gameState App.wordSRS App.blocksProcessed applyClear
       Game.activeKana Game.stackedKana Game.explosions Game.streak Game.score
       toRemoveIds newExplosions].
  split; [reflexivity|]. split.
  { apply keep_untouched. intros k Hk [Heq|[]].
    apply (proj1 (hasId_false _ _) Hst k Hk). symmetry. exact Heq. }
  split; [reflexivity|]. split; [reflexivity|]. split; [|tauto].
  unfold totalPoints. rewrite Hty. cbn [length Z.of_nat].
  change ((10 + (Z.of_nat 1 - 1) * 5) * 3 / 2) with 15. lia.
Qed.

(** X20.  Typing the reading of a stacked simple symbol takes its stacked
    neighbours with it and nothing that falls: every stacked block without
    a group in the cell above, to the left or to the right of the match
    (within 5 units) is removed, every falling block whose identifier no
    stacked block bears stays, and no SRS record changes.  When no falling
    block bears the identifier of the match, the streak stays and the
    score grows by 5 plus 5 for every explosion. *)
Theorem stacked_kana_clear (val : string) (now : Z) (a : App.t) (m : Kana.t) :
  findMatch val (App.gameState a) = Some m ->
  isWordType (Kana.type m) = false ->
  truthy (Kana.wordGroupId m) = false ->
  hasId (Game.stackedKana (App.gameState a)) m = true ->
  (forall s n, In s (Game.stackedKana (App.gameState a)) ->
     truthy (Kana.wordGroupId s) = false ->
     In n (neighborCells m) -> isNeighbor s n = true ->
     ~ In s (Game.stackedKana (App.gameState (processInput val now a))))
  /\ (forall k, In k (Game.activeKana (App.gameState a)) ->
        (forall s, In s (Game.stackedKana (App.gameState a)) -> Kana.id s <> Kana.id k) ->
        In k (Game.activeKana (App.gameState (processInput val now a))))
  /\ App.wordSRS (processInput val now a) = App.wordSRS a
  /\ (hasId (Game.activeKana (App.gameState a)) m = false ->
      Game.streak (App.gameState (processInput val now a)) = Game.streak (App.gameState a)
      /\ Game.score (App.gameState (processInput val now a))
         = Game.score (App.gameState a) + 5
           + 5 * (Z.of_nat (length (Game.explosions (App.gameState (processInput val now a))))
                  - Z.of_nat (length (Game.explosions (App.gameState a))))).
Proof.
  intros Hm Hty Hgid Hst.
  assert (Hsrs : updatesSrs m = false).
  { destruct (updatesSrs m) eqn:E; [|reflexivity].
    apply updatesSrs_word in E. congruence. }
  assert (Hc : clearSet (App.gameState a) m
               = clearNeighbors (App.gameState a) m (mkClear [Kana.id m] [explosionAt None m])).
  { unfold clearSet, clearGroup. rewrite Hty, Hgid, Hst. reflexivity. }
  destruct (neighbors_fold (App.gameState a) _
              (fun k n H => proj1 (proj1 (neighbor_pairs (App.gameState a) m k n) H))
              ([], mkClear [Kana.id m] [explosionAt None m]))
    as (_ & Hfrom & Hhit & _).
  rewrite <- clearNeighbors_eq, <- Hc in Hfrom, Hhit. cbn [snd toRemoveIds] in Hfrom.
  unfold processInput. rewrite Hm, Hsrs.
  cbn [App.withGame App.gameState App.wordSRS applyClear Game.activeKana
       Game.stackedKana Game.explosions Game.streak Game.score].
  split.
  { intros s n Hs Hg Hn Hnb Hkept. apply keep_In in Hkept. destruct Hkept as [_ Hnot].
    apply Hnot. apply (Hhit s n); [|exact Hnb|exact Hg]. apply neighbor_pairs. tauto. }
  split.
  { intros k Hk Hfree. apply keep_In. split; [exact Hk|]. intros Hi.
    destruct (Hfrom _ Hi) as [[Heq|[]]|(s & Hs & Heq)].
    - unfold hasId in Hst. apply existsb_exists in Hst. destruct Hst as (s & Hs & He).
      apply String.eqb_eq in He. apply (Hfree s Hs). congruence.
    - apply (Hfree s Hs). exact Heq. }
  split; [reflexivity|].
  intros Hact. rewrite Hact. split; [reflexivity|].
  unfold totalPoints. rewrite Hty, List.length_app. lia.
Qed.

Lemma find_app_left {A} (p : A -> bool) (l1 l2 : list A) (k : A) :
  In k l1 -> p k = true -> exists x, List.find p (l1 ++ l2) = Some x /\ In x l1.
Proof.
  induction l1 as [|y l1 IH]; intros [] Hp.
  - subst y. simpl. rewrite Hp. exists k. split; [reflexivity|left; reflexivity].
  - simpl. destruct (p y); [exists y; split; [reflexivity|left; reflexivity]|].
    destruct IH as (x & Hx & Hin); [assumption|assumption|]. exists x. tauto.
Qed.

(** X21.  The input finds a block exactly when some block on the board
    bears the typed reading (a simple symbol by its reading, a fragment by
    the reading of its whole word).  The block found bears it; it is a
    simple symbol whenever a simple symbol bears it, even if a fragment
    stands earlier; and it is a falling block whenever a falling block of
    its kind bears it. *)
Theorem findMatch_prefers (val : string) (g : Game.t) :
  (findMatch val g = None <-> forall k, In k (allVisible g) -> matches val k = false)
  /\ forall m, findMatch val g = Some m ->
       In m (allVisible g) /\ matches val m = true
       /\ (forall k, In k (allVisible g) -> isWordType (Kana.type k) = false ->
             Kana.romaji k = val -> isWordType (Kana.type m) = false)
       /\ (forall k, In k (Game.activeKana g) -> matches val k = true ->
             isWordType (Kana.type k) = isWordType (Kana.type m) ->
             In m (Game.activeKana g)).
Proof.
  unfold findMatch, matches.
  set (p1 := fun k => negb (isWordType (Kana.type k)) && String.eqb (Kana.romaji k) val).
  set (p2 := fun k => isWordType (Kana.type k) && optStrEq (Kana.wordRomaji k) (Some val)).
  split.
  - split.
    + intros H k Hk. destruct (List.find p1 (allVisible g)) eqn:E1; [discriminate H|].
      pose proof (find_none _ _ E1 k Hk) as H1. pose proof (find_none _ _ H k Hk) as H2.
      change (p1 k || p2 k = false). rewrite H1, H2. reflexivity.
    + intros H. destruct (List.find p1 (allVisible g)) as [m|] eqn:E1.
      * apply find_some in E1. destruct E1 as [Hin Hp].
        specialize (H m Hin). change (p1 m || p2 m = false) in H.
        rewrite Hp in H. discriminate H.
      * destruct (List.find p2 (allVisible g)) as [m|] eqn:E2; [|reflexivity].
        apply find_some in E2. destruct E2 as [Hin Hp].
        specialize (H m Hin). change (p1 m || p2 m = false) in H.
        rewrite Hp, orb_true_r in H. discriminate H.
  - intros m H. destruct (List.find p1 (allVisible g)) as [m1|] eqn:E1.
    + injection H as ->. pose proof (find_some _ _ E1) as [Hin Hp].
      assert (Hty : isWordType (Kana.type m) = false).
      { unfold p1 in Hp. apply andb_true_iff in Hp. destruct Hp as [Hp _].
        apply negb_true_iff in Hp. exact Hp. }
      split; [exact Hin|]. split; [change (p1 m || p2 m = true); rewrite Hp; reflexivity|].
      split; [intros; exact Hty|].
      intros k Hk Hmk Hkind. rewrite Hty in Hkind.
      assert (Hpk : p1 k = true).
      { unfold p1. rewrite Hkind in *. cbn [negb andb orb] in *.
        rewrite orb_false_r in Hmk. exact Hmk. }
      destruct (find_app_left p1 _ (Game.stackedKana g) k Hk Hpk) as (x & Hx & Hxin).
      unfold allVisible in E1. rewrite E1 in Hx. injection Hx as <-. exact Hxin.
    + pose proof (find_some _ _ H) as [Hin Hp].
      assert (Hty : isWordType (Kana.type m) = true).
      { unfold p2 in Hp. apply andb_true_iff in Hp. tauto. }
      split; [exact Hin|].
      split; [change (p1 m || p2 m = true); rewrite Hp; apply orb_true_r|].
      split.
      * intros k Hk Hkty Hr. pose proof (find_none _ _ E1 k Hk) as Hn.
        unfold p1 in Hn. rewrite Hkty, Hr, String.eqb_refl in Hn. discriminate Hn.
      * intros k Hk Hmk Hkind. rewrite Hty in Hkind.
        assert (Hpk : p2 k = true).
        { unfold p2. rewrite Hkind in *. cbn [negb andb orb] in *. exact Hmk. }
        destruct (find_app_left p2 _ (Game.stackedKana g) k Hk Hpk) as (x & Hx & Hxin).
        unfold allVisible in H. rewrite H in Hx. injection Hx as <-. exact Hxin.
Qed.

(** X22.  A clear writes at most one SRS record, that of the word of the
    block it matched, and only when that block is a word fragment carrying
    kanji, translation and word id.  The counter of processed blocks
    advances by one exactly when a record is written, the session number
    never. *)
Theorem clear_touches_one_record (val : string) (now : Z) (a : App.t) :
  App.sessionNumber (processInput val now a) = App.sessionNumber a
  /\ (forall w, (forall m, findMatch val (App.gameState a) = Some m ->
                   Kana.wordId m <> Some w) ->
        App.wordSRS (processInput val now a) !! w = App.wordSRS a !! w)
  /\ ((forall m, findMatch val (App.gameState a) = Some m -> updatesSrs m = false) ->
      App.wordSRS (processInput val now a) = App.wordSRS a
      /\ App.blocksProcessed (processInput val now a) = App.blocksProcessed a)
  /\ (forall m, findMatch val (App.gameState a) = Some m -> updatesSrs m = true ->
        App.blocksProcessed (processInput val now a) = App.blocksProcessed a + 1
        /\ exists w d, Kana.wordId m = Some w
                       /\ App.wordSRS (processInput val now a) !! w = Some d
                       /\ Srs.lastAttemptSession d = App.sessionNumber a).
Proof.
  unfold processInput.
  destruct (findMatch val (App.gameState a)) as [m|]; [|repeat split; discriminate].
  destruct (updatesSrs m) eqn:Eu;
    cbn [App.withGame App.sessionNumber App.wordSRS App.blocksProcessed].
  - split; [reflexivity|]. split.
    { intros w Hw. rewrite srsUpdate_lookup.
      destruct (String.eqb _ w) eqn:E; [|reflexivity]. exfalso.
      apply String.eqb_eq in E. apply (Hw m eq_refl).
      unfold updatesSrs in Eu. apply andb_true_iff in Eu. destruct Eu as [_ Eu].
      apply truthy_Some in Eu. destruct Eu as (s & Hs & _). rewrite Hs in *. simpl in E.
      congruence. }
    split; [intros H; specialize (H m eq_refl); congruence|].
    intros m0 Hm0 _. injection Hm0 as <-. split; [reflexivity|].
    unfold updatesSrs in Eu. apply andb_true_iff in Eu. destruct Eu as [_ Eu].
    apply truthy_Some in Eu. destruct Eu as (s & Hs & _). rewrite Hs. cbn [default].
    eexists s, _. split; [reflexivity|]. rewrite srsUpdate_lookup, String.eqb_refl.
    split; reflexivity.
  - split; [reflexivity|]. split; [reflexivity|]. split; [tauto|].
    intros m0 Hm0 Hu. injection Hm0 as <-. congruence.
Qed.
End KanaClearProofs.

Lemma clear_removes_match_witness :
  (length (Game.explosions (App.gameState Sample.played))
   < length (Game.explosions
               (App.gameState (@processInput Sample.steep "neko" 0 Sample.played))))%nat.
Proof.
  assert (Hrun : exists m, findMatch "neko" (App.gameState Sample.played) = Some m)
    by (eexists; vm_compute; reflexivity).
  destruct Hrun as [m Hm].
  destruct (@clear_removes_match Sample.steep "neko" 0 Sample.played m Hm) as [_ H].
  exact H.
Defined.

Lemma clear_earns_points_witness :
  Game.score (App.gameState Sample.played) + 3
  <= Game.score (App.gameState (@processInput Sample.steep "neko" 0 Sample.played)).
Proof.
  assert (Hrun : exists m, findMatch "neko" (App.gameState Sample.played) = Some m
                           /\ isWordType (Kana.type m) = true)
    by (eexists; split; vm_compute; reflexivity).
  destruct Hrun as (m & Hm & Hty).
  destruct (@clear_earns_points Sample.steep "neko" 0 Sample.played m Hm) as [H _].
  - vm_compute. discriminate.
  - rewrite Hty in H. exact H.
Defined.

Lemma falling_kana_clear_witness :
  Game.score
    (App.gameState
       (@processInput Sample.board "a" 0
          (App.mk (Sample.game hiragana [Sample.simple "b0" "a" 0 100 None]
                               [Sample.simple "s0" "ka" 0 540 (Some 0)] 3)
                  ∅ 1 0 (Some 900%Q) 0)))
  = 135.
Proof.
  destruct (@falling_kana_clear Sample.board "a" 0
              (App.mk (Sample.game hiragana [Sample.simple "b0" "a" 0 100 None]
                                   [Sample.simple "s0" "ka" 0 540 (Some 0)] 3)
                      ∅ 1 0 (Some 900%Q) 0)
              (Sample.simple "b0" "a" 0 100 None))
    as (_ & _ & _ & _ & H & _).
  - reflexivity.
  - reflexivity.
  - reflexivity.
  - reflexivity.
  - rewrite H. reflexivity.
Defined.

Lemma stacked_kana_clear_witness :
  Game.streak
    (App.gameState
       (@processInput Sample.board "a" 0
          (App.mk (Sample.game hiragana [Sample.simple "b0" "ki" 3 100 None]
                               [Sample.simple "s0" "ka" 0 540 (Some 0);
                                Sample.simple "s1" "a" 1 540 (Some 0)] 3)
                  ∅ 1 0 (Some 900%Q) 0)))
  = 3.
Proof.
  destruct (@stacked_kana_clear Sample.board "a" 0
              (App.mk (Sample.game hiragana [Sample.simple "b0" "ki" 3 100 None]
                                   [Sample.simple "s0" "ka" 0 540 (Some 0);
                                    Sample.simple "s1" "a" 1 540 (Some 0)] 3)
                      ∅ 1 0 (Some 900%Q) 0)
              (Sample.simple "s1" "a" 1 540 (Some 0)))
    as (_ & _ & _ & H).
  - reflexivity.
  - reflexivity.
  - reflexivity.
  - reflexivity.
  - destruct H as [H _]; [reflexivity|]. rewrite H. reflexivity.
Defined.

(** ** What is spawned, and where *)

Section SpawnProofs.
Context {K : Constants}.

Lemma spawnOutcome_blocks g srs s r blocks :
  spawnOutcome g srs s r = Spawned blocks ->
  exists c,
    chooseEntry g srs s r = Some c
    /\ 0 <= COLUMNS - Z.of_nat (length (cText c))
    /\ blocks
       = newKanaList (KanaMode_eqb (Game.mode g) words) c
           (Qfloor (Rolls.start r
                    * inject_Z (COLUMNS - Z.of_nat (length (cText c)) + 1))) r.
Proof.
  unfold spawnOutcome. intros H.
  destruct (chooseEntry g srs s r) as [c|]; [|discriminate H]. exists c.
  destruct (COLUMNS - Z.of_nat (length (cText c)) <? 0) eqn:E; [discriminate H|].
  apply Z.ltb_ge in E. destruct (hasCollision _ _); [discriminate H|].
  injection H as <-. tauto.
Qed.

Lemma floor_scaled (r : Q) (n : Z) :
  (0 <= r < 1)%Q -> 0 < n -> 0 <= Qfloor (r * inject_Z n) < n.
Proof.
  intros [H0 H1] Hn.
  assert (Hq : (0 < inject_Z n)%Q) by (change 0%Q with (inject_Z 0); rewrite <- Zlt_Qlt; exact Hn).
  split.
  - change 0 with (Qfloor 0). apply Qfloor_resp_le. apply Qmult_le_0_compat; [exact H0|].
    apply Qlt_le_weak. exact Hq.
  - assert (Hlt : (r * inject_Z n < inject_Z n)%Q).
    { rewrite <- (Qmult_1_l (inject_Z n)) at 2. apply Qmult_lt_compat_r; assumption. }
    pose proof (Qfloor_le (r * inject_Z n)) as Hf.
    assert (Hz : (inject_Z (Qfloor (r * inject_Z n)) < inject_Z n)%Q).
    { eapply Qle_lt_trans; eassumption. }
    rewrite <- Zlt_Qlt in Hz. exact Hz.
Qed.

(** X23.  Whatever is spawned fits the board: with a start roll in [0,1),
    every spawned block lies in a column between 0 and [COLUMNS - 1], sits
    at the horizontal position of its column and starts one cell above the
    top edge. *)
Theorem spawn_fits_board (g : Game.t) (srs : WordSRS) (s : Z) (r : Rolls.t)
    (blocks : list Kana.t) :
  spawnOutcome g srs s r = Spawned blocks ->
  (0 <= Rolls.start r < 1)%Q ->
  Forall (fun k => 0 <= Kana.column k < COLUMNS
                   /\ Kana.x k = (inject_Z (Kana.column k) * CELL_SIZE)%Q
                   /\ Kana.y k = (- CELL_SIZE)%Q)
         blocks.
Proof.
  intros H Hr. destruct (spawnOutcome_blocks _ _ _ _ _ H) as (c & _ & Hw & ->).
  set (mc := COLUMNS - Z.of_nat (length (cText c))) in *.
  destruct (floor_scaled (Rolls.start r) (mc + 1) Hr) as [Hs0 Hs1]; [lia|].
  apply List.Forall_forall. intros k Hk. unfold newKanaList in Hk.
  apply in_map_iff in Hk. destruct Hk as ([i ch] & <- & Hin).
  apply in_combine_l in Hin. apply in_seq in Hin. cbn [fst snd Kana.column Kana.x Kana.y].
  split; [lia|]. split; reflexivity.
Qed.

Lemma firstn_reaches {A} (n : nat) (l1 l2 : list A) (x : A) :
  (length l1 < n)%nat -> In x (firstn n (l1 ++ x :: l2)).
Proof.
  revert n. induction l1 as [|y l1 IH]; intros n Hn.
  - destruct n; [lia|]. left. reflexivity.
  - destruct n; [simpl in Hn; lia|]. simpl. right. apply IH. simpl in Hn. lia.
Qed.

Lemma firstn_incl {A} (n : nat) (l : list A) x : In x (firstn n l) -> In x l.
Proof.
  revert n. induction l as [|y l IH]; intros [|n] H; simpl in H; try tauto.
  destruct H as [->|H]; [left; reflexivity|right; eapply IH; exact H].
Qed.

Lemma reviewChance_le_half n : (reviewChance n <= 0.5)%Q.
Proof.
  unfold reviewChance. destruct (0 <? Z.of_nat n); [apply Q.le_min_l|discriminate].
Qed.

(** X24.  The learning pool.  Every word of the pool is a catalog word of
    at most [maxMorae] morae.  As soon as the catalog has an unseen word
    of at most [maxMorae] morae, the pool holds at most 15 words, none of
    them mastered, and at least one of them unseen: words in progress
    never crowd out the new ones.  And a review roll of one half or more
    always draws from the learning pool. *)
Theorem learning_pool_sound (srs : WordSRS) (maxMorae : Z) :
  Forall (fun w => In w WORDS /\ Word.morae w <= maxMorae) (learningPool srs maxMorae)
  /\ (forall w0, In w0 WORDS -> Word.morae w0 <= maxMorae -> unseen srs w0 = true ->
        (length (learningPool srs maxMorae) <= 15)%nat
        /\ Forall (fun w => srsLevel srs (Word.id w) < MASTERY_THRESHOLD)
                  (learningPool srs maxMorae)
        /\ Exists (fun w => unseen srs w = true) (learningPool srs maxMorae))
  /\ (forall sessionNumber score roll, (0.5 <= roll)%Q ->
        wordCandidates srs sessionNumber score roll
        = learningPool srs (maxMoraeOf srs score)).
Proof.
  unfold learningPool.
  set (eligible := List.filter
         (fun w => (Word.morae w <=? maxMorae)
                   && (srsLevel srs (Word.id w) <? MASTERY_THRESHOLD)) WORDS).
  set (inProgress := List.filter (fun w => 0 <? srsLevel srs (Word.id w)) eligible).
  set (fresh := List.filter (unseen srs) eligible).
  set (pip := if (0 <? length fresh)%nat && (10 <? length inProgress)%nat
              then firstn 10 inProgress else inProgress).
  assert (Hel : forall w, In w eligible ->
            In w WORDS /\ Word.morae w <= maxMorae
            /\ srsLevel srs (Word.id w) < MASTERY_THRESHOLD).
  { intros w Hw. apply filter_In in Hw. destruct Hw as [Hw Hc].
    apply andb_true_iff in Hc. destruct Hc as [H1 H2].
    apply Z.leb_le in H1. apply Z.ltb_lt in H2. tauto. }
  assert (Hpool : forall w, In w (firstn 15 (pip ++ fresh)) -> In w eligible).
  { intros w Hw. apply firstn_incl in Hw. apply in_app_iff in Hw. destruct Hw as [Hw|Hw].
    - subst pip. destruct (_ && _); [apply firstn_incl in Hw|];
        apply filter_In in Hw; tauto.
    - apply filter_In in Hw. tauto. }
  split; [|split].
  - destruct (firstn 15 (pip ++ fresh)) as [|w1 ws] eqn:E.
    + apply List.Forall_forall. intros w Hw. apply filter_In in Hw.
      destruct Hw as [Hw Hc]. apply Z.leb_le in Hc. tauto.
    + apply List.Forall_forall. intros w Hw.
      destruct (Hel w (Hpool w Hw)). tauto.
  - intros w0 Hw0 Hm0 Hu0.
    assert (Hfresh : In w0 fresh).
    { apply filter_In. split; [|exact Hu0]. apply filter_In. split; [exact Hw0|].
      apply andb_true_iff. split; [apply Z.leb_le; exact Hm0|]. apply Z.ltb_lt.
      unfold unseen in Hu0. unfold srsLevel, MASTERY_THRESHOLD.
      destruct (srs !! Word.id w0) as [d|]; [apply Z.eqb_eq in Hu0; lia|lia]. }
    assert (Hpip : (length pip <= 10)%nat).
    { subst pip. destruct fresh as [|f fs]; [destruct Hfresh|].
      change (0 <? length (f :: fs))%nat with true.
      destruct (10 <? length inProgress)%nat eqn:E10.
      - cbn [andb]. rewrite List.length_firstn. lia.
      - cbn [andb]. apply Nat.ltb_ge in E10. exact E10. }
    assert (Hf : exists f, In f (firstn 15 (pip ++ fresh)) /\ unseen srs f = true).
    { assert (Hall : forall f, In f fresh -> unseen srs f = true).
      { intros f H. apply filter_In in H. tauto. }
      destruct fresh as [|f fs]; [destruct Hfresh|]. exists f.
      split; [apply firstn_reaches; lia|]. apply Hall. left. reflexivity. }
    destruct Hf as (f & Hf & Hfu).
    assert (Heq : match firstn 15 (pip ++ fresh) with
                  | [] => List.filter (fun w => Word.morae w <=? maxMorae) WORDS
                  | cs => cs
                  end = firstn 15 (pip ++ fresh)).
    { destruct (firstn 15 (pip ++ fresh)); [destruct Hf|reflexivity]. }
    rewrite Heq. split; [rewrite List.length_firstn; lia|]. split.
    + apply List.Forall_forall. intros w Hw. destruct (Hel w (Hpool w Hw)). tauto.
    + apply List.Exists_exists. exists f. tauto.
  - intros sessionNumber score roll Hroll. unfold wordCandidates.
    replace (Qltb roll (reviewChance (length (dueWords srs sessionNumber)))) with false;
      [reflexivity|].
    symmetry. apply Qltb_false.
    eapply Qle_trans; [apply reviewChance_le_half|exact Hroll].
Qed.
End SpawnProofs.

Section SpawnFailureProofs.
Context {K : Constants}.

Lemma pick_none {A} (r : Q) (l : list A) :
  (0 <= r < 1)%Q -> (pick r l = None <-> l = []).
Proof.
  intros Hr. unfold pick. split.
  - intros H. destruct l as [|x l]; [reflexivity|]. exfalso.
    destruct (floor_scaled r (Z.of_nat (length (x :: l))) Hr) as [H0 H1];
      [simpl; lia|].
    set (i := Qfloor (r * inject_Z (Z.of_nat (length (x :: l))))) in *.
    destruct (i <? 0) eqn:E; [apply Z.ltb_lt in E; lia|].
    apply nth_error_None in H. lia.
  - intros ->. destruct (_ <? 0); [reflexivity|]. destruct (Z.to_nat _); reflexivity.
Qed.

Lemma option_map_none {A B} (f : A -> B) (o : option A) :
  option_map f o = None <-> o = None.
Proof. destruct o; simpl; split; congruence. Qed.

Lemma maxMoraeOf_ge_two srs score : 2 <= maxMoraeOf srs score.
Proof.
  pose proof (sc_low _ _ _ _ (scanned_end srs score)) as H. unfold maxMoraeOf.
  assert (Hb : 2 <= baseMorae score).
  { unfold baseMorae. destruct (score <? 500); [lia|]. destruct (score <? 1000); lia. }
  lia.
Qed.

Lemma learningPool_nil srs maxMorae :
  learningPool srs maxMorae = [] ->
  forall w, In w WORDS -> maxMorae < Word.morae w.
Proof.
  unfold learningPool.
  match goal with |- context [firstn 15 ?l] => destruct (firstn 15 l) end;
    [|discriminate].
  intros H w Hw. destruct (Z.leb_spec (Word.morae w) maxMorae) as [Hle|Hlt];
    [|exact Hlt]. exfalso.
  assert (Hin : In w (List.filter (fun w => Word.morae w <=? maxMorae) WORDS)).
  { apply filter_In. split; [exact Hw|]. apply Z.leb_le. exact Hle. }
  rewrite H in Hin. destruct Hin.
Qed.

Lemma wordCandidates_nil srs s score roll :
  wordCandidates srs s score roll = [] ->
  forall w, In w WORDS -> maxMoraeOf srs score < Word.morae w.
Proof.
  unfold wordCandidates.
  destruct (if Qltb roll (reviewChance (length (dueWords srs s)))
            then dueWords srs s else []); [|discriminate].
  apply learningPool_nil.
Qed.

(** X25.  A spawn attempt fails only for want of candidates.  With an
    entry roll in [0,1), the attempt fails only if the list to draw from is
    empty: in the modes of simple symbols the alphabet list, in words mode
    the catalog below [maxMorae].  So in words mode it never fails when
    the catalog has a word of at most two morae. *)
Theorem spawn_fails_only_on_empty_list (g : Game.t) (srs : WordSRS) (s : Z) (r : Rolls.t) :
  (0 <= Rolls.entry r < 1)%Q ->
  (spawnKana g srs s r = None ->
   match Game.mode g with
   | words => forall w, In w WORDS -> maxMoraeOf srs (Game.score g) < Word.morae w
   | hiragana => HIRAGANA = []
   | katakana => KATAKANA = []
   | both => HIRAGANA ++ KATAKANA = []
   end)
  /\ ((exists w, In w WORDS /\ Word.morae w <= 2) -> Game.mode g = words ->
      exists g', spawnKana g srs s r = Some g').
Proof.
  intros Hr.
  assert (Hfail : spawnKana g srs s r = None ->
            match Game.mode g with
            | words => forall w, In w WORDS -> maxMoraeOf srs (Game.score g) < Word.morae w
            | hiragana => HIRAGANA = []
            | katakana => KATAKANA = []
            | both => HIRAGANA ++ KATAKANA = []
            end).
  { unfold spawnKana, spawnOutcome. intros H.
    destruct (chooseEntry g srs s r) as [c|] eqn:E.
    - destruct (_ <? 0); [discriminate H|]. destruct (hasCollision _ _); discriminate H.
    - unfold chooseEntry in E. destruct (Game.mode g);
        apply option_map_none in E; apply (pick_none _ _ Hr) in E; try exact E.
      eapply wordCandidates_nil. exact E. }
  split; [exact Hfail|].
  intros (w & Hw & Hm) Hmode.
  destruct (spawnKana g srs s r) as [g'|] eqn:E; [exists g'; reflexivity|]. exfalso.
  specialize (Hfail eq_refl). rewrite Hmode in Hfail. specialize (Hfail w Hw).
  pose proof (maxMoraeOf_ge_two srs (Game.score g)). lia.
Qed.
End SpawnFailureProofs.

Lemma spawn_fits_board_witness :
  exists blocks,
    @spawnOutcome Sample.board (Sample.game words [] [] 0) ∅ 1 Sample.rolls = Spawned blocks
    /\ Forall (fun k => 0 <= Kana.column k < 8) blocks.
Proof.
  assert (Hrun : exists blocks,
             @spawnOutcome Sample.board (Sample.game words [] [] 0) ∅ 1 Sample.rolls
             = Spawned blocks) by (eexists; vm_compute; reflexivity).
  destruct Hrun as [blocks Hb]. exists blocks. split; [exact Hb|].
  eapply List.Forall_impl;
    [|apply (@spawn_fits_board Sample.board _ _ _ _ _ Hb);
      split; [vm_compute; discriminate|vm_compute; reflexivity]].
  intros k (H & _). exact H.
Defined.

Lemma spawn_fails_only_on_empty_list_witness :
  exists g', @spawnKana Sample.board (Sample.game words [] [] 0) ∅ 1 Sample.rolls = Some g'.
Proof.
  destruct (@spawn_fails_only_on_empty_list Sample.board (Sample.game words [] [] 0) ∅ 1
              Sample.rolls) as [_ H].
  - split; [vm_compute; discriminate|vm_compute; reflexivity].
  - apply H; [|reflexivity]. exists Sample.neko. split; [left; reflexivity|].
    vm_compute. discriminate.
Defined.

(** ** The statistics and the accuracy of the history *)

Section StatProofs.
Context {K : Constants}.

Lemma recordEvent_totals s e :
  Stats.missed (recordEvent s e) = Stats.missed s
  /\ Stats.correct (recordEvent s e)
     = Stats.correct s + match e with Matched _ => 1 | Landed _ => 0 end
  /\ (match e with
      | Landed k | Matched k => isWordType (Kana.type k) && truthy (Kana.wordId k)
      end = true ->
      Stats.byCharacter (recordEvent s e) = Stats.byCharacter s).
Proof.
  destruct e as [k|k]; cbn [recordEvent]; [unfold recordMiss|unfold recordHit];
    destruct (isWordType (Kana.type k) && truthy (Kana.wordId k)).
  - destruct (findWord _); [destruct (optZeq _ 0)|]; cbn; repeat split; lia.
  - cbn. split; [reflexivity|]. split; [lia|discriminate].
  - destruct (findWord _); cbn; repeat split; lia.
  - cbn. split; [reflexivity|]. split; [lia|discriminate].
Qed.

(** X26.  Over any course of landings and matches, the total of misses in
    the statistics is never raised, and the total of correct answers
    counts the matches.  Blocks that are word fragments leave the table of
    characters alone, so after a game of words only, begun with empty
    statistics, the accuracy stored in the history is 0. *)
Theorem stats_totals (events : list StatEvent) (s : Stats.t) :
  Stats.missed (recordAll events s) = Stats.missed s
  /\ Stats.correct (recordAll events s)
     = Stats.correct s
       + Z.of_nat (length (List.filter
                             (fun e => match e with Matched _ => true | Landed _ => false end)
                             events))
  /\ (Forall (fun e => match e with
                       | Landed k | Matched k =>
                           isWordType (Kana.type k) && truthy (Kana.wordId k)
                       end = true) events ->
      Stats.byCharacter (recordAll events s) = Stats.byCharacter s
      /\ saveHistoryAccuracy (recordAll events Stats.empty) = 0).
Proof.
  assert (H : forall s,
            Stats.missed (recordAll events s) = Stats.missed s
            /\ Stats.correct (recordAll events s)
               = Stats.correct s
                 + Z.of_nat (length (List.filter
                      (fun e => match e with Matched _ => true | Landed _ => false end)
                      events))
            /\ (Forall (fun e => match e with
                                 | Landed k | Matched k =>
                                     isWordType (Kana.type k) && truthy (Kana.wordId k)
                                 end = true) events ->
                Stats.byCharacter (recordAll events s) = Stats.byCharacter s)).
  { unfold recordAll. induction events as [|e events IH]; intros s0.
    - simpl. split; [reflexivity|]. split; [lia|reflexivity].
    - cbn [fold_left]. destruct (IH (recordEvent s0 e)) as (H1 & H2 & H3).
      destruct (recordEvent_totals s0 e) as (E1 & E2 & E3).
      split; [congruence|]. split.
      + rewrite H2, E2. destruct e; cbn [List.filter length]; lia.
      + intros Hall. inversion Hall as [|? ? He Hrest]; subst.
        rewrite H3 by exact Hrest. apply E3. exact He. }
  destruct (H s) as (H1 & H2 & H3). split; [exact H1|]. split; [exact H2|].
  intros Hall. split; [apply H3; exact Hall|].
  destruct (H Stats.empty) as (_ & _ & H4). unfold saveHistoryAccuracy.
  rewrite (H4 Hall). cbn [Stats.empty Stats.byCharacter].
  rewrite map_to_list_empty. reflexivity.
Qed.
End StatProofs.

Lemma length_filter_le {A} (p : A -> bool) (l : list A) :
  (length (List.filter p l) <= length l)%nat.
Proof.
  induction l as [|x l IH]; simpl; [lia|]. destruct (p x); simpl; lia.
Qed.

Lemma filter_all {A} (p : A -> bool) (l : list A) :
  (forall x, In x l -> p x = true) -> List.filter p l = l.
Proof.
  induction l as [|x l IH]; intros H; simpl; [reflexivity|].
  rewrite (H x (or_introl eq_refl)). f_equal. apply IH. intros y Hy. apply H. right. exact Hy.
Qed.

Lemma filter_none {A} (p : A -> bool) (l : list A) :
  (forall x, In x l -> p x = false) -> List.filter p l = [].
Proof.
  induction l as [|x l IH]; intros H; simpl; [reflexivity|].
  rewrite (H x (or_introl eq_refl)). apply IH. intros y Hy. apply H. right. exact Hy.
Qed.

Lemma roundQ_percent (c t : Z) :
  0 <= c <= t -> 0 < t ->
  0 <= roundQ (inject_Z c / inject_Z t * 100) <= 100.
Proof.
  intros Hc Ht. unfold roundQ.
  assert (Htq : (0 < inject_Z t)%Q).
  { change 0%Q with (inject_Z 0). rewrite <- Zlt_Qlt. exact Ht. }
  assert (H0 : (0 <= inject_Z c / inject_Z t)%Q).
  { apply Qle_shift_div_l; [exact Htq|]. rewrite Qmult_0_l.
    change 0%Q with (inject_Z 0). rewrite <- Zle_Qle. lia. }
  assert (H1 : (inject_Z c / inject_Z t <= 1)%Q).
  { apply Qle_shift_div_r; [exact Htq|]. rewrite Qmult_1_l. rewrite <- Zle_Qle. lia. }
  assert (Hlow : Qfloor 0 <= Qfloor (inject_Z c / inject_Z t * 100 + (1 # 2)))
    by (apply Qfloor_resp_le; lra).
  assert (Hhigh : Qfloor (inject_Z c / inject_Z t * 100 + (1 # 2))
                  <= Qfloor (100 + (1 # 2)))
    by (apply Qfloor_resp_le; lra).
  change (Qfloor 0) with 0 in Hlow. change (Qfloor (100 + (1 # 2))) with 100 in Hhigh.
  split; assumption.
Qed.

(** X27.  The accuracy stored in the history is a whole number from 0 to
    100: the rounded share of the distinct characters met that were
    answered at least once.  It is 100 when every character met was
    answered once, 0 when none was or none was met, and the number of
    misses has no part in it. *)
Theorem history_accuracy_range (l : list CharStat.t) :
  0 <= historyAccuracy l <= 100
  /\ (l <> [] -> (forall s, In s l -> 0 < CharStat.correct s) -> historyAccuracy l = 100)
  /\ ((forall s, In s l -> CharStat.correct s <= 0) -> historyAccuracy l = 0)
  /\ (forall missed : CharStat.t -> Z,
        historyAccuracy
          (List.map (fun s => CharStat.mk (CharStat.correct s) (missed s)
                                          (CharStat.char s) (CharStat.romaji s)) l)
        = historyAccuracy l).
Proof.
  unfold historyAccuracy. split; [|split; [|split]].
  - destruct (0 <? length l)%nat eqn:E; [|lia]. apply Nat.ltb_lt in E.
    apply roundQ_percent; [|lia].
    pose proof (length_filter_le (fun s => 0 <? CharStat.correct s) l). lia.
  - intros Hne Hall. rewrite filter_all by (intros s Hs; apply Z.ltb_lt, Hall, Hs).
    destruct l as [|s l]; [destruct (Hne eq_refl)|].
    change (0 <? length (s :: l))%nat with true. cbv iota.
    set (t := Z.of_nat (length (s :: l))).
    assert (Ht : 0 < t) by (subst t; simpl; lia). clearbody t. unfold roundQ.
    assert (Htq : ~ (inject_Z t == 0)%Q).
    { intros H. unfold Qeq in H. simpl in H. lia. }
    assert (Heq : (inject_Z t / inject_Z t * 100 + (1 # 2) == 100 + (1 # 2))%Q).
    { field. exact Htq. }
    rewrite Heq. reflexivity.
  - intros Hall.
    rewrite filter_none by (intros s Hs; apply Z.ltb_ge, Hall, Hs).
    destruct (0 <? length l)%nat; [|reflexivity]. cbn [length Z.of_nat].
    unfold roundQ.
    assert (Heq : (inject_Z 0 / inject_Z (Z.of_nat (length l)) * 100 + (1 # 2) == 1 # 2)%Q).
    { unfold Qdiv. change (inject_Z 0) with 0%Q. rewrite !Qmult_0_l. reflexivity. }
    rewrite Heq. reflexivity.
  - intros missed. rewrite List.length_map.
    assert (Hf : forall l0 : list CharStat.t,
              length (List.filter (fun s => 0 <? CharStat.correct s)
                        (List.map (fun s => CharStat.mk (CharStat.correct s) (missed s)
                                             (CharStat.char s) (CharStat.romaji s)) l0))
              = length (List.filter (fun s => 0 <? CharStat.correct s) l0)).
    { induction l0 as [|s l0 IH]; [reflexivity|]. simpl.
      destruct (0 <? CharStat.correct s); simpl; rewrite IH; reflexivity. }
    rewrite Hf. reflexivity.
Qed.

(** ** The colour of a stacked block *)

(** X28.  A stacked word fragment is shown gray from ten blocks processed
    since its landing, in the faded shade of its part of speech from two,
    and in its full colour before; the lighter shade is never shown,
    its test coming after that of the faded shade.  So a fragment already
    shown faded, two or three blocks after landing, still counts as a
    confident clear. *)
Theorem stacked_colour_tiers (bp s : Z) (kana : Kana.t) :
  Kana.type kana = TyWord ->
  Kana.stackedAt kana = Some s ->
  getStackedBlockColor bp kana
  = (if CONFIDENCE_THRESHOLD_DIFFICULT <=? bp - s
     then "bg-gray-400 text-gray-700 border-gray-500 font-bold"%string
     else if 2 <=? bp - s
     then String.append (fadedColor (Kana.pos kana)) " font-bold opacity-70"
     else getKanaColor TyWord (Kana.pos kana))
  /\ getStackedBlockColor bp kana <> String.append (lightColor (Kana.pos kana)) " font-bold"
  /\ (2 <= bp - s < CONFIDENCE_THRESHOLD_HESITANT ->
      getStackedBlockColor bp kana
      = String.append (fadedColor (Kana.pos kana)) " font-bold opacity-70"
      /\ classify true 0 (bp - s) = confident).
Proof.
  intros Hty Hst. unfold getStackedBlockColor. rewrite Hty, Hst.
  unfold CONFIDENCE_THRESHOLD_DIFFICULT, CONFIDENCE_THRESHOLD_HESITANT.
  split; [|split].
  - destruct (10 <=? bp - s); [reflexivity|]. destruct (2 <=? bp - s) eqn:E2; [reflexivity|].
    destruct (4 <=? bp - s) eqn:E4; [|reflexivity].
    apply Z.leb_gt in E2. apply Z.leb_le in E4. lia.
  - destruct (10 <=? bp - s); [destruct (Kana.pos kana) as [[]|]; discriminate|].
    destruct (2 <=? bp - s) eqn:E2; [destruct (Kana.pos kana) as [[]|]; discriminate|].
    destruct (4 <=? bp - s) eqn:E4; [|destruct (Kana.pos kana) as [[]|]; discriminate].
    apply Z.leb_gt in E2. apply Z.leb_le in E4. lia.
  - intros [H2 H4]. unfold classify, CONFIDENCE_THRESHOLD_DIFFICULT,
      CONFIDENCE_THRESHOLD_HESITANT.
    replace (10 <=? bp - s) with false by (symmetry; apply Z.leb_gt; lia).
    replace (2 <=? bp - s) with true by (symmetry; apply Z.leb_le; lia).
    replace (4 <=? bp - s) with false by (symmetry; apply Z.leb_gt; lia).
    split; reflexivity.
Qed.

Lemma stacked_colour_tiers_witness :
  getStackedBlockColor 3 (Sample.fragment "b0" Sample.neko "g1" 0 2 0 540 (Some 0))
  = "bg-blue-200 text-blue-600 border-blue-300 font-bold opacity-70"%string
  /\ classify true 0 (3 - 0) = confident.
Proof.
  destruct (stacked_colour_tiers 3 0
              (Sample.fragment "b0" Sample.neko "g1" 0 2 0 540 (Some 0)))
    as (_ & _ & H).
  - reflexivity.
  - reflexivity.
  - destruct H as [H1 H2]; [unfold CONFIDENCE_THRESHOLD_HESITANT; lia|].
    split; [rewrite H1; reflexivity|exact H2].
Defined.

(** ** Stopping, and the floor *)

Section StopProofs.
Context {K : Constants}.

(** X29.  A stopped game stays as it is: stopping keeps the score and the
    blocks, and after it no frame, no press of the pause button or the
    space bar and no click on the freeze button changes the game state. *)
Theorem stopped_game_is_inert (a : App.t) (frames : list (Q * Z * Rolls.t)) (now : Z) :
  Game.score (App.gameState (stopGame a)) = Game.score (App.gameState a)
  /\ allVisible (App.gameState (stopGame a)) = allVisible (App.gameState a)
  /\ App.gameState (updates frames (stopGame a)) = App.gameState (stopGame a)
  /\ togglePause (stopGame a) = stopGame a
  /\ spacePause (stopGame a) = stopGame a
  /\ freezeAbility now (stopGame a) = stopGame a.
Proof.
  split; [reflexivity|]. split; [reflexivity|]. split.
  - apply idle_frames. right. left. reflexivity.
  - split; [reflexivity|]. split; reflexivity.
Qed.
End StopProofs.

Section FloorProofs.
Context {K : Constants}.

(** X30.  The stack rests on the floor: with a cell size that is not
    negative, in every reachable state every stacked block lies at least
    one cell above the floor line, so the top of every column is at the
    floor line or above it. *)
Theorem stack_rests_on_floor (a : App.t) :
  (0 <= CELL_SIZE)%Q ->
  Reachable a ->
  Forall (fun k => (Kana.y k <= BOARD_HEIGHT - CELL_SIZE)%Q)
         (Game.stackedKana (App.gameState a))
  /\ forall col, (topOfStack (Game.stackedKana (App.gameState a)) col <= BOARD_HEIGHT)%Q.
Proof.
  intros Hc Hr. pose proof (reachable_stack_onBoard Hc a Hr) as Hall.
  split; [exact Hall|]. intros col. apply topOfStack_le_floor.
  intros s Hs. rewrite List.Forall_forall in Hall. specialize (Hall s Hs).
  unfold onBoard in Hall. lra.
Qed.
End FloorProofs.

Lemma stack_rests_on_floor_witness :
  Forall (fun k => (Kana.y k <= 600 - 60)%Q)
         (Game.stackedKana (App.gameState Sample.played)).
Proof.
  apply (@stack_rests_on_floor Sample.steep Sample.played).
  - vm_compute. discriminate.
  - exact played_reachable.
Defined.

(** ** The landing of a group, in the frame *)

Lemma pairs_split {A B} (L : list (A * B)) (pre post : list B) (g : B) :
  List.map snd L = pre ++ g :: post ->
  exists Lpre key Lpost,
    L = Lpre ++ (key, g) :: Lpost
    /\ List.map snd Lpre = pre /\ List.map snd Lpost = post.
Proof.
  revert L. induction pre as [|p pre IH]; intros L H.
  - destruct L as [|[key g0] L]; [discriminate H|]. simpl in H.
    injection H as H1 H2. subst g0 post. exists [], key, L. repeat split.
  - destruct L as [|[key0 g0] L]; [discriminate H|]. simpl in H.
    injection H as H1 H2. subst p.
    destruct (IH L H2) as (Lpre & key & Lpost & HL & H3 & H4). subst L pre post.
    exists ((key0, g0) :: Lpre), key, Lpost. repeat split.
Qed.

Lemma keyed_unique {A B} (L : list (A * B)) (key : A) (g g' : B) :
  List.NoDup (List.map fst L) -> In (key, g) L -> In (key, g') L -> g = g'.
Proof.
  induction L as [|[k0 g0] L IH]; intros Hn H1 H2; [destruct H1|].
  simpl in Hn. inversion Hn as [|? ? Hnot Hrest]; subst.
  destruct H1 as [H1|H1]; destruct H2 as [H2|H2].
  - congruence.
  - injection H1 as -> ->. exfalso. apply Hnot. apply in_map_iff. exists (key, g'). tauto.
  - injection H2 as -> ->. exfalso. apply Hnot. apply in_map_iff. exists (key, g). tauto.
  - apply IH; assumption.
Qed.

Lemma groupKey_landedAt k y n : Kana.groupKey (Kana.landedAt k y n) = Kana.groupKey k.
Proof. reflexivity. Qed.

Section LandingProofs.
Context {K : Constants}.

(** The groups of [groupByKey] are the blocks under each key: a block of
    the list lies in the group that bears its key. *)
Lemma groupByKey_group l key g k :
  In (key, g) (groupByKey l) -> In k l -> (In k g <-> Kana.groupKey k = key).
Proof.
  intros Hg Hk. destruct (groupByKey_keys l) as [Hn Hm]. split.
  - intros Hin. apply (Hm key g k Hg Hin).
  - intros Hkey. apply groupByKey_In in Hk. apply in_concat in Hk.
    destruct Hk as (g' & Hg' & Hin). apply in_map_iff in Hg'.
    destruct Hg' as ([key' g0] & Heq & Hg0). simpl in Heq. subst g0.
    assert (key' = key) by (rewrite <- Hkey; symmetry; apply (Hm key' g' k Hg0 Hin)).
    subst key'. rewrite (keyed_unique _ _ _ _ Hn Hg Hg0). exact Hin.
Qed.

Lemma fallGroup_stack_kept speed bp f group s :
  In s (nextStackedKana f) -> In s (nextStackedKana (fallGroup speed bp f group)).
Proof.
  intros Hs. destruct (collides speed (nextStackedKana f) group) eqn:Hc.
  - destruct (fallGroup_landing speed bp f group Hc) as (_ & Hst & _).
    rewrite Hst. apply in_or_app. tauto.
  - unfold fallGroup. rewrite Hc. exact Hs.
Qed.

Lemma fall_stack_kept speed bp groups f s :
  In s (nextStackedKana f) ->
  In s (nextStackedKana (fold_left (fallGroup speed bp) groups f)).
Proof.
  revert f. induction groups as [|g groups IH]; intros f Hs; [exact Hs|].
  cbn [fold_left]. apply IH, fallGroup_stack_kept, Hs.
Qed.

(** The fall loop puts no block below the floor line. *)
Lemma fallGroup_above_floor speed bp f group :
  (0 <= CELL_SIZE)%Q ->
  (forall s, In s (nextStackedKana f) -> (Kana.y s <= BOARD_HEIGHT)%Q) ->
  forall s, In s (nextStackedKana (fallGroup speed bp f group)) ->
    (Kana.y s <= BOARD_HEIGHT)%Q.
Proof.
  intros Hcell Hf s Hs. destruct (collides speed (nextStackedKana f) group) eqn:Hc.
  - destruct (fallGroup_landing speed bp f group Hc) as (_ & Hst & _).
    rewrite Hst in Hs. apply in_app_iff in Hs. destruct Hs as [Hs|Hs]; [apply Hf, Hs|].
    apply in_map_iff in Hs. destruct Hs as (k & <- & Hk). cbn [Kana.landedAt Kana.y].
    pose proof (fold_Qmin_le_each
                  (fun kana => topOfStack (nextStackedKana f) (Kana.column kana) - CELL_SIZE)%Q
                  group (BOARD_HEIGHT * 2)%Q k Hk) as Hle.
    change (fold_left _ group (BOARD_HEIGHT * 2)%Q)
      with (minTargetY (nextStackedKana f) group) in Hle. cbv beta in Hle.
    pose proof (topOfStack_le_floor (nextStackedKana f) (Kana.column k) Hf). lra.
  - unfold fallGroup in Hs. rewrite Hc in Hs. apply Hf, Hs.
Qed.

Lemma fall_above_floor speed bp groups f :
  (0 <= CELL_SIZE)%Q ->
  (forall s, In s (nextStackedKana f) -> (Kana.y s <= BOARD_HEIGHT)%Q) ->
  forall s, In s (nextStackedKana (fold_left (fallGroup speed bp) groups f)) ->
    (Kana.y s <= BOARD_HEIGHT)%Q.
Proof.
  intros Hcell. revert f. induction groups as [|g groups IH]; intros f Hf; [exact Hf|].
  cbn [fold_left]. apply IH. apply fallGroup_above_floor; assumption.
Qed.

Lemma settle_kept speed gs updated x :
  In x updated -> In x (fold_left (settleGroup speed) gs updated).
Proof.
  revert updated. induction gs as [|g gs IH]; intros updated Hx; [exact Hx|].
  cbn [fold_left]. apply IH. unfold settleGroup. apply in_or_app. tauto.
Qed.

(** The gravity step moves the blocks of a group by one and the same
    distance. *)
Lemma settle_group_step speed gs updated g :
  In g gs ->
  exists d, (0 <= d <= Qmax 0 speed)%Q
    /\ forall b, In b (snd g) ->
         In (Kana.withY b (Kana.y b + d)) (fold_left (settleGroup speed) gs updated).
Proof.
  revert updated. induction gs as [|g0 gs IH]; intros updated Hg; [destruct Hg|].
  cbn [fold_left]. destruct Hg as [->|Hg]; [|apply IH; exact Hg].
  eexists. split; [|intros b Hb; apply settle_kept; unfold settleGroup;
                    apply in_or_app; right; apply in_map_iff; exists b; split;
                    [reflexivity|exact Hb]].
  split; [apply Q.le_max_l|]. apply Q.max_le_compat_l.
  destruct (fold_left _ (snd g) None); [apply Q.le_min_r|apply Qle_refl].
Qed.

(** C3.  In the fall step of a frame the falling blocks are taken group by
    group, a group being the falling blocks under one group key.  When
    some member of a group would reach the top of the stack of its column,
    no member of the group falls on: every member is put on the stack,
    with the current count as its landing stamp, at one and the same row,
    and this row is the least, over the members, of the top of the
    member's column less one cell; the stack being the one the groups
    taken before have left.  The gravity step that ends the frame lowers
    the members together, by one distance between nothing and the current
    speed, so that they are stacked at one row in the state the frame
    produces.  Cell size and board height are assumed not negative, and
    no stacked block below the floor line. *)
Theorem landing_group_uniform_row (bp : Z) (prev : Game.t)
    (pre post : list (list Kana.t)) (group : list Kana.t) :
  (0 <= CELL_SIZE)%Q ->
  (0 <= BOARD_HEIGHT)%Q ->
  (forall s, In s (Game.stackedKana prev) -> (Kana.y s <= BOARD_HEIGHT)%Q) ->
  List.map snd (groupByKey (Game.activeKana prev)) = pre ++ group :: post ->
  let f := fold_left (fallGroup (currentSpeed prev) bp) pre
             (mkFall [] (Game.stackedKana prev) false false (Game.score prev)) in
  (exists k, In k group
     /\ (topOfStack (nextStackedKana f) (Kana.column k)
         <= Kana.y k + currentSpeed prev + CELL_SIZE)%Q) ->
  exists row d,
    (exists key, forall k, In k (Game.activeKana prev) ->
                   (In k group <-> Kana.groupKey k = key))
    /\ (forall k, In k group ->
          (row <= topOfStack (nextStackedKana f) (Kana.column k) - CELL_SIZE)%Q)
    /\ (exists k, In k group
          /\ (row == topOfStack (nextStackedKana f) (Kana.column k) - CELL_SIZE)%Q)
    /\ (forall k, In k group ->
          In (Kana.landedAt k row bp)
             (nextStackedKana (fallStep (currentSpeed prev) bp prev)))
    /\ (forall k', In k' (Game.activeKana (physics bp prev)) ->
          exists k, In k (Game.activeKana prev) /\ ~ In k group
                    /\ k' = Kana.withY k (Kana.y k + currentSpeed prev))
    /\ (0 <= d <= Qmax 0 (currentSpeed prev))%Q
    /\ (forall k, In k group ->
          In (Kana.withY (Kana.landedAt k row bp) (row + d))
             (Game.stackedKana (physics bp prev))).
Proof.
  intros Hcell Hboard Hstack Hgroups f Hhit.
  set (speed := currentSpeed prev) in *.
  destruct (pairs_split _ _ _ _ Hgroups) as (Lpre & key & Lpost & HL & Hpre & Hpost).
  destruct (groupByKey_keys (Game.activeKana prev)) as [Hn Hm].
  assert (Hg : In (key, group) (groupByKey (Game.activeKana prev))).
  { rewrite HL. apply in_or_app. right. left. reflexivity. }
  assert (Hf : forall s, In s (nextStackedKana f) -> (Kana.y s <= BOARD_HEIGHT)%Q).
  { subst f. apply fall_above_floor; [exact Hcell|exact Hstack]. }
  destruct (fallGroup_uniform_row speed bp f group Hcell Hboard Hf Hhit)
    as (row & Hact & Hst & _ & Hle & Hatt).
  assert (Hsplit : fallStep speed bp prev
                   = fold_left (fallGroup speed bp) post (fallGroup speed bp f group)).
  { apply fallStep_split. exact Hgroups. }
  assert (Hlanded : forall k, In k group ->
            In (Kana.landedAt k row bp) (nextStackedKana (fallStep speed bp prev))).
  { intros k Hk. rewrite Hsplit. apply fall_stack_kept. rewrite Hst.
    apply in_or_app. right. apply in_map_iff. exists k. tauto. }
  (* the group of the stack in which the members lie after the fall step *)
  destruct Hhit as (k0 & Hk0 & _).
  set (stack := nextStackedKana (fallStep speed bp prev)) in *.
  assert (Hsg : exists gs, In (key, gs) (groupByKey stack)
                  /\ forall k, In k group -> In (Kana.landedAt k row bp) gs).
  { destruct (groupByKey_keys stack) as [Hsn Hsm].
    pose proof (Hlanded k0 Hk0) as H0. apply groupByKey_In in H0. apply in_concat in H0.
    destruct H0 as (gs & Hgs & Hin0). apply in_map_iff in Hgs.
    destruct Hgs as ([key' gs'] & Heq & Hgs). simpl in Heq. subst gs'.
    assert (key' = key).
    { rewrite <- (Hm key group k0 Hg Hk0), <- (groupKey_landedAt k0 row bp).
      symmetry. apply (Hsm key' gs _ Hgs Hin0). }
    subst key'. exists gs. split; [exact Hgs|]. intros k Hk.
    apply (groupByKey_group stack key gs _ Hgs (Hlanded k Hk)).
    rewrite groupKey_landedAt. apply (Hm key group k Hg Hk). }
  destruct Hsg as (gs & Hgs & Hmembers).
  destruct (settle_group_step speed (sortGroups (groupByKey stack)) [] (key, gs))
    as (d & Hd & Hmoved).
  { eapply Permutation_in; [symmetry; apply sortGroups_permutation|exact Hgs]. }
  exists row, d.
  split.
  { exists key. intros k Hk. exact (groupByKey_group _ key group k Hg Hk). }
  split; [exact Hle|]. split; [exact Hatt|]. split; [exact Hlanded|]. split.
  { intros k' Hk'. unfold physics in Hk'. cbn [Game.activeKana] in Hk'.
    fold speed in Hk'. rewrite Hsplit in Hk'.
    assert (Hfrom : exists g' key' k, (In (key', g') Lpre \/ In (key', g') Lpost)
                      /\ In k g' /\ k' = Kana.withY k (Kana.y k + speed)).
    { destruct (fall_active _ _ _ _ _ Hk') as [H1|(k & Hk & ->)].
      - rewrite Hact in H1. subst f.
        destruct (fall_active _ _ _ _ _ H1) as [[]|(k & Hk & ->)].
        rewrite <- Hpre in Hk. apply in_concat in Hk. destruct Hk as (g' & Hg' & Hin).
        apply in_map_iff in Hg'. destruct Hg' as ([key' g0] & Heq & Hg0).
        simpl in Heq. subst g0. exists g', key', k. tauto.
      - rewrite <- Hpost in Hk. apply in_concat in Hk. destruct Hk as (g' & Hg' & Hin).
        apply in_map_iff in Hg'. destruct Hg' as ([key' g0] & Heq & Hg0).
        simpl in Heq. subst g0. exists g', key', k. tauto. }
    destruct Hfrom as (g' & key' & k & Hg' & Hin & ->).
    assert (HinL : In (key', g') (groupByKey (Game.activeKana prev))).
    { rewrite HL. apply in_or_app. destruct Hg' as [H|H]; [left; exact H|].
      right. right. exact H. }
    exists k. split.
    - apply groupByKey_In. apply in_concat. exists g'. split; [|exact Hin].
      apply in_map_iff. exists (key', g'). tauto.
    - split; [|reflexivity]. intros Hkg.
      assert (key' = key).
      { rewrite <- (Hm key' g' k HinL Hin). apply (Hm key group k Hg Hkg). }
      subst key'. rewrite HL, List.map_app in Hn. cbn [List.map fst] in Hn.
      apply NoDup_remove_2 in Hn. apply Hn. apply in_or_app.
      destruct Hg' as [H|H]; [left|right]; apply in_map_iff; exists (key, g'); tauto. }
  split; [exact Hd|].
  intros k Hk. unfold physics. cbn [Game.stackedKana]. fold speed. fold stack.
  unfold gravity. apply (Hmoved _ (Hmembers k Hk)).
Qed.
End LandingProofs.

Lemma landing_group_uniform_row_witness :
  let stack := [Sample.fragment "s0" Sample.neko "g0" 0 1 3 540 (Some 0)] in
  let group := [Sample.fragment "b0" Sample.sakana "g1" 0 3 2 479.5 None;
                Sample.fragment "b1" Sample.sakana "g1" 1 3 3 479.5 None;
                Sample.fragment "b2" Sample.sakana "g1" 2 3 4 479.5 None] in
  let prev := Sample.game words group stack 0 in
  exists row d,
    (row == 480)%Q
    /\ Forall (fun k => In (Kana.withY (Kana.landedAt k row 7) (row + d))
                           (Game.stackedKana (@physics Sample.board 7 prev)))
              group.
Proof.
  intros stack group prev.
  destruct (@landing_group_uniform_row Sample.board 7 prev [] [] group)
    as (row & d & _ & Hle & (k & Hin & He) & _ & _ & _ & Hall).
  - vm_compute. discriminate.
  - vm_compute. discriminate.
  - intros s [<-|[]]. vm_compute. discriminate.
  - reflexivity.
  - exists (Sample.fragment "b1" Sample.sakana "g1" 1 3 3 479.5 None).
    split; [right; left; reflexivity|]. vm_compute. discriminate.
  - exists row, d. split; [|apply List.Forall_forall; exact Hall].
    assert (Hmid : (row <= 480)%Q).
    { specialize (Hle (Sample.fragment "b1" Sample.sakana "g1" 1 3 3 479.5 None)).
      eapply Qle_trans; [apply Hle; right; left; reflexivity|].
      vm_compute. discriminate. }
    destruct Hin as [<-|[<-|[<-|[]]]].
    + exfalso. rewrite He in Hmid. vm_compute in Hmid. apply Hmid. reflexivity.
    + rewrite He. reflexivity.
    + exfalso. rewrite He in Hmid. vm_compute in Hmid. apply Hmid. reflexivity.
Defined.
